(** * The autoload manager of fish-shell (autoload.cpp)

    A shallow embedding of [lru_cache_impl_t] (the bounded recency cache)
    and of [autoload_t] (the autoload manager built on it), followed by the
    properties of the two layers. *)

From stdpp Require Import gmap strings list sorting.
From Stdlib Require Import ZArith.

(** ** Part I. The bounded recency cache, [lru_cache_impl_t] *)

(** [lru_node_t] carries a key and the two links of the recency list. The
    cache is written against that base class; what it needs from a node is
    its key, and the virtual method [node_was_evicted] it calls on every
    node it evicts. Both are interfaces here. The events of type [E] are
    whatever the override of the hook does to the outside world. *)
Class Keyed (node : Type) := node_key : node → string.
Class EvictionHook (node E : Type) := node_was_evicted : node → list E.

(** The cache object. [node_set] is the keyed index (a std::set of node
    pointers ordered by key): it maps a key to the node object, and a
    write through a node pointer is an update of that map. The circular
    list hooked on the sentinel [mouth] is kept as the list of the linked
    nodes, named by their keys, from [mouth.next] (most recently used) to
    [mouth.prev] (least recently used); the sentinel itself is the two ends
    of that list and is not an element. [node_count] and [max_node_count]
    are the size_t counters; the number of live nodes is bounded by the
    address space, so they are counted in nat. *)
Record lru_cache_impl_t (node : Type) := LruCache {
  max_node_count : nat;
  node_count : nat;
  node_set : gmap string node;
  lru_list : list string
}.
Arguments LruCache {node} _ _ _ _.
Arguments max_node_count {node} _.
Arguments node_count {node} _.
Arguments node_set {node} _.
Arguments lru_list {node} _.

Section lru_cache.
Context {node E : Type} `{!Keyed node} `{!EvictionHook node E}.

(** The constructor: the sentinel linked to itself, nothing indexed. *)
Definition lru_cache_new (size : nat) : lru_cache_impl_t node :=
  LruCache size 0 ∅ [].

(** [p->prev->next = p->next; p->next->prev = p->prev]: the node leaves
    the list. *)
Definition unlink (k : string) (l : list string) : list string :=
  filter (λ x, x ≠ k) l.

(** [evict_node], the overload taking a node pointer. The condemned node
    is given by its key. The result is [None] when the assertion fails, or
    when the key names no node object (a state that no run of the program
    produces, see [lru_invariant_after_every_operation]). *)
Definition evict_node (k : string) (c : lru_cache_impl_t node)
    : option (lru_cache_impl_t node * list E) :=
  match node_set c !! k with
  | None => None
  | Some n =>
      Some (LruCache (max_node_count c) (pred (node_count c))
              (delete k (node_set c)) (unlink k (lru_list c)),
            node_was_evicted n)
  end.

(** [evict_last_node]: the condemned node is [mouth.prev]. On an empty
    list that is the sentinel, and the assertion of [evict_node] fails. *)
Definition evict_last_node (c : lru_cache_impl_t node)
    : option (lru_cache_impl_t node * list E) :=
  match last (lru_list c) with
  | None => None
  | Some k => evict_node k c
  end.

(** [evict_node], the overload taking a key. *)
Definition evict_node_by_key (k : string) (c : lru_cache_impl_t node)
    : option (bool * lru_cache_impl_t node * list E) :=
  match node_set c !! k with
  | None => Some (false, c, [])
  | Some _ =>
      match evict_node k c with
      | None => None
      | Some (c', ev) => Some (true, c', ev)
      end
  end.

(** [promote_node]: unhook, then link in after the sentinel. *)
Definition promote_node (k : string) (c : lru_cache_impl_t node)
    : lru_cache_impl_t node :=
  LruCache (max_node_count c) (node_count c) (node_set c)
    (k :: unlink k (lru_list c)).

(** [while (node_count > bound) evict_last_node();]. Every turn of the
    loop decrements [node_count], so [node_count] turns are enough: the
    loop is run with that many, see [evict_while_above_fuel]. *)
Fixpoint evict_while_above (bound fuel : nat) (c : lru_cache_impl_t node)
    : option (lru_cache_impl_t node * list E) :=
  if decide (bound < node_count c) then
    match fuel with
    | 0 => None
    | S fuel' =>
        match evict_last_node c with
        | None => None
        | Some (c1, ev1) =>
            match evict_while_above bound fuel' c1 with
            | None => None
            | Some (c2, ev2) => Some (c2, ev1 ++ ev2)
            end
        end
    end
  else Some (c, []).

(** The insertion into the index, the linking after the sentinel and
    the increment of the count, as [add_node_without_eviction] does them
    once the key is known to be new. *)
Definition link_after_mouth (n : node) (c : lru_cache_impl_t node)
    : lru_cache_impl_t node :=
  LruCache (max_node_count c) (S (node_count c))
    (<[node_key n := n]> (node_set c)) (node_key n :: lru_list c).

(** [add_node_without_eviction]. *)
Definition add_node_without_eviction (n : node) (c : lru_cache_impl_t node)
    : option (bool * lru_cache_impl_t node * list E) :=
  match node_set c !! node_key n with
  | Some _ => Some (false, c, [])
  | None =>
      let c1 := link_after_mouth n c in
      match evict_while_above (max_node_count c1) (node_count c1) c1 with
      | None => None
      | Some (c2, ev) => Some (true, c2, ev)
      end
  end.

(** [add_node]. *)
Definition add_node (n : node) (c : lru_cache_impl_t node)
    : option (bool * lru_cache_impl_t node * list E) :=
  match add_node_without_eviction n c with
  | None => None
  | Some (false, c1, ev1) => Some (false, c1, ev1)
  | Some (true, c1, ev1) =>
      match evict_while_above (max_node_count c1) (node_count c1) c1 with
      | None => None
      | Some (c2, ev2) => Some (true, c2, ev1 ++ ev2)
      end
  end.

(** [get_node]: the node found, promoted; or NULL. *)
Definition get_node (k : string) (c : lru_cache_impl_t node)
    : option node * lru_cache_impl_t node :=
  match node_set c !! k with
  | Some n => (Some n, promote_node k c)
  | None => (None, c)
  end.

(** [evict_all_nodes]. *)
Definition evict_all_nodes (c : lru_cache_impl_t node)
    : option (lru_cache_impl_t node * list E) :=
  evict_while_above 0 (node_count c) c.

(** A write through a node pointer: [func->field = v]. *)
Definition update_node (k : string) (f : node → node)
    (c : lru_cache_impl_t node) : lru_cache_impl_t node :=
  LruCache (max_node_count c) (node_count c) (alter f k (node_set c))
    (lru_list c).

(** The representation invariant of the class. *)
Record lru_wf (c : lru_cache_impl_t node) : Prop := LruWf {
  wf_count_index : node_count c = size (node_set c);
  wf_count_list : node_count c = length (lru_list c);
  wf_nodup : NoDup (lru_list c);
  wf_linked : ∀ k, k ∈ lru_list c ↔ is_Some (node_set c !! k);
  wf_keys : ∀ k n, node_set c !! k = Some n → node_key n = k
}.
End lru_cache.

(** ** Part II. The autoload manager, [autoload_t] *)

(** What a call does to the collaborators of the manager, in order. *)
Inductive event : Type :=
  | AccessFile (path : string)       (* access_file: wstat, then waccess *)
  | CommandRemoved (cmd : string)    (* the virtual command_removed *)
  | ExecSubshell (src : string)      (* exec_subshell *)
  | DebugMessage (cmd : string)      (* debug: the circular dependency *)
  | BlockedSignals.                  (* the report of CHECK_BLOCK *)

(** [file_access_attempt_t] and [builtin_script_t] are declared in
    autoload.h and builtin_scripts.h; the fields are the ones this file
    reads and writes. time_t values are integers. *)
Record file_access_attempt_t : Type := FileAccess {
  mod_time : Z;
  last_checked : Z;
  accessible : bool;
  stale : bool;
  error : Z
}.

Record builtin_script_t : Type := BuiltinScript {
  name : string;
  def : string
}.

(** [autoload_function_t]: an [lru_node_t] with the load metadata. *)
Record autoload_function_t : Type := AutoloadFunction {
  key : string;
  access : file_access_attempt_t;
  is_loaded : bool;
  is_placeholder : bool
}.

(** Modelled from the spec: the constructor [autoload_function_t(key)] is
    in autoload.h, which is not part of this file. A new entry has a
    zeroed access record and is neither loaded nor a placeholder (the
    caller sets [is_placeholder] itself when it wants one). *)
Definition new_autoload_function (cmd : string) : autoload_function_t :=
  AutoloadFunction cmd (FileAccess 0 0 false false 0) false false.

Definition set_access (a : file_access_attempt_t) (f : autoload_function_t) :=
  AutoloadFunction (key f) a (is_loaded f) (is_placeholder f).
Definition set_is_loaded (b : bool) (f : autoload_function_t) :=
  AutoloadFunction (key f) (access f) b (is_placeholder f).
Definition set_is_placeholder (b : bool) (f : autoload_function_t) :=
  AutoloadFunction (key f) (access f) (is_loaded f) b.
Definition set_last_checked (t : Z) (f : autoload_function_t) :=
  set_access (FileAccess (mod_time (access f)) t (accessible (access f))
                (stale (access f)) (error (access f))) f.

#[export] Instance autoload_function_keyed : Keyed autoload_function_t := key.

(** [autoload_t::node_was_evicted], the override of the hook. The node is
    deleted afterwards: it is in no index and no list any more. *)
#[export] Instance autoload_node_was_evicted
    : EvictionHook autoload_function_t event :=
  λ n, if negb (is_loaded n) then [CommandRemoved (key n)] else [].

(** The hook of the base class does nothing. *)
Definition lru_node_was_evicted {node : Type} : EvictionHook node event :=
  λ _, [].

(** The manager: the cache it inherits and its own members. *)
Record autoload_t : Type := Autoload {
  cache : lru_cache_impl_t autoload_function_t;
  env_var_name : string;
  builtin_scripts : list builtin_script_t;
  path : string;
  is_loading_set : gset string
}.

Definition set_cache (c : lru_cache_impl_t autoload_function_t)
    (st : autoload_t) : autoload_t :=
  Autoload c (env_var_name st) (builtin_scripts st) (path st)
    (is_loading_set st).
Definition set_path (p : string) (st : autoload_t) : autoload_t :=
  Autoload (cache st) (env_var_name st) (builtin_scripts st) p
    (is_loading_set st).
Definition set_is_loading_set (s : gset string) (st : autoload_t)
    : autoload_t :=
  Autoload (cache st) (env_var_name st) (builtin_scripts st) (path st) s.

(** The constructor; [size] is the capacity that lru.h gives the cache. *)
Definition autoload_new (size : nat) (env_var_name_var : string)
    (scripts : list builtin_script_t) : autoload_t :=
  Autoload (lru_cache_new size) env_var_name_var scripts "" ∅.

(** The outcome of a system call: a value, or errno. *)
Inductive syscall (A : Type) : Type :=
  | SysOk (a : A)
  | SysError (errno : Z).
Arguments SysOk {A} _.
Arguments SysError {A} _.

(** What one call observes of the world outside the manager: the file
    system, the clock at each of the three places that read it, the
    environment, and whether signals are blocked (CHECK_BLOCK, a macro of
    signal.h, returns its argument from the enclosing function then). *)
Record world : Type := World {
  wstat : string → syscall Z;             (* st_mtime *)
  waccess : string → Z → syscall unit;
  time_in_access_file : string → Z;
  time_at_cache_check : Z;
  time_at_placeholder : Z;
  env_get_string : string → option string;
  signal_is_blocked : bool
}.

Definition kAutoloadStalenessInterval : Z := 1.

(** [time_t] is the signed 64-bit [long] of the platforms the shell is
    built for, and the clock values of the world are [time_t] values. The
    difference of two of them is computed on the 64 bits of the machine:
    it wraps around when the exact difference leaves the range. *)
Definition time_t_min : Z := - 2 ^ 63.
Definition time_t_max : Z := 2 ^ 63 - 1.
Definition time_t_wrap (z : Z) : Z :=
  (z - time_t_min) mod 2 ^ 64 + time_t_min.
Definition time_t_sub (a b : Z) : Z := time_t_wrap (a - b).
Definition R_OK : Z := 4.

(** [access_file]. *)
Definition access_file (w : world) (path : string) (mode : Z)
    : file_access_attempt_t :=
  let result :=
    match wstat w path with
    | SysError e => FileAccess 0 0 false false e
    | SysOk mtime =>
        match waccess w path mode with
        | SysError e => FileAccess mtime 0 false false e
        | SysOk _ => FileAccess mtime 0 true false 0
        end
    end in
  FileAccess (mod_time result) (time_in_access_file w path)
    (accessible result) false (error result).

(** A call runs on the manager, may fail an assertion, and leaves a trace.
    The mutex is not modelled: calls do not interleave here. *)
Definition M (A : Type) : Type :=
  autoload_t → option (A * autoload_t * list event).

#[export] Instance M_ret : MRet M := λ A a st, Some (a, st, []).
#[export] Instance M_bind : MBind M := λ A B f m st,
  match m st with
  | None => None
  | Some (a, st1, ev1) =>
      match f a st1 with
      | None => None
      | Some (b, st2, ev2) => Some (b, st2, ev1 ++ ev2)
      end
  end.

(** The primitives: an effect on a collaborator, the manager itself, an
    assignment to its members, an assertion that fails, a method of the
    cache it inherits. *)
Definition tell (ev : list event) : M unit := λ st, Some (tt, st, ev).
Definition this : M autoload_t := λ st, Some (st, st, []).
Definition modify (f : autoload_t → autoload_t) : M unit :=
  λ st, Some (tt, f st, []).
Definition assert_fails {A : Type} : M A := λ _, None.
Definition on_cache {A : Type}
    (op : lru_cache_impl_t autoload_function_t →
          option (A * lru_cache_impl_t autoload_function_t * list event))
    : M A :=
  λ st, match op (cache st) with
        | None => None
        | Some (a, c, ev) => Some (a, set_cache c st, ev)
        end.
Definition this_get_node (cmd : string) : M (option autoload_function_t) :=
  on_cache (λ c, let '(r, c') := get_node cmd c in Some (r, c', [])).
Definition this_add_node (n : autoload_function_t) : M bool :=
  on_cache (add_node n).
Definition this_add_node_without_eviction (n : autoload_function_t)
    : M bool :=
  on_cache (add_node_without_eviction n).
Definition this_evict_all_nodes : M unit :=
  on_cache (λ c, match evict_all_nodes c with
                 | None => None
                 | Some (c', ev) => Some (tt, c', ev)
                 end).
(** [func->... = ...], for the entry of [cmd]. Once the entry has been
    evicted and deleted the write is undefined in C++; here it is lost. *)
Definition write_func (cmd : string)
    (f : autoload_function_t → autoload_function_t) : M unit :=
  λ st, Some (tt, set_cache (update_node cmd f (cache st)) st, []).

(** [wcscmp], by its sign. *)
Definition wcscmp (a b : string) : Z :=
  match String.compare a b with
  | Lt => -1
  | Eq => 0
  | Gt => 1
  end%Z.

Definition script_name_precedes_script_name (script1 script2 : builtin_script_t)
    : bool :=
  bool_decide (wcscmp (name script1) (name script2) < 0)%Z.

(** [std::lower_bound] over the array [scripts]: the halving loop of the
    standard library, on the range of [count] elements that starts at
    index [first]. [count] shrinks at every turn, so [count] turns are
    enough. *)
Fixpoint lower_bound_loop (scripts : list builtin_script_t)
    (value : builtin_script_t) (fuel first count : nat) : nat :=
  match fuel with
  | 0 => first
  | S fuel' =>
      if decide (0 < count) then
        let step := count / 2 in
        let it := first + step in
        match scripts !! it with
        | Some x =>
            if script_name_precedes_script_name x value
            then lower_bound_loop scripts value fuel' (S it) (count - S step)
            else lower_bound_loop scripts value fuel' first step
        | None => first
        end
      else first
  end.

Definition lower_bound (scripts : list builtin_script_t)
    (value : builtin_script_t) : nat :=
  lower_bound_loop scripts value (length scripts) 0 (length scripts).

(** The look-up of [cmd] in the table of built-in scripts. *)
Definition matching_builtin_script (scripts : list builtin_script_t)
    (cmd : string) : option builtin_script_t :=
  if decide (0 < length scripts) then
    let test_script := BuiltinScript cmd "" in
    let found := lower_bound scripts test_script in
    match scripts !! found with
    | Some b =>
        if decide (wcscmp (name b) (name test_script) = 0%Z) then Some b
        else None
    | None => None
    end
  else None.

(** The locals of [locate_file_and_maybe_load_it]. *)
Record locals : Type := Locals {
  reloaded : bool;
  script_source : string;
  has_script_source : bool;
  found_file : bool
}.

(** The decision [use_cached] on the entry that [get_node] returned. *)
Definition use_cached (w : world) (really_load reload : bool)
    (func : option autoload_function_t) : bool :=
  let allow_stale_functions := negb reload in
  match func with
  | None => false
  | Some f =>
      if negb allow_stale_functions
         && bool_decide (kAutoloadStalenessInterval
                         < time_t_sub (time_at_cache_check w)
                             (last_checked (access f)))%Z
      then false
      else if really_load && negb (is_loaded f) then false
      else true
  end.

(** A variable that is missing, or set to the empty string. *)
Definition var_empty (v : option string) : bool :=
  match v with
  | None => true
  | Some s => bool_decide (s = "")
  end.

(** [next + L"/" + cmd + L".fish"]. *)
Definition candidate_file (next cmd : string) : string :=
  next +:+ "/" +:+ cmd +:+ ".fish".

Section autoload.
(** Collaborators of other files: the split of the path variable, and
    [escape_string] with its flag set. *)
Context (tokenize_variable_array2 : string → list string)
        (escape_string : string → string).

Definition need_to_load_function (really_load : bool)
    (func : option autoload_function_t) (acc : file_access_attempt_t)
    : bool :=
  really_load
  && match func with
     | None => true
     | Some f =>
         bool_decide (mod_time (access f) = mod_time acc)
         || negb (is_loaded f)
     end.

(** The block guarded by [need_to_load_function]: the source of the
    script, the removal of the command that is loaded, the flag. *)
Definition reload_block (cmd file : string)
    (func : option autoload_function_t) (lv : locals) : M locals :=
  let esc := escape_string file in
  let lv1 := Locals (reloaded lv) (". " +:+ esc) true (found_file lv) in
  match func with
  | Some f =>
      if is_loaded f then
        tell [CommandRemoved cmd];;
        write_func cmd (set_is_placeholder false)
      else mret tt
  | None => mret tt
  end;;
  mret (Locals true (script_source lv1) (has_script_source lv1)
          (found_file lv1)).

(** The body of [if (access.accessible)] in the loop over the path. *)
Definition found_accessible_file (cmd : string) (really_load : bool)
    (file : string) (acc : file_access_attempt_t) (lv : locals)
    : M locals :=
  let lv := Locals (reloaded lv) (script_source lv) (has_script_source lv)
              true in
  func ← this_get_node cmd;
  let need := need_to_load_function really_load func acc in
  lv ← (if need then reload_block cmd file func lv else mret lv);
  match func with
  | None =>
      let n := new_autoload_function cmd in
      (if really_load then this_add_node n
       else this_add_node_without_eviction n);;
      mret tt
  | Some _ => mret tt
  end;;
  (if need then write_func cmd (set_is_loaded true) else mret tt);;
  write_func cmd (set_access acc);;
  mret lv.

(** The loop over [path_list], which stops at the first file that is
    accessible. *)
Fixpoint search_path (w : world) (cmd : string) (really_load : bool)
    (path_list : list string) (lv : locals) : M locals :=
  match path_list with
  | [] => mret lv
  | next :: rest =>
      let file := candidate_file next cmd in
      tell [AccessFile file];;
      let acc := access_file w file R_OK in
      if accessible acc
      then found_accessible_file cmd really_load file acc lv
      else search_path w cmd really_load rest lv
  end.

(** The block that inserts a placeholder. *)
Definition insert_placeholder (w : world) (cmd : string)
    (really_load : bool) : M unit :=
  func ← this_get_node cmd;
  match func with
  | None =>
      let n := set_is_placeholder true (new_autoload_function cmd) in
      (if really_load then this_add_node n
       else this_add_node_without_eviction n);;
      mret tt
  | Some _ => mret tt
  end;;
  write_func cmd (set_last_checked (time_at_placeholder w)).

(** [autoload_t::locate_file_and_maybe_load_it]. *)
Definition locate_file_and_maybe_load_it (w : world) (cmd : string)
    (really_load reload : bool) (path_list : list string) : M bool :=
  func ← this_get_node cmd;
  if use_cached w really_load reload func then
    mret (from_option (λ f, accessible (access f)) false func)
  else
    st ← this;
    let lv := Locals false "" false false in
    let lv :=
      match matching_builtin_script (builtin_scripts st) cmd with
      | Some b => Locals (reloaded lv) (def b) true (found_file lv)
      | None => lv
      end in
    lv ← (if negb (has_script_source lv) then
            lv ← search_path w cmd really_load path_list lv;
            (if negb (found_file lv) && negb (has_script_source lv)
             then insert_placeholder w cmd really_load
             else mret tt);;
            mret lv
          else mret lv);
    (if really_load && has_script_source lv
     then tell [ExecSubshell (script_source lv)]
     else mret tt);;
    mret (if really_load then reloaded lv
          else found_file lv || has_script_source lv).

Definition is_loading (cmd : string) (st : autoload_t) : bool :=
  bool_decide (cmd ∈ is_loading_set st).

(** [autoload_t::load]. The result is the int of the source. *)
Definition load (w : world) (cmd : string) (reload : bool) : M Z :=
  if signal_is_blocked w then tell [BlockedSignals];; mret 0%Z
  else
    st ← this;
    let path_var := env_get_string w (env_var_name st) in
    if var_empty path_var then mret 0%Z
    else
      let path_var := default "" path_var in
      (if bool_decide (path_var ≠ path st)
       then (modify (set_path path_var);; this_evict_all_nodes)
       else mret tt);;
      (st ← this;
       if is_loading cmd st then
         (tell [DebugMessage cmd];; mret 1%Z)
       else
         (modify (λ st, set_is_loading_set
                          ({[cmd]} ∪ is_loading_set st) st);;
          let path_list := tokenize_variable_array2 path_var in
          (res ← locate_file_and_maybe_load_it w cmd true reload path_list;
           (st ← this;
            if bool_decide (cmd ∈ is_loading_set st) then
              (modify (λ st, set_is_loading_set
                               (is_loading_set st ∖ {[cmd]}) st);;
               mret (if res : bool then 1 else 0)%Z)
            else assert_fails)))).

(** [autoload_t::can_load]; [vars] is the snapshot the caller passes. *)
Definition can_load (w : world) (cmd : string)
    (vars : string → option string) : M bool :=
  st ← this;
  let path_var := vars (env_var_name st) in
  if var_empty path_var then mret false
  else
    let path_list := tokenize_variable_array2 (default "" path_var) in
    locate_file_and_maybe_load_it w cmd false false path_list.

(** [autoload_t::unload] and [autoload_t::unload_all]. *)
Definition unload (cmd : string) : M Z :=
  b ← on_cache (evict_node_by_key cmd);
  mret (if b : bool then 1 else 0)%Z.

Definition unload_all : M unit := this_evict_all_nodes.
End autoload.

(** ** Part III. Notions used in the statements *)

Section lru_notions.
Context {node E : Type} `{!Keyed node} `{!EvictionHook node E}.

(** What the hook does for the nodes of the keys [ks], evicted in that
    order from the cache [c]. *)
Definition evictions (c : lru_cache_impl_t node) (ks : list string)
    : list E :=
  concat ((λ k, from_option node_was_evicted [] (node_set c !! k)) <$> ks).
End lru_notions.

(** The operations of the cache that change it, and a run of them. *)
Inductive cache_op (node : Type) : Type :=
  | OpAddNode (n : node)
  | OpAddNodeWithoutEviction (n : node)
  | OpGetNode (k : string)
  | OpEvictNode (k : string)
  | OpEvictLastNode
  | OpEvictAllNodes.
Arguments OpAddNode {node} _.
Arguments OpAddNodeWithoutEviction {node} _.
Arguments OpGetNode {node} _.
Arguments OpEvictNode {node} _.
Arguments OpEvictLastNode {node}.
Arguments OpEvictAllNodes {node}.

Section lru_runs.
Context {node E : Type} `{!Keyed node} `{!EvictionHook node E}.

Definition forget_result {A : Type}
    (r : option (A * lru_cache_impl_t node * list E))
    : option (lru_cache_impl_t node * list E) :=
  match r with
  | None => None
  | Some (_, c, ev) => Some (c, ev)
  end.

Definition apply_op (op : cache_op node) (c : lru_cache_impl_t node)
    : option (lru_cache_impl_t node * list E) :=
  match op with
  | OpAddNode n => forget_result (add_node n c)
  | OpAddNodeWithoutEviction n =>
      forget_result (add_node_without_eviction n c)
  | OpGetNode k => Some ((get_node k c).2, [])
  | OpEvictNode k => forget_result (evict_node_by_key k c)
  | OpEvictLastNode => evict_last_node c
  | OpEvictAllNodes => evict_all_nodes c
  end.

Fixpoint run_ops (ops : list (cache_op node)) (c : lru_cache_impl_t node)
    : option (lru_cache_impl_t node * list E) :=
  match ops with
  | [] => Some (c, [])
  | op :: ops' =>
      match apply_op op c with
      | None => None
      | Some (c1, ev1) =>
          match run_ops ops' c1 with
          | None => None
          | Some (c2, ev2) => Some (c2, ev1 ++ ev2)
          end
      end
  end.
End lru_runs.

(** Insertions and look-ups, and a run of them that keeps, for every key,
    the time of its last insertion or look-up that succeeded: the run
    starts at time [t], and every operation takes one unit of time. *)
Inductive cache_use (node : Type) : Type :=
  | UseAddNode (n : node)
  | UseAddNodeWithoutEviction (n : node)
  | UseGetNode (k : string).
Arguments UseAddNode {node} _.
Arguments UseAddNodeWithoutEviction {node} _.
Arguments UseGetNode {node} _.

Definition touch (k : string) (t : nat) (s : string → nat) : string → nat :=
  λ x, if decide (x = k) then t else s x.

(** [more_recent s a b]: the last use of [a] is later than that of [b]. *)
Definition more_recent (s : string → nat) : relation string :=
  λ a b, s b < s a.

Section lru_uses.
Context {node E : Type} `{!Keyed node} `{!EvictionHook node E}.

Definition apply_use (u : cache_use node) (t : nat) (s : string → nat)
    (c : lru_cache_impl_t node)
    : option (lru_cache_impl_t node * (string → nat)) :=
  match u with
  | UseAddNode n =>
      match add_node n c with
      | None => None
      | Some (b, c', _) =>
          Some (c', if b : bool then touch (node_key n) t s else s)
      end
  | UseAddNodeWithoutEviction n =>
      match add_node_without_eviction n c with
      | None => None
      | Some (b, c', _) =>
          Some (c', if b : bool then touch (node_key n) t s else s)
      end
  | UseGetNode k =>
      let '(r, c') := get_node k c in
      Some (c', if r is Some _ then touch k t s else s)
  end.

Fixpoint run_uses (us : list (cache_use node)) (t : nat)
    (s : string → nat) (c : lru_cache_impl_t node)
    : option (lru_cache_impl_t node * (string → nat) * nat) :=
  match us with
  | [] => Some (c, s, t)
  | u :: us' =>
      match apply_use u t s c with
      | None => None
      | Some (c', s') => run_uses us' (S t) s' c'
      end
  end.

(** The recency list is in the order of the last uses, all in the past. *)
Definition recency_ordered (c : lru_cache_impl_t node)
    (s : string → nat) (t : nat) : Prop :=
  StronglySorted (more_recent s) (lru_list c)
  ∧ Forall (λ k, s k < t) (lru_list c).
End lru_uses.

(** The precondition on the table of built-in scripts: it is sorted for
    the comparison that the binary search uses, that is, no script
    precedes one that is before it in the table. *)
Definition sorted_by_name (scripts : list builtin_script_t) : Prop :=
  StronglySorted (λ a b, script_name_precedes_script_name b a = false) scripts.

(** The final state and the trace of a call. *)
Definition state_of {A : Type} (r : option (A * autoload_t * list event))
    : option autoload_t :=
  match r with
  | None => None
  | Some (_, st, _) => Some st
  end.
Definition trace_of {A : Type} (r : option (A * autoload_t * list event))
    : option (list event) :=
  match r with
  | None => None
  | Some (_, _, ev) => Some ev
  end.

(** The same outcome, with [ev] in front of its trace. *)
Definition after_events {A : Type} (ev : list event)
    (r : option (A * autoload_t * list event))
    : option (A * autoload_t * list event) :=
  match r with
  | None => None
  | Some (a, st, ev') => Some (a, st, ev ++ ev')
  end.

(** A total-correctness triple for the calls of the manager. *)
Definition triple {A : Type} (P : autoload_t → Prop) (m : M A)
    (Q : A → autoload_t → Prop) : Prop :=
  ∀ st, P st → ∃ a st' ev, m st = Some (a, st', ev) ∧ Q a st'.

(** Whether the file of [cmd] in the directory [next] is accessible. *)
Definition file_accessible (w : world) (cmd next : string) : bool :=
  accessible (access_file w (candidate_file next cmd) R_OK).

(** The probes of the loop over [path_list]: one for each directory, up
    to the first one where the file is accessible. *)
Fixpoint probes (w : world) (cmd : string) (path_list : list string)
    : list event :=
  match path_list with
  | [] => []
  | next :: rest =>
      AccessFile (candidate_file next cmd)
      :: (if file_accessible w cmd next then [] else probes w cmd rest)
  end.

(** The invariant of the manager: that of its cache, the capacity, and no
    entry under the name of a built-in script of the table [scripts]. The
    commands that are being loaded are those of [loading]. *)
Record manager_inv (scripts : list builtin_script_t) (loading : gset string)
    (st : autoload_t) : Prop := ManagerInv {
  inv_wf : lru_wf (cache st);
  inv_capacity : node_count (cache st) ≤ max_node_count (cache st);
  inv_scripts : builtin_scripts st = scripts;
  inv_not_builtin :
    ∀ k, is_Some (node_set (cache st) !! k) →
         matching_builtin_script scripts k = None;
  inv_loading : is_loading_set st = loading
}.

(** The calls that reach the manager. A call of
    [locate_file_and_maybe_load_it] is one of them: [load] and [can_load]
    make it, and so does a script that [exec_subshell] runs, through a
    nested [load]. *)
Inductive manager_call : Type :=
  | CallLoad (w : world) (cmd : string) (reload : bool)
  | CallCanLoad (w : world) (cmd : string) (vars : string → option string)
  | CallUnload (cmd : string)
  | CallUnloadAll
  | CallLocate (w : world) (cmd : string) (really_load reload : bool)
      (path_list : list string).

Section manager_runs.
Context (tokenize_variable_array2 : string → list string)
        (escape_string : string → string).

Definition run_call (call : manager_call) : M unit :=
  match call with
  | CallLoad w cmd reload =>
      load tokenize_variable_array2 escape_string w cmd reload;; mret tt
  | CallCanLoad w cmd vars =>
      can_load tokenize_variable_array2 escape_string w cmd vars;; mret tt
  | CallUnload cmd => unload cmd;; mret tt
  | CallUnloadAll => unload_all
  | CallLocate w cmd really_load reload path_list =>
      locate_file_and_maybe_load_it escape_string w cmd really_load reload
        path_list;;
      mret tt
  end.

Fixpoint run_calls (calls : list manager_call) : M unit :=
  match calls with
  | [] => mret tt
  | call :: calls' => run_call call;; run_calls calls'
  end.
End manager_runs.

(** What the eviction hook does when the node [n], whose key is new, is
    added to the cache [c]: its calls for the nodes that the insertion
    pushes beyond the capacity, the least recent first. *)
Definition insertion_evictions (n : autoload_function_t)
    (c : lru_cache_impl_t autoload_function_t) : list event :=
  evictions (link_after_mouth n c)
    (reverse (drop (max_node_count c) (node_key n :: lru_list c))).

(** The first directory of [path_list] where the file of [cmd] is
    accessible. *)
Definition first_accessible (w : world) (cmd : string)
    (path_list : list string) : option string :=
  List.find (file_accessible w cmd) path_list.

(** *** Concrete inputs *)

(** A world with the readable files [files] (path and modification time),
    the clock at [now], the path variable set to [var], signals not
    blocked. *)
Definition example_world (files : list (string * Z)) (now : Z)
    (var : option string) : world :=
  World (λ p, match List.find (λ file, bool_decide (file.1 = p)) files with
              | Some file => SysOk file.2
              | None => SysError 2
              end)
        (λ p _, SysOk tt) (λ _, now) now now (λ _, var) false.

(** The directory /d holds f.fish, a.fish and b.fish, and nothing else. *)
Definition example_files : list (string * Z) :=
  [("/d/f.fish", 7%Z); ("/d/a.fish", 8%Z); ("/d/b.fish", 9%Z)].
Definition world_d : world := example_world example_files 100 (Some "/d").
Definition world_unset : world := example_world example_files 100 None.

(** A path variable with one directory, and a path with nothing to
    escape. *)
Definition example_tokenize (s : string) : list string := [s].
Definition example_escape (s : string) : string := s.

Definition example_load (w : world) (cmd : string) (reload : bool) : M Z :=
  load example_tokenize example_escape w cmd reload.
Definition example_can_load (w : world) (cmd : string) : M bool :=
  can_load example_tokenize example_escape w cmd (env_get_string w).
Definition example_locate (w : world) (cmd : string)
    (really_load reload : bool) : M bool :=
  locate_file_and_maybe_load_it example_escape w cmd really_load reload
    ["/d"].

(** New managers, of capacity 2 and 1, without built-in scripts; and one
    with the built-in script [ls]. *)
Definition manager_2 : autoload_t := autoload_new 2 "fish_function_path" [].
Definition manager_1 : autoload_t := autoload_new 1 "fish_function_path" [].
Definition manager_ls : autoload_t :=
  autoload_new 2 "fish_function_path" [BuiltinScript "ls" "function ls; end"].

(** [manager_2] after [f] has been loaded from /d/f.fish. *)
Definition manager_f_loaded : autoload_t :=
  default manager_2 (state_of (example_load world_d "f" false manager_2)).

(** [manager_2] after the unknown command [zz] has been looked for. *)
Definition manager_zz_unknown : autoload_t :=
  default manager_2 (state_of (example_load world_d "zz" false manager_2)).

(** [manager_1] after a probe of [a], found in /d/a.fish. *)
Definition manager_a_probed : autoload_t :=
  default manager_1 (state_of (example_can_load world_d "a" manager_1)).

(** [manager_2] in the middle of a load of [f]. *)
Definition manager_loading_f : autoload_t :=
  set_is_loading_set {["f"]} manager_2.

(** The placeholder that the search for [zz] leaves. *)
Definition placeholder_zz : autoload_function_t :=
  AutoloadFunction "zz" (FileAccess 0 100 false false 0) false true.

(** [manager_ls] after a load of [f], and the trace of that load. *)
Definition calls_f : list manager_call := [CallLoad world_d "f" false].
Definition manager_ls_f : autoload_t :=
  default manager_ls
    (state_of (run_calls example_tokenize example_escape calls_f manager_ls)).
Definition trace_ls_f : list event :=
  default []
    (trace_of (run_calls example_tokenize example_escape calls_f manager_ls)).

(** Three nodes, and the cache of capacity 2 after [a] and [b] have been
    added and [a] has been looked up. *)
Definition node_a : autoload_function_t := new_autoload_function "a".
Definition node_b : autoload_function_t := new_autoload_function "b".
Definition node_c : autoload_function_t := new_autoload_function "c".
Definition uses_ab_a : list (cache_use autoload_function_t) :=
  [UseAddNode node_a; UseAddNode node_b; UseGetNode "a"].
Definition cache_ab_a : lru_cache_impl_t autoload_function_t :=
  LruCache 2 2 (<["a" := node_a]> (<["b" := node_b]> ∅)) ["a"; "b"].
Definition stamps_ab_a : string → nat :=
  touch "a" 2 (touch "b" 1 (touch "a" 0 (λ _, 0))).

(** *** Notions for the further properties *)

(** [untouched_but cmd st st']: from [st] to [st'] the members of the
    manager other than the cache are the same, the capacity is the same,
    and an entry of [st'] under a key other than [cmd] is an entry of [st],
    with the same contents. *)
Definition untouched_but (cmd : string) (st st' : autoload_t) : Prop :=
  path st' = path st
  ∧ is_loading_set st' = is_loading_set st
  ∧ env_var_name st' = env_var_name st
  ∧ builtin_scripts st' = builtin_scripts st
  ∧ max_node_count (cache st') = max_node_count (cache st)
  ∧ ∀ k n, k ≠ cmd → node_set (cache st') !! k = Some n →
           node_set (cache st) !! k = Some n.

(** [frames cmd m]: a run of [m] on a manager whose cache satisfies the
    invariant and the capacity leaves one that does, and that is
    [untouched_but cmd]. *)
Definition frames {A : Type} (cmd : string) (m : M A) : Prop :=
  ∀ st a st' ev,
    lru_wf (cache st) → node_count (cache st) ≤ max_node_count (cache st) →
    m st = Some (a, st', ev) →
    lru_wf (cache st') ∧ node_count (cache st') ≤ max_node_count (cache st')
    ∧ untouched_but cmd st st'.

(** The manager after [evict_all_nodes]. *)
Definition emptied (st : autoload_t) : autoload_t :=
  set_cache (LruCache (max_node_count (cache st)) 0 ∅ []) st.

(** Concrete inputs of the further properties. *)
Definition ops_ab_a : list (cache_op autoload_function_t) :=
  [OpAddNode node_a; OpAddNode node_b; OpGetNode "a"].
Definition manager_f_located : autoload_t :=
  default manager_2
    (state_of (example_locate world_d "f" true false manager_2)).
Definition trace_f_located : list event :=
  default [] (trace_of (example_locate world_d "f" true false manager_2)).
Definition entry_f : autoload_function_t :=
  AutoloadFunction "f" (FileAccess 7 100 true false 0) true false.
Definition world_d_later : world :=
  example_world example_files 200 (Some "/d").
Definition world_e : world := example_world example_files 100 (Some "/e").
Definition world_d_no_files : world := example_world [] 500 (Some "/d").

(** The manager that knows [zz] as a placeholder, in the middle of a load
    of [zz]. *)
Definition manager_loading_zz : autoload_t :=
  set_is_loading_set {["zz"]} manager_zz_unknown.

(** ** Part IV. Properties of the cache *)

Section lru_facts.
Context {node E : Type} `{!Keyed node} `{!EvictionHook node E}.
Implicit Types (c : lru_cache_impl_t node) (k x : string).
Implicit Types (l : list string) (n : node).

Lemma elem_of_unlink k x l : x ∈ unlink k l ↔ x ∈ l ∧ x ≠ k.
Proof. unfold unlink. rewrite list_elem_of_filter. tauto. Qed.

Lemma unlink_notin k l : k ∉ l → unlink k l = l.
Proof.
  induction l as [|y l IH]; [done|].
  rewrite not_elem_of_cons. intros [Hne Hnotin]. unfold unlink in *.
  rewrite filter_cons_True by congruence. by rewrite IH.
Qed.

Lemma unlink_snoc k l : k ∉ l → unlink k (l ++ [k]) = l.
Proof.
  intros Hnotin. unfold unlink. rewrite filter_app.
  fold (unlink k l). rewrite unlink_notin by done.
  rewrite filter_cons_False by (intros Hk; by apply Hk).
  by rewrite filter_nil, app_nil_r.
Qed.

Lemma NoDup_unlink k l : NoDup l → NoDup (unlink k l).
Proof. apply NoDup_filter; apply _. Qed.

Lemma length_unlink k l :
  NoDup l → k ∈ l → length (unlink k l) = pred (length l).
Proof.
  intros Hnd Hin. apply list_elem_of_split in Hin as (l1 & l2 & ->).
  apply NoDup_app in Hnd as (_ & Hdisj & [Hk2 _]%NoDup_cons).
  unfold unlink. rewrite filter_app, filter_cons_False by (intros Hk; by apply Hk).
  fold (unlink k l1) (unlink k l2).
  rewrite !unlink_notin; [|done|].
  - rewrite !length_app. simpl. lia.
  - intros Hk1. apply (Hdisj k Hk1). by left.
Qed.

(** *** The invariant is established and kept *)

Lemma lru_cache_new_wf (size : nat) : lru_wf (lru_cache_new (node:=node) size).
Proof.
  split; simpl; try done.
  - constructor.
  - intros k. rewrite lookup_empty, elem_of_nil. split; [done|].
    by intros [? ?].
Qed.

Lemma evict_node_Some k c n :
  node_set c !! k = Some n →
  evict_node k c =
    Some (LruCache (max_node_count c) (pred (node_count c))
            (delete k (node_set c)) (unlink k (lru_list c)),
          node_was_evicted n).
Proof. intros Hk. unfold evict_node. by rewrite Hk. Qed.

Lemma lru_wf_evicted k c :
  lru_wf c → k ∈ lru_list c →
  lru_wf (LruCache (max_node_count c) (pred (node_count c))
            (delete k (node_set c)) (unlink k (lru_list c))).
Proof.
  intros [Hci Hcl Hnd Hlk Hkeys] Hin. split; simpl.
  - rewrite map_size_delete_Some by (by apply Hlk). by rewrite Hci.
  - rewrite length_unlink by done. by rewrite Hcl.
  - by apply NoDup_unlink.
  - intros x. rewrite elem_of_unlink, lookup_delete_is_Some, Hlk.
    split; intros [? ?]; split; congruence.
  - intros x n [_ Hx]%lookup_delete_Some. by apply Hkeys.
Qed.

Lemma lru_wf_promoted k c :
  lru_wf c → is_Some (node_set c !! k) → lru_wf (promote_node k c).
Proof.
  intros [Hci Hcl Hnd Hlk Hkeys] Hk. split; simpl; try done.
  - rewrite length_unlink by (done || by apply Hlk).
    rewrite Hcl. apply Hlk in Hk. destruct (lru_list c); [|done].
    by apply elem_of_nil in Hk.
  - apply NoDup_cons. split; [|by apply NoDup_unlink].
    rewrite elem_of_unlink. by intros [_ ?].
  - intros x. rewrite elem_of_cons, elem_of_unlink, Hlk.
    split; [intros [->|[? _]]; done|].
    intros Hx. destruct (decide (x = k)); [by left|by right].
Qed.

Lemma lru_wf_updated k (f : node → node) c :
  (∀ n, node_key (f n) = node_key n) →
  lru_wf c → lru_wf (update_node k f c).
Proof.
  intros Hf [Hci Hcl Hnd Hlk Hkeys]. split; simpl; try done.
  - rewrite Hci. rewrite <- !(size_dom (D:=gset string)).
    by rewrite dom_alter_L.
  - intros x. rewrite Hlk, lookup_alter_is_Some. done.
  - intros x n. rewrite lookup_alter. case_decide as Hx.
    + subst x. destruct (node_set c !! k) as [n0|] eqn:Hk; [|done].
      simpl. intros [= <-]. rewrite Hf. by apply Hkeys.
    + apply Hkeys.
Qed.

Lemma lru_wf_inserted n c :
  lru_wf c → node_set c !! node_key n = None →
  lru_wf (link_after_mouth n c).
Proof.
  intros [Hci Hcl Hnd Hlk Hkeys] Hfresh. split; simpl.
  - rewrite map_size_insert_None by done. by rewrite Hci.
  - by rewrite Hcl.
  - apply NoDup_cons. split; [|done]. rewrite Hlk, Hfresh.
    by intros [? ?].
  - intros x. rewrite elem_of_cons, lookup_insert_is_Some, Hlk.
    split; [intros [->|?]; [by left|]|intros [->|[_ ?]]; [by left|by right]].
    destruct (decide (node_key n = x)); [by left|by right].
  - intros x n0. rewrite lookup_insert. case_decide as Hx.
    + by intros [= <-].
    + apply Hkeys.
Qed.
End lru_facts.

Section lru_loop.
Context {node E : Type} `{!Keyed node} `{!EvictionHook node E}.
Implicit Types (c : lru_cache_impl_t node) (k x : string).
Implicit Types (l : list string) (n : node).

Lemma evictions_cons c k ks n :
  node_set c !! k = Some n →
  evictions c (k :: ks) = node_was_evicted n ++ evictions c ks.
Proof. intros Hk. unfold evictions. simpl. by rewrite Hk. Qed.

Lemma evictions_ext c1 c2 ks :
  (∀ x, x ∈ ks → node_set c1 !! x = node_set c2 !! x) →
  evictions c1 ks = evictions c2 ks.
Proof.
  intros Hext. unfold evictions. f_equal.
  apply list_fmap_ext. intros i x Hx. rewrite Hext; [done|].
  by eapply list_elem_of_lookup_2.
Qed.

(** The loop [while (node_count > bound) evict_last_node();] on a cache
    that satisfies the invariant: it runs to its end on the fuel it is
    given, keeps the [bound] most recent nodes, and evicts the others
    from the least recent one on. *)
Lemma evict_while_above_wf bound fuel c :
  lru_wf c → node_count c ≤ fuel →
  ∃ c', evict_while_above bound fuel c
          = Some (c', evictions c (reverse (drop bound (lru_list c))))
        ∧ lru_wf c'
        ∧ max_node_count c' = max_node_count c
        ∧ lru_list c' = take bound (lru_list c)
        ∧ ∀ x, node_set c' !! x =
                 if decide (x ∈ drop bound (lru_list c)) then None
                 else node_set c !! x.
Proof.
  revert c. induction fuel as [|fuel IH]; intros c Hwf Hfuel; simpl.
  - case_decide as Hb; [lia|]. exists c.
    assert (length (lru_list c) ≤ bound) as Hlen
      by (rewrite <- (wf_count_list c Hwf); lia).
    rewrite drop_ge, take_ge by done.
    split_and!; try done.
  - case_decide as Hb.
    + destruct (last (lru_list c)) as [k|] eqn:Hlast.
      2:{ apply last_None in Hlast. pose proof (wf_count_list c Hwf) as Hc.
          rewrite Hlast in Hc. simpl in Hc. lia. }
      apply last_Some in Hlast as [l' Hl].
      assert (k ∈ lru_list c) as Hin
        by (rewrite Hl, elem_of_app, list_elem_of_singleton; by right).
      destruct (proj1 (wf_linked c Hwf k) Hin) as [n Hn].
      unfold evict_last_node. rewrite Hl, last_snoc, <- Hl.
      rewrite (evict_node_Some k c n Hn).
      pose proof (lru_wf_evicted k c Hwf Hin) as Hwf1.
      pose proof (wf_nodup c Hwf) as Hnd. rewrite Hl in Hnd.
      apply NoDup_app in Hnd as (Hnd' & Hdisj & _).
      assert (k ∉ l') as Hk
        by (intros Hk; apply (Hdisj k Hk); by left).
      pose proof (wf_count_list c Hwf) as Hcl.
      rewrite Hl, length_app in Hcl. simpl in Hcl.
      destruct (IH _ Hwf1) as (c' & Heq & Hwf' & Hmax & Hlist & Hset).
      { simpl. lia. }
      rewrite Heq. simpl in *. exists c'.
      rewrite Hl, unlink_snoc in * by done.
      assert (bound ≤ length l') as Hbl by lia.
      rewrite drop_app_le, take_app_le, reverse_snoc by done.
      rewrite (evictions_cons c k _ n Hn).
      split; [|split_and!; try done].
      * do 3 f_equal. apply evictions_ext. intros x Hx. simpl.
        apply lookup_delete_ne. intros <-.
        apply elem_of_reverse, subseteq_drop in Hx. done.
      * intros x. rewrite Hset.
        destruct (decide (x ∈ drop bound l')) as [H1|H1];
          destruct (decide (x ∈ drop bound l' ++ [k])) as [H2|H2];
          try done.
        -- exfalso. apply H2, elem_of_app. by left.
        -- apply elem_of_app in H2 as [?|Hxk]; [done|].
           apply list_elem_of_singleton in Hxk as ->.
           by rewrite lookup_delete_eq.
        -- rewrite lookup_delete_ne; [done|]. intros <-. apply H2.
           rewrite elem_of_app, list_elem_of_singleton. by right.
    + exists c.
      assert (length (lru_list c) ≤ bound) as Hlen
        by (rewrite <- (wf_count_list c Hwf); lia).
      rewrite drop_ge, take_ge by done.
      split_and!; try done.
Qed.
End lru_loop.

Section lru_insertion.
Context {node E : Type} `{!Keyed node} `{!EvictionHook node E}.
Implicit Types (c : lru_cache_impl_t node) (k x : string).
Implicit Types (l : list string) (n : node).

(** The fuel of the loop does not matter once it covers the count. *)
Lemma evict_while_above_fuel bound fuel1 fuel2 c :
  node_count c ≤ fuel1 → node_count c ≤ fuel2 →
  evict_while_above bound fuel1 c = evict_while_above bound fuel2 c.
Proof.
  revert fuel2 c. induction fuel1 as [|fuel1 IH]; intros fuel2 c H1 H2.
  - destruct fuel2; simpl; case_decide; done || lia.
  - destruct fuel2 as [|fuel2]; simpl; case_decide; try done; try lia.
    unfold evict_last_node, evict_node.
    destruct (last (lru_list c)) as [k|]; [|done].
    destruct (node_set c !! k) as [n|]; [|done].
    rewrite (IH fuel2); [done|simpl; lia|simpl; lia].
Qed.

Lemma evict_while_above_noop bound fuel c :
  node_count c ≤ bound → evict_while_above bound fuel c = Some (c, []).
Proof. intros Hle. destruct fuel; simpl; case_decide; done || lia. Qed.

Lemma add_node_without_eviction_present n c :
  is_Some (node_set c !! node_key n) →
  add_node_without_eviction n c = Some (false, c, []).
Proof. intros [n0 Hn0]. unfold add_node_without_eviction. by rewrite Hn0. Qed.

(** Inserting a node whose key is new, on a cache that satisfies the
    invariant: the node is linked first, then the loop of
    [add_node_without_eviction] cuts the list at [max_node_count]. *)
Lemma add_node_without_eviction_fresh n c :
  lru_wf c → node_set c !! node_key n = None →
  ∃ c', add_node_without_eviction n c
          = Some (true, c',
                  evictions (link_after_mouth n c)
                    (reverse (drop (max_node_count c)
                                (node_key n :: lru_list c))))
        ∧ lru_wf c'
        ∧ max_node_count c' = max_node_count c
        ∧ lru_list c' = take (max_node_count c) (node_key n :: lru_list c)
        ∧ ∀ x, node_set c' !! x =
                 if decide (x ∈ drop (max_node_count c)
                                  (node_key n :: lru_list c))
                 then None else <[node_key n := n]> (node_set c) !! x.
Proof.
  intros Hwf Hfresh. unfold add_node_without_eviction. rewrite Hfresh.
  pose proof (lru_wf_inserted n c Hwf Hfresh) as Hwf1.
  destruct (evict_while_above_wf (max_node_count (link_after_mouth n c))
              (node_count (link_after_mouth n c)) _ Hwf1)
    as (c' & Heq & Hwf' & Hmax & Hlist & Hset); [done|].
  cbv zeta. rewrite Heq. exists c'. done.
Qed.

Lemma lru_wf_count_le_max_take c c' m (l : list string) :
  lru_wf c' → lru_list c' = take m l → node_count c' ≤ m.
Proof.
  intros Hwf Hl. rewrite (wf_count_list c' Hwf), Hl, length_take. lia.
Qed.

(** On a cache that satisfies the invariant, [add_node] is
    [add_node_without_eviction]: the loop of the latter has already
    brought the count down to the capacity. *)
Lemma add_node_eq n c :
  lru_wf c → add_node n c = add_node_without_eviction n c.
Proof.
  intros Hwf. unfold add_node.
  destruct (node_set c !! node_key n) as [n0|] eqn:Hk.
  - by rewrite add_node_without_eviction_present.
  - destruct (add_node_without_eviction_fresh n c Hwf Hk)
      as (c' & -> & Hwf' & Hmax & Hlist & _).
    rewrite evict_while_above_noop, app_nil_r; [done|].
    rewrite Hmax. by eapply (lru_wf_count_le_max_take c).
Qed.

Lemma get_node_wf k c : lru_wf c → lru_wf (get_node k c).2.
Proof.
  intros Hwf. unfold get_node.
  destruct (node_set c !! k) eqn:Hk; simpl; [|done].
  apply lru_wf_promoted; [done|]. by rewrite Hk.
Qed.

Lemma evict_node_by_key_wf k c :
  lru_wf c →
  ∃ b c' ev, evict_node_by_key k c = Some (b, c', ev) ∧ lru_wf c'
             ∧ max_node_count c' = max_node_count c
             ∧ node_count c' ≤ node_count c.
Proof.
  intros Hwf. unfold evict_node_by_key.
  destruct (node_set c !! k) as [n|] eqn:Hk.
  - rewrite (evict_node_Some k c n Hk). eexists _, _, _.
    split; [done|]. split; [|simpl; split; [done|lia]].
    apply lru_wf_evicted; [done|]. apply (wf_linked c Hwf). by rewrite Hk.
  - exists false, c, []. split_and!; done.
Qed.
End lru_insertion.

Section lru_invariant.
Context {node E : Type} `{!Keyed node} `{!EvictionHook node E}.
Implicit Types (c : lru_cache_impl_t node) (k x : string).
Implicit Types (l : list string) (n : node).

Lemma evict_last_node_wf c :
  lru_wf c → 0 < node_count c →
  ∃ c' ev, evict_last_node c = Some (c', ev) ∧ lru_wf c'
           ∧ max_node_count c' = max_node_count c
           ∧ node_count c' = pred (node_count c).
Proof.
  intros Hwf Hpos. unfold evict_last_node.
  destruct (last (lru_list c)) as [k|] eqn:Hlast.
  - assert (k ∈ lru_list c) as Hin.
    { apply last_Some in Hlast as [l' ->].
      rewrite elem_of_app, list_elem_of_singleton. by right. }
    destruct (proj1 (wf_linked c Hwf k) Hin) as [n Hn].
    rewrite (evict_node_Some k c n Hn). eexists _, _.
    split; [done|]. split; [by apply lru_wf_evicted|done].
  - apply last_None in Hlast. pose proof (wf_count_list c Hwf) as Hc.
    rewrite Hlast in Hc. simpl in Hc. lia.
Qed.

Lemma evict_last_node_None c :
  lru_wf c → evict_last_node c = None → node_count c = 0.
Proof.
  intros Hwf Hnone. destruct (node_count c) as [|m] eqn:Hc; [done|].
  destruct (evict_last_node_wf c Hwf) as (c' & ev & Heq & _); [lia|].
  congruence.
Qed.

(** One operation keeps the invariant and the capacity, and fails no
    assertion, but for [evict_last_node] on an empty cache. *)
Lemma apply_op_invariant op c :
  lru_wf c → node_count c ≤ max_node_count c →
  match apply_op op c with
  | Some (c', _) =>
      lru_wf c' ∧ node_count c' ≤ max_node_count c'
      ∧ max_node_count c' = max_node_count c
  | None => op = OpEvictLastNode ∧ node_count c = 0
  end.
Proof.
  intros Hwf Hcap. destruct op as [n|n|k|k| |]; simpl.
  - rewrite add_node_eq by done.
    destruct (node_set c !! node_key n) as [n0|] eqn:Hk.
    + by rewrite add_node_without_eviction_present.
    + destruct (add_node_without_eviction_fresh n c Hwf Hk)
        as (c' & -> & Hwf' & Hmax & Hlist & _). simpl.
      split_and!; [done| |done]. rewrite Hmax.
      by eapply (lru_wf_count_le_max_take c).
  - destruct (node_set c !! node_key n) as [n0|] eqn:Hk.
    + by rewrite add_node_without_eviction_present.
    + destruct (add_node_without_eviction_fresh n c Hwf Hk)
        as (c' & -> & Hwf' & Hmax & Hlist & _). simpl.
      split_and!; [done| |done]. rewrite Hmax.
      by eapply (lru_wf_count_le_max_take c).
  - split; [by apply get_node_wf|]. unfold get_node.
    by destruct (node_set c !! k).
  - destruct (evict_node_by_key_wf k c Hwf)
      as (b & c' & ev & -> & Hwf' & Hmax & Hle). simpl.
    split_and!; [done|lia|done].
  - destruct (evict_last_node c) as [[c' ev]|] eqn:Heq.
    + destruct (node_count c) as [|m] eqn:Hc.
      * unfold evict_last_node in Heq.
        pose proof (wf_count_list c Hwf) as Hl. rewrite Hc in Hl.
        destruct (lru_list c); [done|simpl in Hl; lia].
      * destruct (evict_last_node_wf c Hwf)
          as (c2 & ev2 & Heq2 & Hwf' & Hmax & Hcnt); [lia|].
        rewrite Heq in Heq2. injection Heq2 as <- <-.
        split_and!; [done|lia|done].
    + split; [done|]. by apply evict_last_node_None.
  - unfold evict_all_nodes.
    destruct (evict_while_above_wf 0 (node_count c) c Hwf)
      as (c' & -> & Hwf' & Hmax & Hlist & _); [done|].
    split_and!; [done| |done].
    rewrite (wf_count_list c' Hwf'), Hlist. simpl. lia.
Qed.

Lemma run_ops_invariant ops c :
  lru_wf c → node_count c ≤ max_node_count c →
  match run_ops ops c with
  | Some (c', _) =>
      lru_wf c' ∧ node_count c' ≤ max_node_count c'
      ∧ max_node_count c' = max_node_count c
  | None => OpEvictLastNode ∈ ops
  end.
Proof.
  revert c. induction ops as [|op ops IH]; intros c Hwf Hcap; simpl.
  - done.
  - pose proof (apply_op_invariant op c Hwf Hcap) as Hop.
    destruct (apply_op op c) as [[c1 ev1]|].
    + destruct Hop as (Hwf1 & Hcap1 & Hmax1).
      specialize (IH c1 Hwf1 Hcap1).
      destruct (run_ops ops c1) as [[c2 ev2]|].
      * destruct IH as (? & ? & ?). split_and!; [done|done|congruence].
      * by right.
    + destruct Hop as [-> _]. by left.
Qed.

(** C6. Whatever operations are run on a cache from its construction
    with capacity [capacity], when the last one returns the count is the
    size of the index and the length of the recency list, the list has
    no key twice, a key is in the list exactly when it is in the index,
    and the count is at most [capacity]. The run fails an assertion only if
    it has called [evict_last_node] (on an empty cache, where
    [mouth.prev] is the sentinel, which is then not removed). *)
Theorem lru_invariant_after_every_operation
    (capacity : nat) (ops : list (cache_op node)) :
  match run_ops ops (lru_cache_new capacity) with
  | Some (c, _) =>
      node_count c = size (node_set c)
      ∧ node_count c = length (lru_list c)
      ∧ NoDup (lru_list c)
      ∧ (∀ k, k ∈ lru_list c ↔ is_Some (node_set c !! k))
      ∧ max_node_count c = capacity
      ∧ node_count c ≤ max_node_count c
  | None => OpEvictLastNode ∈ ops
  end.
Proof.
  pose proof (run_ops_invariant ops (lru_cache_new capacity)
                (lru_cache_new_wf capacity)) as Hrun.
  simpl in Hrun. specialize (Hrun (Nat.le_0_l _)).
  destruct (run_ops ops (lru_cache_new capacity)) as [[c ev]|]; [|done].
  destruct Hrun as ([Hci Hcl Hnd Hlk _] & Hcap & Hmax).
  split_and!; done.
Qed.
End lru_invariant.

Section lru_recency.
Context {node E : Type} `{!Keyed node} `{!EvictionHook node E}.
Implicit Types (c : lru_cache_impl_t node) (k x : string).
Implicit Types (l : list string) (n : node) (s : string → nat).

Lemma touch_eq k t s : touch k t s k = t.
Proof. unfold touch. by rewrite decide_True. Qed.

Lemma touch_ne k t s x : x ≠ k → touch k t s x = s x.
Proof. intros Hne. unfold touch. by rewrite decide_False. Qed.

Lemma StronglySorted_unlink s k l :
  StronglySorted (more_recent s) l →
  StronglySorted (more_recent s) (unlink k l).
Proof.
  induction 1 as [|y l Hsorted IH Hall]; [constructor|].
  unfold unlink in *. rewrite filter_cons. case_decide; [|done].
  constructor; [done|]. rewrite Forall_forall in *.
  intros x [_ Hx]%list_elem_of_filter. by apply Hall.
Qed.

(** A key that is used now goes in front of the others. *)
Lemma StronglySorted_touch_cons s t k l :
  StronglySorted (more_recent s) l → Forall (λ x, s x < t) l → k ∉ l →
  StronglySorted (more_recent (touch k t s)) (k :: l)
  ∧ Forall (λ x, touch k t s x < S t) (k :: l).
Proof.
  intros Hsorted Hpast Hk.
  assert (∀ x, x ∈ l → touch k t s x = s x) as Hsame.
  { intros x Hx. apply touch_ne. by intros ->. }
  split.
  - constructor.
    + clear Hpast. induction Hsorted as [|y l Hs IH Hall]; [constructor|].
      apply not_elem_of_cons in Hk as [Hky Hk].
      constructor.
      * apply IH; [done|]. intros x Hx. apply Hsame. by right.
      * rewrite Forall_forall in *. intros x Hx. unfold more_recent.
        rewrite !Hsame by (by left || by right). by apply Hall.
    + rewrite Forall_forall in *. intros x Hx. unfold more_recent.
      rewrite touch_eq, Hsame by done. by apply Hpast.
  - constructor; [rewrite touch_eq; lia|].
    rewrite Forall_forall in *. intros x Hx. rewrite Hsame by done.
    specialize (Hpast x Hx). lia.
Qed.

Lemma recency_ordered_later c s t :
  recency_ordered c s t → recency_ordered c s (S t).
Proof.
  intros [Hsorted Hpast]. split; [done|].
  eapply Forall_impl; [done|]. simpl. lia.
Qed.

Lemma recency_ordered_insert n c c' s t :
  lru_wf c → node_set c !! node_key n = None →
  lru_list c' = take (max_node_count c) (node_key n :: lru_list c) →
  recency_ordered c s t →
  recency_ordered c' (touch (node_key n) t s) (S t).
Proof.
  intros Hwf Hfresh Hlist [Hsorted Hpast].
  assert (node_key n ∉ lru_list c) as Hk.
  { rewrite (wf_linked c Hwf), Hfresh. by intros [? ?]. }
  destruct (StronglySorted_touch_cons s t _ _ Hsorted Hpast Hk)
    as [Hs' Hp'].
  unfold recency_ordered. rewrite Hlist. split.
  - rewrite <- (take_drop (max_node_count c) (node_key n :: lru_list c))
      in Hs'.
    by apply StronglySorted_app_1_l in Hs'.
  - by apply Forall_take.
Qed.

Lemma recency_ordered_promote k c s t :
  recency_ordered c s t →
  recency_ordered (promote_node k c) (touch k t s) (S t).
Proof.
  intros [Hsorted Hpast]. unfold recency_ordered. simpl.
  apply StronglySorted_touch_cons.
  - by apply StronglySorted_unlink.
  - rewrite Forall_forall in *. intros x [Hx _]%elem_of_unlink.
    by apply Hpast.
  - rewrite elem_of_unlink. by intros [_ ?].
Qed.

(** One use keeps the invariant, the capacity and the order of the
    recency list. *)
Lemma apply_use_recency u c s t :
  lru_wf c → node_count c ≤ max_node_count c → recency_ordered c s t →
  ∃ c' s', apply_use u t s c = Some (c', s')
           ∧ lru_wf c' ∧ node_count c' ≤ max_node_count c'
           ∧ max_node_count c' = max_node_count c
           ∧ recency_ordered c' s' (S t).
Proof.
  intros Hwf Hcap Hrec.
  assert (∀ n, ∃ c' s',
            match add_node_without_eviction n c with
            | None => None
            | Some (b, c', _) =>
                Some (c', if b : bool then touch (node_key n) t s else s)
            end = Some (c', s')
            ∧ lru_wf c' ∧ node_count c' ≤ max_node_count c'
            ∧ max_node_count c' = max_node_count c
            ∧ recency_ordered c' s' (S t)) as Hadd.
  { intros n. destruct (node_set c !! node_key n) as [n0|] eqn:Hk.
    - rewrite add_node_without_eviction_present by (by rewrite Hk).
      exists c, s. split_and!; try done. by apply recency_ordered_later.
    - destruct (add_node_without_eviction_fresh n c Hwf Hk)
        as (c' & -> & Hwf' & Hmax & Hlist & _).
      exists c', (touch (node_key n) t s). split_and!; try done.
      + rewrite Hmax. by eapply (lru_wf_count_le_max_take c).
      + exact (recency_ordered_insert n c c' s t Hwf Hk Hlist Hrec). }
  destruct u as [n|n|k]; simpl.
  - rewrite add_node_eq by done. apply Hadd.
  - apply Hadd.
  - unfold get_node. destruct (node_set c !! k) as [n|] eqn:Hk.
    + eexists _, _. split; [done|]. split_and!; try done.
      * apply lru_wf_promoted; [done|]. by rewrite Hk.
      * by apply recency_ordered_promote.
    + eexists _, _. split; [done|]. split_and!; try done.
      by apply recency_ordered_later.
Qed.

Lemma run_uses_recency us c s t :
  lru_wf c → node_count c ≤ max_node_count c → recency_ordered c s t →
  ∃ c' s' t', run_uses us t s c = Some (c', s', t')
              ∧ lru_wf c' ∧ node_count c' ≤ max_node_count c'
              ∧ max_node_count c' = max_node_count c
              ∧ recency_ordered c' s' t'.
Proof.
  revert c s t. induction us as [|u us IH]; intros c s t Hwf Hcap Hrec.
  - exists c, s, t. by split_and!.
  - simpl.
    destruct (apply_use_recency u c s t Hwf Hcap Hrec)
      as (c1 & s1 & -> & Hwf1 & Hcap1 & Hmax1 & Hrec1).
    destruct (IH c1 s1 (S t) Hwf1 Hcap1 Hrec1)
      as (c' & s' & t' & Heq & ? & ? & ? & ?).
    exists c', s', t'. split_and!; try done. congruence.
Qed.
End lru_recency.

Section lru_order.
Context {node E : Type} `{!Keyed node} `{!EvictionHook node E}.
Implicit Types (c : lru_cache_impl_t node) (k x : string).
Implicit Types (l : list string) (n : node) (s : string → nat).

Lemma add_node_room n c :
  lru_wf c → node_set c !! node_key n = None →
  node_count c < max_node_count c →
  add_node n c = Some (true, link_after_mouth n c, []).
Proof.
  intros Hwf Hfresh Hroom. rewrite add_node_eq by done.
  unfold add_node_without_eviction. rewrite Hfresh. cbv zeta.
  rewrite evict_while_above_noop; [done|]. simpl. lia.
Qed.

Lemma run_ops_add_cons n (ops : list (cache_op node)) c c1 ev1 :
  add_node n c = Some (true, c1, ev1) →
  run_ops (OpAddNode n :: ops) c =
    match run_ops ops c1 with
    | None => None
    | Some (c2, ev2) => Some (c2, ev1 ++ ev2)
    end.
Proof. intros Hadd. simpl. by rewrite Hadd. Qed.

(** Insertions of new keys into a cache that has room for all of them
    evict nothing. *)
Lemma run_adds_with_room (ns : list node) c :
  lru_wf c → NoDup (node_key <$> ns) →
  (∀ n, n ∈ ns → node_set c !! node_key n = None) →
  node_count c + length ns ≤ max_node_count c →
  ∃ c', run_ops (OpAddNode <$> ns) c = Some (c', [])
        ∧ lru_wf c'
        ∧ max_node_count c' = max_node_count c
        ∧ node_count c' = node_count c + length ns
        ∧ lru_list c' = reverse (node_key <$> ns) ++ lru_list c
        ∧ (∀ n, n ∈ ns → node_set c' !! node_key n = Some n)
        ∧ (∀ x, x ∉ node_key <$> ns → node_set c' !! x = node_set c !! x).
Proof.
  revert c. induction ns as [|n ns IH]; intros c Hwf Hnd Hfresh Hroom.
  - exists c. simpl in *. split_and!; try done; try lia.
    intros n Hn. by apply elem_of_nil in Hn.
  - rewrite fmap_cons in Hnd. apply NoDup_cons in Hnd as [Hn Hnd].
    assert (node_set c !! node_key n = None) as Hk
      by (apply Hfresh; by left).
    simpl in Hroom. rewrite fmap_cons.
    rewrite (run_ops_add_cons n _ c (link_after_mouth n c) [])
      by (apply add_node_room; done || lia).
    destruct (IH (link_after_mouth n c)) as
      (c' & -> & Hwf' & Hmax & Hcnt & Hlist & Hin & Hout).
    + by apply lru_wf_inserted.
    + done.
    + intros n' Hn'. simpl. rewrite lookup_insert_ne; [apply Hfresh; by right|].
      intros Heq. apply Hn. rewrite Heq. by apply list_elem_of_fmap_2.
    + simpl. lia.
    + exists c'. simpl in *. split_and!; try done.
      * lia.
      * rewrite Hlist, reverse_cons, <- app_assoc. done.
      * intros n' [->|Hn']%elem_of_cons; [|by apply Hin].
        rewrite Hout by done. apply lookup_insert_eq.
      * intros x [Hx1 Hx2]%not_elem_of_cons.
        rewrite Hout by done. by apply lookup_insert_ne.
Qed.

Lemma NoDup_fmap_inj_on (ns : list node) n1 n2 :
  NoDup (node_key <$> ns) → n1 ∈ ns → n2 ∈ ns →
  node_key n1 = node_key n2 → n1 = n2.
Proof.
  induction ns as [|n ns IH]; [by intros _ ?%elem_of_nil|].
  rewrite fmap_cons, NoDup_cons.
  intros [Hn Hnd] [->|H1]%elem_of_cons [->|H2]%elem_of_cons Heq.
  - done.
  - exfalso. apply Hn. rewrite Heq. by apply list_elem_of_fmap_2.
  - exfalso. apply Hn. rewrite <- Heq. by apply list_elem_of_fmap_2.
  - by apply IH.
Qed.

Lemma StronglySorted_reverse (R : relation string) l :
  StronglySorted R l → StronglySorted (flip R) (reverse l).
Proof.
  induction 1 as [|y l Hs IH Hall]; [constructor|].
  rewrite reverse_cons. apply StronglySorted_app_2; [|done|].
  - intros x1 x2 Hx1 ->%list_elem_of_singleton. unfold flip.
    rewrite Forall_forall in Hall. by apply Hall, elem_of_reverse.
  - repeat constructor.
Qed.

(** C7. The cache evicts in the order of the last uses.
    (1) A look-up of a key that is present returns its node and moves
    the key to the front of the recency list, the others keeping their
    order.
    (2) After any run of insertions and look-ups on a new cache, which
    leaves for every key the time [s] of its last use, the insertion of
    a new key at time [t] evicts the keys of a list [victims]: these are
    the end of the recency list, they go in the order of their last
    uses, the oldest first, and each of them was used before every key
    that stays.
    (3) With capacity [N], [N + 1] insertions of nodes with distinct
    keys: the first [N] call the eviction hook for no node, and the last
    one calls it for the node that was inserted first, and for no other;
    that key is gone, and the others are all there. *)
Theorem lru_eviction_order :
  (∀ c k n,
     node_set c !! k = Some n →
     get_node k c = (Some n, promote_node k c)
     ∧ lru_list (promote_node k c) = k :: unlink k (lru_list c)
     ∧ node_set (promote_node k c) = node_set c)
  ∧ (∀ capacity (us : list (cache_use node)) c s t n,
       run_uses us 0 (λ _, 0) (lru_cache_new capacity) = Some (c, s, t) →
       node_set c !! node_key n = None →
       ∃ c' victims,
         add_node n c
           = Some (true, c', evictions (link_after_mouth n c) victims)
         ∧ lru_list c' ++ reverse victims = node_key n :: lru_list c
         ∧ StronglySorted (flip (more_recent (touch (node_key n) t s)))
             victims
         ∧ ∀ v k, v ∈ victims → k ∈ lru_list c' →
                  touch (node_key n) t s v < touch (node_key n) t s k)
  ∧ (∀ N (all : list node) first,
       length all = S N → head all = Some first →
       NoDup (node_key <$> all) →
       ∃ c_N c',
         run_ops (OpAddNode <$> take N all) (lru_cache_new N)
           = Some (c_N, [])
         ∧ run_ops (OpAddNode <$> drop N all) c_N
             = Some (c', node_was_evicted first)
         ∧ node_set c' !! node_key first = None
         ∧ ∀ n, n ∈ all → n ≠ first → node_set c' !! node_key n = Some n).
Proof.
  split_and!.
  - intros c k n Hk. unfold get_node. by rewrite Hk.
  - intros capacity us c s t n Hrun Hfresh.
    destruct (run_uses_recency us (lru_cache_new capacity) (λ _, 0) 0)
      as (c0 & s0 & t0 & Hrun0 & Hwf & Hcap & Hmax & Hsorted & Hpast).
    { apply lru_cache_new_wf. }
    { simpl. lia. }
    { split; constructor. }
    rewrite Hrun in Hrun0. injection Hrun0 as <- <- <-.
    rewrite add_node_eq by done.
    destruct (add_node_without_eviction_fresh n c Hwf Hfresh)
      as (c' & -> & Hwf' & Hmax' & Hlist & _).
    exists c', (reverse (drop (max_node_count c) (node_key n :: lru_list c))).
    assert (node_key n ∉ lru_list c) as Hk.
    { rewrite (wf_linked c Hwf), Hfresh. by intros [? ?]. }
    destruct (StronglySorted_touch_cons s t _ _ Hsorted Hpast Hk)
      as [Hs' _].
    rewrite <- (take_drop (max_node_count c) (node_key n :: lru_list c))
      in Hs'.
    apply StronglySorted_app in Hs' as (Hcross & _ & Hdrop).
    split_and!.
    + done.
    + by rewrite reverse_involutive, Hlist, take_drop.
    + by apply StronglySorted_reverse.
    + intros v k Hv Hkin. rewrite elem_of_reverse in Hv.
      rewrite Hlist in Hkin.
      exact (Hcross k v Hkin Hv).
  - intros N all first Hlen Hhead Hnd.
    destruct (last all) as [nl|] eqn:Hlast.
    2:{ apply last_None in Hlast. by subst. }
    apply last_Some in Hlast as [pre ->].
    rewrite length_app in Hlen. simpl in Hlen.
    assert (length pre = N) as HN by lia.
    rewrite take_app_le, take_ge, drop_app_le, drop_ge by lia.
    pose proof Hnd as Hndall.
    rewrite fmap_app in Hnd. simpl in Hnd.
    apply NoDup_app in Hnd as (Hndpre & Hdisj & _).
    destruct (run_adds_with_room pre (lru_cache_new N))
      as (c_N & Hrun & Hwf & Hmax & Hcnt & Hlist & Hin & Hout).
    { apply lru_cache_new_wf. }
    { done. }
    { intros n _. simpl. apply lookup_empty. }
    { simpl. lia. }
    exists c_N. rewrite Hrun. simpl in *.
    assert (node_set c_N !! node_key nl = None) as Hfresh.
    { rewrite Hout, lookup_empty; [done|]. intros Hnl.
      apply (Hdisj _ Hnl). by left. }
    rewrite add_node_eq by done.
    destruct (add_node_without_eviction_fresh nl c_N Hwf Hfresh)
      as (c' & -> & Hwf' & Hmax' & Hlist' & Hset').
    exists c'. simpl.
    rewrite Hlist, app_nil_r, Hmax in *.
    assert (drop N (node_key nl :: reverse (node_key <$> pre))
            = [node_key first]) as Hdrop.
    { replace (node_key nl :: reverse (node_key <$> pre))
        with (reverse (node_key <$> (pre ++ [nl])))
        by (by rewrite fmap_app, reverse_app).
      rewrite drop_reverse, length_fmap, length_app. simpl.
      replace (length pre + 1 - N) with 1 by lia.
      destruct pre as [|n0 pre']; simpl in *; by simplify_eq. }
    rewrite Hdrop in *. split_and!.
    + done.
    + rewrite app_nil_r. do 2 f_equal. unfold evictions. simpl.
      rewrite Hdrop. simpl. rewrite app_nil_r.
      destruct pre as [|n0 pre']; simpl in Hhead; simplify_eq.
      * by rewrite lookup_insert_eq.
      * rewrite lookup_insert_ne.
        -- rewrite Hin; [done|by left].
        -- intros Heq. apply (Hdisj (node_key first)).
           ++ rewrite fmap_cons. by left.
           ++ rewrite Heq. by left.
    + rewrite Hset'. rewrite decide_True; [done|by left].
    + intros n Hn Hne. rewrite Hset'.
      assert (first ∈ pre ++ [nl]) as Hfirst.
      { destruct pre; simpl in Hhead; simplify_eq; by left. }
      assert (node_key n ≠ node_key first) as Hkne.
      { intros Heq. by apply Hne, (NoDup_fmap_inj_on (pre ++ [nl]) n first). }
      rewrite decide_False by (by rewrite list_elem_of_singleton).
      apply elem_of_app in Hn as [Hn|Hn].
      * rewrite lookup_insert_ne; [by apply Hin|].
        intros Heq. apply (Hdisj (node_key n)).
        -- by apply list_elem_of_fmap_2.
        -- rewrite Heq. by left.
      * apply list_elem_of_singleton in Hn as ->. apply lookup_insert_eq.
Qed.
End lru_order.

(** ** Part V. The look-up of built-in scripts *)

Section builtin_lookup.
Implicit Types (scripts : list builtin_script_t) (a b v : builtin_script_t).

Lemma ascii_compare_lt_trans (x y z : Ascii.ascii) :
  Ascii.compare x y = Lt → Ascii.compare y z = Lt → Ascii.compare x z = Lt.
Proof.
  unfold Ascii.compare. rewrite !N.compare_lt_iff. lia.
Qed.

Lemma string_compare_lt_trans (x y z : string) :
  String.compare x y = Lt → String.compare y z = Lt →
  String.compare x z = Lt.
Proof.
  revert y z. induction x as [|cx x IH]; intros [|cy y] [|cz z]; simpl;
    try done.
  destruct (Ascii.compare cx cy) eqn:Hxy; try done;
    destruct (Ascii.compare cy cz) eqn:Hyz; try done; intros H1 H2.
  - apply Ascii.compare_eq_iff in Hxy as ->. rewrite Hyz.
    by apply (IH y z).
  - apply Ascii.compare_eq_iff in Hxy as ->. by rewrite Hyz.
  - apply Ascii.compare_eq_iff in Hyz as <-. by rewrite Hxy.
  - by rewrite (ascii_compare_lt_trans _ _ _ Hxy Hyz).
Qed.

Lemma precedes_iff a b :
  script_name_precedes_script_name a b = true
  ↔ String.compare (name a) (name b) = Lt.
Proof.
  unfold script_name_precedes_script_name, wcscmp.
  rewrite bool_decide_eq_true.
  destruct (String.compare (name a) (name b)); split; (done || lia).
Qed.

Lemma not_precedes_iff a b :
  script_name_precedes_script_name a b = false
  ↔ String.compare (name a) (name b) ≠ Lt.
Proof.
  rewrite <- precedes_iff.
  destruct (script_name_precedes_script_name a b); split; done.
Qed.

(** [a] is not after [b], and [b] is before [v]: [a] is before [v]. *)
Lemma precedes_le_lt a b v :
  script_name_precedes_script_name b a = false →
  script_name_precedes_script_name b v = true →
  script_name_precedes_script_name a v = true.
Proof.
  rewrite not_precedes_iff, !precedes_iff. intros Hba Hbv.
  destruct (String.compare (name b) (name a)) eqn:Hc.
  - apply String.compare_eq_iff in Hc. by rewrite <- Hc.
  - done.
  - apply (string_compare_lt_trans _ (name b)); [|done].
    rewrite String.compare_antisym, Hc. done.
Qed.

Lemma sorted_by_name_lookup scripts i j a b :
  sorted_by_name scripts → i < j →
  scripts !! i = Some a → scripts !! j = Some b →
  script_name_precedes_script_name b a = false.
Proof.
  intros Hsorted. revert i j.
  induction Hsorted as [|x l Hs IH Hall]; intros i j Hij Hi Hj; [done|].
  destruct j as [|j]; [lia|]. simpl in Hj. destruct i as [|i].
  - simpl in Hi. injection Hi as ->. rewrite Forall_forall in Hall.
    apply Hall. by eapply list_elem_of_lookup_2.
  - simpl in Hi. apply (IH i j); (done || lia).
Qed.

Lemma wcscmp_refl (x : string) : wcscmp x x = 0%Z.
Proof.
  unfold wcscmp.
  assert (String.compare x x = Eq) as ->; [|done].
  induction x as [|cx x IH]; simpl; [done|].
  unfold Ascii.compare. by rewrite N.compare_refl.
Qed.

Lemma wcscmp_eq (x y : string) : wcscmp x y = 0%Z → x = y.
Proof.
  unfold wcscmp. destruct (String.compare x y) eqn:Hc; try done.
  intros _. by apply String.compare_eq_iff.
Qed.

Lemma lower_bound_loop_S scripts v fuel first count :
  lower_bound_loop scripts v (S fuel) first count =
    if decide (0 < count) then
      match scripts !! (first + count / 2) with
      | Some x =>
          if script_name_precedes_script_name x v
          then lower_bound_loop scripts v fuel (S (first + count / 2))
                 (count - S (count / 2))
          else lower_bound_loop scripts v fuel first (count / 2)
      | None => first
      end
    else first.
Proof. done. Qed.

(** The halving loop returns the partition point of the range. *)
Lemma lower_bound_loop_partition scripts v fuel first count :
  sorted_by_name scripts → count ≤ fuel →
  first + count ≤ length scripts →
  (∀ i x, i < first → scripts !! i = Some x →
          script_name_precedes_script_name x v = true) →
  (∀ i x, first + count ≤ i → scripts !! i = Some x →
          script_name_precedes_script_name x v = false) →
  let r := lower_bound_loop scripts v fuel first count in
  r ≤ length scripts
  ∧ (∀ i x, i < r → scripts !! i = Some x →
            script_name_precedes_script_name x v = true)
  ∧ (∀ i x, r ≤ i → scripts !! i = Some x →
            script_name_precedes_script_name x v = false).
Proof.
  intros Hsorted. revert first count.
  induction fuel as [|fuel IH]; intros first count Hfuel Hlen Hlow Hhigh;
    cbv zeta.
  - simpl. split; [lia|]. split; [done|]. intros i x Hi. apply Hhigh. lia.
  - rewrite lower_bound_loop_S. case_decide as Hpos.
    2:{ split; [lia|]. split; [done|]. intros i x Hi. apply Hhigh. lia. }
    assert (count / 2 < count) as Hstep by (apply Nat.div_lt; lia).
    destruct (scripts !! (first + count / 2)) as [x|] eqn:Hit.
    2:{ apply lookup_ge_None in Hit. lia. }
    destruct (script_name_precedes_script_name x v) eqn:Hx.
    + apply IH; [lia|lia| |].
      * intros i y Hi Hy.
        destruct (decide (i = first + count / 2)) as [->|Hne].
        -- by simplify_eq.
        -- apply (precedes_le_lt y x v); [|done].
           apply (sorted_by_name_lookup scripts i (first + count / 2));
             (done || lia).
      * intros i y Hi. apply Hhigh. lia.
    + apply IH; [lia|lia|done|].
      intros i y Hi Hy.
      destruct (decide (i = first + count / 2)) as [->|Hne].
      * by simplify_eq.
      * destruct (script_name_precedes_script_name y v) eqn:Hyv; [|done].
        rewrite <- Hx. symmetry.
        apply (precedes_le_lt x y v); [|done].
        apply (sorted_by_name_lookup scripts (first + count / 2) i);
          (done || lia).
Qed.

Lemma matching_builtin_script_Some scripts cmd b :
  matching_builtin_script scripts cmd = Some b →
  b ∈ scripts ∧ name b = cmd.
Proof.
  unfold matching_builtin_script. case_decide; [|done].
  destruct (scripts !! lower_bound _ _) as [x|] eqn:Hx; [|done].
  case_decide as Hcmp; [|done]. intros [= ->]. split.
  - by eapply list_elem_of_lookup_2.
  - by apply wcscmp_eq in Hcmp.
Qed.

(** On a sorted table the binary search finds a name that is there. *)
Lemma matching_builtin_script_complete scripts b :
  sorted_by_name scripts → b ∈ scripts →
  ∃ b', matching_builtin_script scripts (name b) = Some b'
        ∧ b' ∈ scripts ∧ name b' = name b.
Proof.
  intros Hsorted Hb.
  assert (∃ b', matching_builtin_script scripts (name b) = Some b')
    as [b' Hb'].
  2:{ exists b'. split; [done|].
      by apply matching_builtin_script_Some. }
  apply list_elem_of_lookup_1 in Hb as [j Hj].
  pose proof (lookup_lt_Some _ _ _ Hj) as Hjlen.
  unfold matching_builtin_script. rewrite decide_True by lia.
  set (v := BuiltinScript (name b) "").
  destruct (lower_bound_loop_partition scripts v (length scripts) 0
              (length scripts) Hsorted) as (Hr & Hlow & Hhigh);
    [lia|lia|intros; lia|intros i x Hi Hx|].
  { apply lookup_lt_Some in Hx. lia. }
  fold (lower_bound scripts v) in Hr, Hlow, Hhigh.
  assert (script_name_precedes_script_name b v = false) as Hbv.
  { apply not_precedes_iff. simpl.
    pose proof (wcscmp_refl (name b)) as Hrefl. unfold wcscmp in Hrefl.
    by destruct (String.compare (name b) (name b)). }
  assert (lower_bound scripts v ≤ j) as Hrj.
  { destruct (decide (lower_bound scripts v ≤ j)); [done|].
    rewrite (Hlow j b) in Hbv; [done|lia|done]. }
  destruct (scripts !! lower_bound scripts v) as [x|] eqn:Hx.
  2:{ apply lookup_ge_None in Hx. lia. }
  assert (name x = name b) as Hname.
  { destruct (decide (lower_bound scripts v = j)) as [Heq|Hne].
    - rewrite Heq in Hx. by simplify_eq.
    - pose proof (Hhigh _ x (Nat.le_refl _) Hx) as Hxv.
      assert (lower_bound scripts v < j) as Hlt by lia.
      pose proof (sorted_by_name_lookup scripts _ j x b Hsorted
                    Hlt Hx Hj) as Hbx.
      apply not_precedes_iff in Hxv, Hbx. simpl in Hxv.
      rewrite String.compare_antisym in Hbx.
      destruct (String.compare (name x) (name b)) eqn:Hc; try done.
      by apply String.compare_eq_iff. }
  simpl. rewrite Hname, decide_True by apply wcscmp_refl. by eexists.
Qed.

Lemma matching_builtin_script_None scripts cmd b :
  sorted_by_name scripts → matching_builtin_script scripts cmd = None →
  b ∈ scripts → name b ≠ cmd.
Proof.
  intros Hsorted Hnone Hb <-.
  destruct (matching_builtin_script_complete scripts b Hsorted Hb)
    as (b' & Hb' & _). congruence.
Qed.
End builtin_lookup.

(** ** Part VI. The calls of the manager *)

Section monad_facts.
Context {A B : Type}.
Implicit Types (st : autoload_t) (ev : list event).

Lemma run_bind (m : M A) (f : A → M B) st a st1 ev1 :
  m st = Some (a, st1, ev1) → (m ≫= f) st = after_events ev1 (f a st1).
Proof. intros Hm. unfold mbind, M_bind. by rewrite Hm. Qed.

Lemma run_ret (a : A) st : (mret a : M A) st = Some (a, st, []).
Proof. done. Qed.

Lemma after_events_nil (r : option (A * autoload_t * list event)) :
  after_events [] r = r.
Proof. by destruct r as [[[a st] ev]|]. Qed.

Lemma after_events_app ev1 ev2 (r : option (A * autoload_t * list event)) :
  after_events ev1 (after_events ev2 r) = after_events (ev1 ++ ev2) r.
Proof. destruct r as [[[a st] ev]|]; [|done]. simpl. by rewrite app_assoc. Qed.

Lemma triple_ret (P : autoload_t → Prop) (a : A) :
  triple P (mret a) (λ _, P).
Proof. intros st HP. by exists a, st, []. Qed.

Lemma triple_bind (P : autoload_t → Prop) (Q : A → autoload_t → Prop)
    (R : B → autoload_t → Prop) (m : M A) (f : A → M B) :
  triple P m Q → (∀ a, triple (Q a) (f a) R) → triple P (m ≫= f) R.
Proof.
  intros Hm Hf st HP. destruct (Hm st HP) as (a & st1 & ev1 & Heq & HQ).
  destruct (Hf a st1 HQ) as (b & st2 & ev2 & Heq2 & HR).
  exists b, st2, (ev1 ++ ev2). rewrite (run_bind m f st a st1 ev1 Heq), Heq2.
  done.
Qed.

Lemma triple_consequence (P P' : autoload_t → Prop)
    (Q Q' : A → autoload_t → Prop) (m : M A) :
  triple P' m Q' → (∀ st, P st → P' st) → (∀ a st, Q' a st → Q a st) →
  triple P m Q.
Proof.
  intros Hm HP HQ st Hst. destruct (Hm st (HP st Hst)) as (a & st' & ev & ? & ?).
  exists a, st', ev. split; [done|]. by apply HQ.
Qed.
End monad_facts.

Section manager_steps.
Context (scripts : list builtin_script_t) (loading : gset string).
Implicit Types (st : autoload_t) (cmd : string) (f : autoload_function_t).
Local Abbreviation inv := (manager_inv scripts loading).

Lemma triple_tell (P : autoload_t → Prop) ev : triple P (tell ev) (λ _, P).
Proof. intros st HP. by exists tt, st, ev. Qed.

Lemma triple_this (P : autoload_t → Prop) :
  triple P this (λ a st, a = st ∧ P st).
Proof. intros st HP. by exists st, st, []. Qed.

Lemma this_get_node_eq cmd st :
  this_get_node cmd st
  = Some (node_set (cache st) !! cmd,
          set_cache (get_node cmd (cache st)).2 st, []).
Proof.
  unfold this_get_node, on_cache, get_node.
  by destruct (node_set (cache st) !! cmd).
Qed.

Lemma get_node_node_set cmd (c : lru_cache_impl_t autoload_function_t) :
  node_set (get_node cmd c).2 = node_set c
  ∧ node_count (get_node cmd c).2 = node_count c
  ∧ max_node_count (get_node cmd c).2 = max_node_count c.
Proof. unfold get_node. by destruct (node_set c !! cmd). Qed.

Lemma triple_this_get_node cmd :
  triple inv (this_get_node cmd)
    (λ r st, inv st ∧ r = node_set (cache st) !! cmd).
Proof.
  intros st [Hwf Hcap Hs Hnb Hld]. rewrite this_get_node_eq.
  eexists _, _, _. split; [done|].
  destruct (get_node_node_set cmd (cache st)) as (Hset & Hcnt & Hmax).
  split; [split|]; simpl.
  - by apply get_node_wf.
  - by rewrite Hcnt, Hmax.
  - done.
  - by rewrite Hset.
  - done.
  - by rewrite Hset.
Qed.

Lemma triple_write_func cmd (g : autoload_function_t → autoload_function_t) :
  (∀ f, key (g f) = key f) →
  triple inv (write_func cmd g) (λ _, inv).
Proof.
  intros Hg st [Hwf Hcap Hs Hnb Hld]. eexists _, _, _. split; [done|].
  split; simpl; try done.
  - by apply lru_wf_updated.
  - intros k Hk. apply Hnb. by rewrite lookup_alter_is_Some in Hk.
Qed.

Lemma add_node_without_eviction_lookup (n : autoload_function_t) c b c' ev :
  lru_wf c → node_count c ≤ max_node_count c →
  add_node_without_eviction n c = Some (b, c', ev) →
  lru_wf c' ∧ node_count c' ≤ max_node_count c'
  ∧ ∀ k, is_Some (node_set c' !! k) →
         k = key n ∨ is_Some (node_set c !! k).
Proof.
  intros Hwf Hcap Hadd.
  pose proof (apply_op_invariant (OpAddNodeWithoutEviction n) c Hwf Hcap)
    as Hop. simpl in Hop. rewrite Hadd in Hop. simpl in Hop.
  destruct Hop as (Hwf' & Hcap' & _). split_and!; [done|done|].
  destruct (node_set c !! node_key n) as [n0|] eqn:Hk.
  - rewrite add_node_without_eviction_present in Hadd by (by rewrite Hk).
    injection Hadd as <- <- <-. intros k Hin. by right.
  - destruct (add_node_without_eviction_fresh n c Hwf Hk)
      as (c2 & Heq & _ & _ & _ & Hset).
    rewrite Hadd in Heq. injection Heq as -> -> ->.
    intros k. rewrite Hset. case_decide; [by intros [? ?]|].
    rewrite lookup_insert_is_Some. intros [<-|[_ ?]]; [by left|by right].
Qed.

Lemma triple_add (really_load : bool) (n : autoload_function_t) :
  matching_builtin_script scripts (key n) = None →
  triple inv
    (if really_load then this_add_node n
     else this_add_node_without_eviction n)
    (λ _, inv).
Proof.
  intros Hn st [Hwf Hcap Hs Hnb Hld].
  assert ((if really_load then this_add_node n
           else this_add_node_without_eviction n) st
          = on_cache (add_node_without_eviction n) st) as ->.
  { destruct really_load; [|done].
    unfold this_add_node, on_cache. by rewrite add_node_eq. }
  unfold on_cache.
  pose proof (apply_op_invariant (OpAddNodeWithoutEviction n) (cache st)
                Hwf Hcap) as Hop. simpl in Hop.
  destruct (add_node_without_eviction n (cache st)) as [[[b c'] ev]|] eqn:Hadd;
    [|by destruct Hop].
  destruct (add_node_without_eviction_lookup n _ _ _ _ Hwf Hcap Hadd)
    as (Hwf' & Hcap' & Hsub).
  eexists _, _, _. split; [done|]. split; simpl; try done.
  intros k [->|Hk]%Hsub; [done|by apply Hnb].
Qed.

Lemma triple_evict_all : triple inv this_evict_all_nodes (λ _, inv).
Proof.
  intros st [Hwf Hcap Hs Hnb Hld]. unfold this_evict_all_nodes, on_cache.
  unfold evict_all_nodes.
  destruct (evict_while_above_wf 0 (node_count (cache st)) (cache st) Hwf)
    as (c' & -> & Hwf' & Hmax & Hlist & Hset); [done|].
  eexists _, _, _. split; [done|]. split; simpl; try done.
  - rewrite (wf_count_list c' Hwf'), Hlist. simpl. lia.
  - intros k. rewrite Hset. case_decide; [by intros [? ?]|]. apply Hnb.
Qed.

Lemma triple_evict_node cmd :
  triple inv (on_cache (evict_node_by_key cmd)) (λ _, inv).
Proof.
  intros st [Hwf Hcap Hs Hnb Hld]. unfold on_cache, evict_node_by_key.
  destruct (node_set (cache st) !! cmd) as [n|] eqn:Hk.
  - rewrite (evict_node_Some cmd _ n Hk).
    eexists _, _, _. split; [done|]. split; simpl; try done.
    + apply lru_wf_evicted; [done|]. apply (wf_linked _ Hwf).
      by rewrite Hk.
    + lia.
    + intros k [_ Hin]%lookup_delete_is_Some. by apply Hnb.
  - eexists _, _, _. split; [done|]. by split.
Qed.
End manager_steps.

Section manager_invariant.
Context (tokenize_variable_array2 : string → list string)
        (escape_string : string → string)
        (scripts : list builtin_script_t) (loading : gset string).
Implicit Types (st : autoload_t) (cmd : string) (f : autoload_function_t).
Local Abbreviation inv := (manager_inv scripts loading).

Lemma triple_reload_block cmd file func lv :
  triple inv (reload_block escape_string cmd file func lv) (λ _, inv).
Proof.
  unfold reload_block.
  apply (triple_bind _ (λ _, inv)); [|intros _; apply triple_ret].
  destruct func as [f|]; [|apply triple_ret].
  destruct (is_loaded f); [|apply triple_ret].
  apply (triple_bind _ (λ _, inv)); [apply triple_tell|intros _].
  by apply triple_write_func.
Qed.

Lemma triple_found_accessible_file cmd really_load file acc lv :
  matching_builtin_script scripts cmd = None →
  triple inv (found_accessible_file escape_string cmd really_load file acc lv)
    (λ _, inv).
Proof.
  intros Hcmd. unfold found_accessible_file.
  apply (triple_bind _ (λ _, inv)).
  { eapply triple_consequence; [apply triple_this_get_node|done|].
    by intros a st [? _]. }
  intros func.
  apply (triple_bind _ (λ _, inv)).
  { destruct (need_to_load_function really_load func acc);
      [apply triple_reload_block|apply triple_ret]. }
  intros lv'.
  apply (triple_bind _ (λ _, inv)).
  { destruct func as [f|]; [apply triple_ret|].
    apply (triple_bind _ (λ _, inv)); [|intros _; apply triple_ret].
    by apply triple_add. }
  intros _.
  apply (triple_bind _ (λ _, inv)).
  { destruct (need_to_load_function really_load func acc);
      [by apply triple_write_func|apply triple_ret]. }
  intros _.
  apply (triple_bind _ (λ _, inv)); [by apply triple_write_func|].
  intros _. apply triple_ret.
Qed.

Lemma triple_search_path w cmd really_load path_list lv :
  matching_builtin_script scripts cmd = None →
  triple inv (search_path escape_string w cmd really_load path_list lv)
    (λ _, inv).
Proof.
  intros Hcmd. induction path_list as [|next rest IH]; simpl.
  - apply triple_ret.
  - apply (triple_bind _ (λ _, inv)); [apply triple_tell|intros _].
    destruct (accessible _); [|done].
    by apply triple_found_accessible_file.
Qed.

Lemma triple_insert_placeholder w cmd really_load :
  matching_builtin_script scripts cmd = None →
  triple inv (insert_placeholder w cmd really_load) (λ _, inv).
Proof.
  intros Hcmd. unfold insert_placeholder.
  apply (triple_bind _ (λ _, inv)).
  { eapply triple_consequence; [apply triple_this_get_node|done|].
    by intros a st [? _]. }
  intros func.
  apply (triple_bind _ (λ _, inv)); [|intros _; by apply triple_write_func].
  destruct func as [f|]; [apply triple_ret|].
  apply (triple_bind _ (λ _, inv)); [|intros _; apply triple_ret].
  by apply triple_add.
Qed.

(** [locate_file_and_maybe_load_it] returns, and keeps the invariant. *)
Lemma triple_locate w cmd really_load reload path_list :
  triple inv
    (locate_file_and_maybe_load_it escape_string w cmd really_load reload
       path_list)
    (λ _, inv).
Proof.
  unfold locate_file_and_maybe_load_it.
  apply (triple_bind _ (λ _, inv)).
  { eapply triple_consequence; [apply triple_this_get_node|done|].
    by intros a st [? _]. }
  intros func.
  destruct (use_cached w really_load reload func); [apply triple_ret|].
  apply (triple_bind _ (λ a st, a = st ∧ inv st)); [apply triple_this|].
  intros st0 st [<- Hinv]. rewrite (inv_scripts _ _ _ Hinv).
  revert st0 Hinv.
  match goal with
  | |- ∀ st0, inv st0 → ∃ a st' ev, ?m st0 = Some (a, st', ev) ∧ inv st' =>
      change (triple inv m (λ _, inv))
  end.
  destruct (matching_builtin_script scripts cmd) as [b|] eqn:Hb; simpl.
  - apply (triple_bind _ (λ _, inv)); [apply triple_ret|intros lv].
    apply (triple_bind _ (λ _, inv)); [|intros _; apply triple_ret].
    destruct (really_load && has_script_source lv);
      [apply triple_tell|apply triple_ret].
  - apply (triple_bind _ (λ _, inv)).
    { apply (triple_bind _ (λ _, inv)); [by apply triple_search_path|].
      intros lv.
      apply (triple_bind _ (λ _, inv)); [|intros _; apply triple_ret].
      destruct (negb (found_file lv) && negb (has_script_source lv));
        [by apply triple_insert_placeholder|apply triple_ret]. }
    intros lv.
    apply (triple_bind _ (λ _, inv)); [|intros _; apply triple_ret].
    destruct (really_load && has_script_source lv);
      [apply triple_tell|apply triple_ret].
Qed.
End manager_invariant.

Section manager_calls.
Context (tokenize_variable_array2 : string → list string)
        (escape_string : string → string)
        (scripts : list builtin_script_t).
Implicit Types (st : autoload_t) (cmd : string) (loading : gset string).

Lemma manager_inv_new capacity var :
  manager_inv scripts ∅ (autoload_new capacity var scripts).
Proof.
  split; simpl; try done.
  - apply lru_cache_new_wf.
  - lia.
  - intros k. rewrite lookup_empty. by intros [? ?].
Qed.

Lemma manager_inv_set_is_loading_set loading loading' st :
  manager_inv scripts loading st →
  manager_inv scripts loading' (set_is_loading_set loading' st).
Proof. intros [Hwf Hcap Hs Hnb Hld]. by split. Qed.

Lemma manager_inv_set_path loading p st :
  manager_inv scripts loading st →
  manager_inv scripts loading (set_path p st).
Proof. intros [Hwf Hcap Hs Hnb Hld]. by split. Qed.

(** [load] returns, and keeps the invariant: the assertion on the set of
    the commands that are being loaded holds. *)
Lemma triple_load loading w cmd reload :
  triple (manager_inv scripts loading)
    (load tokenize_variable_array2 escape_string w cmd reload)
    (λ _, manager_inv scripts loading).
Proof.
  intros st Hinv. unfold load.
  destruct (signal_is_blocked w).
  { eexists _, _, _. split; [done|done]. }
  rewrite (run_bind this _ st st st []) by done. rewrite after_events_nil.
  destruct (var_empty (env_get_string w (env_var_name st))).
  { eexists _, _, _. split; [done|done]. }
  set (path_var := default "" (env_get_string w (env_var_name st))).
  assert (∃ st1 ev1,
            (if bool_decide (path_var ≠ path st)
             then modify (set_path path_var);; this_evict_all_nodes
             else mret tt) st = Some (tt, st1, ev1)
            ∧ manager_inv scripts loading st1)
    as (st1 & ev1 & Hstep1 & Hinv1).
  { destruct (bool_decide (path_var ≠ path st)).
    - destruct (triple_evict_all scripts loading (set_path path_var st))
        as ([] & st1 & ev1 & Heq & Hinv1);
        [by apply manager_inv_set_path|].
      exists st1, ev1. split; [|done].
      rewrite (run_bind (modify _) _ st tt (set_path path_var st) [])
        by done.
      by rewrite Heq.
    - by exists st, []. }
  rewrite (run_bind _ _ st tt st1 ev1 Hstep1).
  rewrite (run_bind this _ st1 st1 st1 []) by done. rewrite after_events_nil.
  destruct (is_loading cmd st1) eqn:Hloading.
  { eexists _, _, _. split; [done|done]. }
  apply bool_decide_eq_false in Hloading.
  rewrite (inv_loading _ _ _ Hinv1) in Hloading.
  set (st2 := set_is_loading_set ({[cmd]} ∪ is_loading_set st1) st1).
  rewrite (run_bind (modify _) _ st1 tt st2 []) by done.
  rewrite after_events_nil.
  destruct (triple_locate escape_string scripts ({[cmd]} ∪ loading) w cmd
              true reload (tokenize_variable_array2 path_var) st2)
    as (res & st3 & ev3 & Hloc & Hinv3).
  { rewrite <- (inv_loading _ _ _ Hinv1).
    by apply (manager_inv_set_is_loading_set loading). }
  rewrite (run_bind _ _ st2 res st3 ev3 Hloc).
  rewrite (run_bind this _ st3 st3 st3 []) by done. rewrite after_events_nil.
  rewrite bool_decide_eq_true_2
    by (rewrite (inv_loading _ _ _ Hinv3), elem_of_union,
          elem_of_singleton; by left).
  eexists _, _, _. split; [done|].
  assert (loading = is_loading_set st3 ∖ {[cmd]}) as Hback.
  { rewrite (inv_loading _ _ _ Hinv3). apply set_eq. intros x.
    rewrite elem_of_difference, elem_of_union, elem_of_singleton.
    split; [|tauto]. intros Hx. split; [by right|]. by intros ->. }
  rewrite Hback at 1.
  by apply (manager_inv_set_is_loading_set ({[cmd]} ∪ loading)).
Qed.

Lemma triple_can_load loading w cmd vars :
  triple (manager_inv scripts loading)
    (can_load tokenize_variable_array2 escape_string w cmd vars)
    (λ _, manager_inv scripts loading).
Proof.
  intros st Hinv. unfold can_load.
  rewrite (run_bind this _ st st st []) by done. rewrite after_events_nil.
  destruct (var_empty (vars (env_var_name st))).
  { eexists _, _, _. split; [done|done]. }
  by apply triple_locate.
Qed.

Lemma triple_run_call loading call :
  triple (manager_inv scripts loading)
    (run_call tokenize_variable_array2 escape_string call)
    (λ _, manager_inv scripts loading).
Proof.
  destruct call as [w cmd reload|w cmd vars|cmd| |w cmd rl reload dirs];
    simpl.
  - apply (triple_bind _ (λ _, manager_inv scripts loading));
      [apply triple_load|intros _; apply triple_ret].
  - apply (triple_bind _ (λ _, manager_inv scripts loading));
      [apply triple_can_load|intros _; apply triple_ret].
  - apply (triple_bind _ (λ _, manager_inv scripts loading));
      [|intros _; apply triple_ret].
    unfold unload.
    apply (triple_bind _ (λ _, manager_inv scripts loading));
      [apply triple_evict_node|intros b; apply triple_ret].
  - apply triple_evict_all.
  - apply (triple_bind _ (λ _, manager_inv scripts loading));
      [apply triple_locate|intros _; apply triple_ret].
Qed.

(** Every run of calls on a new manager returns, and leaves a manager
    that satisfies the invariant. *)
Lemma triple_run_calls loading calls :
  triple (manager_inv scripts loading)
    (run_calls tokenize_variable_array2 escape_string calls)
    (λ _, manager_inv scripts loading).
Proof.
  induction calls as [|call calls IH]; simpl.
  - apply triple_ret.
  - apply (triple_bind _ (λ _, manager_inv scripts loading));
      [apply triple_run_call|by intros _].
Qed.
End manager_calls.

Section locate_steps.
Context (escape_string : string → string).
Implicit Types (st : autoload_t) (cmd : string) (f : autoload_function_t).
Implicit Types (lv : locals) (w : world).

(** The loop over the path: its probes, then the block of the first
    accessible file, if there is one. *)
Lemma search_path_eq w cmd really_load path_list lv st :
  search_path escape_string w cmd really_load path_list lv st =
    match first_accessible w cmd path_list with
    | None => Some (lv, st, probes w cmd path_list)
    | Some next =>
        after_events (probes w cmd path_list)
          (found_accessible_file escape_string cmd really_load
             (candidate_file next cmd)
             (access_file w (candidate_file next cmd) R_OK) lv st)
    end.
Proof.
  unfold first_accessible.
  induction path_list as [|next rest IH]; [done|].
  cbn [search_path List.find probes].
  rewrite (run_bind (tell _) _ st tt st [AccessFile (candidate_file next cmd)])
    by done.
  change (accessible (access_file w (candidate_file next cmd) R_OK))
    with (file_accessible w cmd next).
  destruct (file_accessible w cmd next).
  - done.
  - rewrite IH. destruct (find (file_accessible w cmd) rest); [|done].
    by rewrite after_events_app.
Qed.


Lemma write_func_eq cmd (g : autoload_function_t → autoload_function_t) st :
  write_func cmd g st
  = Some (tt, set_cache (update_node cmd g (cache st)) st, []).
Proof. done. Qed.

(** The block of the accessible file, when [cmd] has an entry. *)
Lemma found_accessible_file_present cmd really_load file acc lv st f :
  node_set (cache st) !! cmd = Some f →
  let need := need_to_load_function really_load (Some f) acc in
  let c1 := promote_node cmd (cache st) in
  let c2 := if need && is_loaded f
            then update_node cmd (set_is_placeholder false) c1 else c1 in
  let c3 := if need then update_node cmd (set_is_loaded true) c2 else c2 in
  found_accessible_file escape_string cmd really_load file acc lv st
  = Some (if need then Locals true (". " +:+ escape_string file) true true
          else Locals (reloaded lv) (script_source lv)
                 (has_script_source lv) true,
          set_cache (update_node cmd (set_access acc) c3) st,
          if need && is_loaded f then [CommandRemoved cmd] else []).
Proof.
  intros Hf need c1 c2 c3. unfold found_accessible_file.
  rewrite (run_bind _ _ st _ _ _ (this_get_node_eq cmd st)).
  rewrite after_events_nil. rewrite Hf.
  unfold get_node. rewrite Hf. cbn [snd]. fold c1. fold need.
  subst c3 c2. destruct need; [|done].
  unfold reload_block. destruct (is_loaded f); done.
Qed.

Lemma run_bind_ignore {A : Type} (m : M A) st a st1 ev :
  m st = Some (a, st1, ev) → (m ≫= λ _, mret tt) st = Some (tt, st1, ev).
Proof.
  intros Hm. rewrite (run_bind m _ st a st1 ev Hm). simpl.
  by rewrite app_nil_r.
Qed.

Lemma add_either_fresh (really_load : bool) (n : autoload_function_t) st :
  lru_wf (cache st) → node_set (cache st) !! key n = None →
  ∃ c', add_node_without_eviction n (cache st)
          = Some (true, c', insertion_evictions n (cache st))
        ∧ (if really_load then this_add_node n
           else this_add_node_without_eviction n) st
          = Some (true, set_cache c' st, insertion_evictions n (cache st)).
Proof.
  intros Hwf Hfresh.
  destruct (add_node_without_eviction_fresh n (cache st) Hwf Hfresh)
    as (c' & Heq & _).
  exists c'. split; [done|].
  destruct really_load; unfold this_add_node,
    this_add_node_without_eviction, on_cache.
  - by rewrite add_node_eq, Heq.
  - by rewrite Heq.
Qed.

(** The block of the accessible file, when [cmd] has no entry. *)
Lemma found_accessible_file_absent cmd really_load file acc lv st :
  lru_wf (cache st) → node_set (cache st) !! cmd = None →
  let n := new_autoload_function cmd in
  ∃ c', add_node_without_eviction n (cache st)
          = Some (true, c', insertion_evictions n (cache st))
        ∧ found_accessible_file escape_string cmd really_load file acc lv st
          = Some (if really_load
                  then Locals true (". " +:+ escape_string file) true true
                  else Locals (reloaded lv) (script_source lv)
                         (has_script_source lv) true,
                  set_cache
                    (update_node cmd (set_access acc)
                       (if really_load
                        then update_node cmd (set_is_loaded true) c'
                        else c')) st,
                  insertion_evictions n (cache st)).
Proof.
  intros Hwf Hnone n.
  destruct (add_either_fresh really_load n st Hwf Hnone) as (c' & Hadd & Hrun).
  exists c'. split; [done|]. unfold found_accessible_file.
  rewrite (run_bind _ _ st _ _ _ (this_get_node_eq cmd st)).
  rewrite after_events_nil, Hnone.
  unfold get_node. rewrite Hnone. cbn [snd].
  assert (set_cache (cache st) st = st) as -> by (by destruct st).
  unfold need_to_load_function. rewrite andb_true_r.
  fold n. destruct really_load.
  - unfold reload_block.
    rewrite (run_bind _ _ st _ st [] eq_refl), after_events_nil.
    rewrite (run_bind _ _ st tt _ _ (run_bind_ignore _ _ _ _ _ Hrun)).
    unfold mbind, M_bind, mret, M_ret, write_func. simpl.
    by rewrite app_nil_r.
  - rewrite (run_bind _ _ st _ st [] eq_refl), after_events_nil.
    rewrite (run_bind _ _ st tt _ _ (run_bind_ignore _ _ _ _ _ Hrun)).
    unfold mbind, M_bind, mret, M_ret, write_func. simpl.
    by rewrite app_nil_r.
Qed.

Lemma insert_placeholder_present w cmd really_load st f :
  node_set (cache st) !! cmd = Some f →
  insert_placeholder w cmd really_load st
  = Some (tt,
          set_cache
            (update_node cmd (set_last_checked (time_at_placeholder w))
               (promote_node cmd (cache st))) st,
          []).
Proof.
  intros Hf. unfold insert_placeholder.
  rewrite (run_bind _ _ st _ _ _ (this_get_node_eq cmd st)).
  rewrite after_events_nil, Hf. unfold get_node. by rewrite Hf.
Qed.

Lemma insert_placeholder_absent w cmd really_load st :
  lru_wf (cache st) → node_set (cache st) !! cmd = None →
  let n := set_is_placeholder true (new_autoload_function cmd) in
  ∃ c', add_node_without_eviction n (cache st)
          = Some (true, c', insertion_evictions n (cache st))
        ∧ insert_placeholder w cmd really_load st
          = Some (tt,
                  set_cache
                    (update_node cmd
                       (set_last_checked (time_at_placeholder w)) c') st,
                  insertion_evictions n (cache st)).
Proof.
  intros Hwf Hnone n.
  destruct (add_either_fresh really_load n st Hwf Hnone) as (c' & Hadd & Hrun).
  exists c'. split; [done|]. unfold insert_placeholder.
  rewrite (run_bind _ _ st _ _ _ (this_get_node_eq cmd st)).
  rewrite after_events_nil, Hnone.
  unfold get_node. rewrite Hnone. cbn [snd].
  assert (set_cache (cache st) st = st) as -> by (by destruct st).
  fold n.
  rewrite (run_bind _ _ st tt _ _ (run_bind_ignore _ _ _ _ _ Hrun)).
  unfold mbind, M_bind, mret, M_ret, write_func. simpl.
  by rewrite app_nil_r.
Qed.
End locate_steps.

Section locate_cases.
Context (escape_string : string → string).
Implicit Types (st : autoload_t) (cmd : string) (f : autoload_function_t).
Implicit Types (lv : locals) (w : world).

Lemma first_accessible_None w cmd path_list :
  (∀ next, next ∈ path_list → file_accessible w cmd next = false) →
  first_accessible w cmd path_list = None.
Proof.
  unfold first_accessible. induction path_list as [|next rest IH]; [done|].
  intros Hall. simpl. rewrite Hall by (by left).
  apply IH. intros x Hx. apply Hall. by right.
Qed.

(** The entry can be used: its recorded accessibility is returned. *)
Lemma locate_cached w cmd really_load reload path_list st :
  use_cached w really_load reload (node_set (cache st) !! cmd) = true →
  locate_file_and_maybe_load_it escape_string w cmd really_load reload
    path_list st
  = Some (from_option (λ f, accessible (access f)) false
            (node_set (cache st) !! cmd),
          set_cache (get_node cmd (cache st)).2 st, []).
Proof.
  intros Huse. unfold locate_file_and_maybe_load_it.
  rewrite (run_bind _ _ st _ _ _ (this_get_node_eq cmd st)).
  by rewrite after_events_nil, Huse.
Qed.

(** The entry cannot be used, and a built-in script has the name. *)
Lemma locate_builtin w cmd really_load reload path_list st b :
  use_cached w really_load reload (node_set (cache st) !! cmd) = false →
  matching_builtin_script (builtin_scripts st) cmd = Some b →
  locate_file_and_maybe_load_it escape_string w cmd really_load reload
    path_list st
  = Some (negb really_load, set_cache (get_node cmd (cache st)).2 st,
          if really_load then [ExecSubshell (def b)] else []).
Proof.
  intros Huse Hb. unfold locate_file_and_maybe_load_it.
  rewrite (run_bind _ _ st _ _ _ (this_get_node_eq cmd st)).
  rewrite after_events_nil, Huse.
  set (st1 := set_cache (get_node cmd (cache st)).2 st).
  rewrite (run_bind this _ st1 st1 st1 [] eq_refl), after_events_nil.
  change (builtin_scripts st1) with (builtin_scripts st). rewrite Hb.
  by destruct really_load.
Qed.

(** The entry cannot be used, no built-in script has the name, and no
    file is accessible: the placeholder. *)
Lemma locate_not_found w cmd really_load reload path_list st :
  use_cached w really_load reload (node_set (cache st) !! cmd) = false →
  matching_builtin_script (builtin_scripts st) cmd = None →
  first_accessible w cmd path_list = None →
  locate_file_and_maybe_load_it escape_string w cmd really_load reload
    path_list st
  = match insert_placeholder w cmd really_load
            (set_cache (get_node cmd (cache st)).2 st) with
    | None => None
    | Some (_, st', ev) => Some (false, st', probes w cmd path_list ++ ev)
    end.
Proof.
  intros Huse Hb Hnone. unfold locate_file_and_maybe_load_it.
  rewrite (run_bind _ _ st _ _ _ (this_get_node_eq cmd st)).
  rewrite after_events_nil, Huse.
  set (st1 := set_cache (get_node cmd (cache st)).2 st).
  rewrite (run_bind this _ st1 st1 st1 [] eq_refl), after_events_nil.
  change (builtin_scripts st1) with (builtin_scripts st). rewrite Hb.
  cbn [has_script_source negb].
  set (lv0 := Locals false "" false false).
  pose proof (search_path_eq escape_string w cmd really_load path_list lv0
                st1) as Hsearch.
  rewrite Hnone in Hsearch.
  unfold mbind at 1. unfold M_bind at 1.
  unfold mbind at 1. unfold M_bind at 1. rewrite Hsearch.
  unfold mbind at 1. unfold M_bind at 1. cbn [found_file has_script_source lv0 negb andb].
  destruct (insert_placeholder w cmd really_load st1) as [[[[] st2] ev2]|];
    [|done].
  unfold mret, M_ret, mbind, M_bind, tell. subst lv0.
  destruct really_load; simpl; by rewrite !app_nil_r.
Qed.

(** The entry cannot be used, no built-in script has the name, and a
    file is accessible: the common part of the two cases below. *)
Lemma locate_found w cmd really_load reload path_list st next lv st' ev :
  use_cached w really_load reload (node_set (cache st) !! cmd) = false →
  matching_builtin_script (builtin_scripts st) cmd = None →
  first_accessible w cmd path_list = Some next →
  found_accessible_file escape_string cmd really_load
    (candidate_file next cmd) (access_file w (candidate_file next cmd) R_OK)
    (Locals false "" false false)
    (set_cache (get_node cmd (cache st)).2 st) = Some (lv, st', ev) →
  found_file lv = true →
  locate_file_and_maybe_load_it escape_string w cmd really_load reload
    path_list st
  = Some (if really_load then reloaded lv else true, st',
          probes w cmd path_list ++ ev
          ++ (if really_load && has_script_source lv
              then [ExecSubshell (script_source lv)] else [])).
Proof.
  intros Huse Hb Hnext Hfound Hlv. unfold locate_file_and_maybe_load_it.
  rewrite (run_bind _ _ st _ _ _ (this_get_node_eq cmd st)).
  rewrite after_events_nil, Huse.
  set (st1 := set_cache (get_node cmd (cache st)).2 st) in *.
  rewrite (run_bind this _ st1 st1 st1 [] eq_refl), after_events_nil.
  change (builtin_scripts st1) with (builtin_scripts st). rewrite Hb.
  cbn [has_script_source negb].
  set (lv0 := Locals false "" false false) in *.
  pose proof (search_path_eq escape_string w cmd really_load path_list lv0
                st1) as Hsearch.
  rewrite Hnext, Hfound in Hsearch. simpl in Hsearch.
  unfold mbind at 1. unfold M_bind at 1.
  unfold mbind at 1. unfold M_bind at 1. rewrite Hsearch.
  rewrite Hlv. unfold mret, M_ret, mbind, M_bind, tell.
  destruct really_load; simpl; rewrite ?Hlv;
    destruct (has_script_source lv); simpl;
    rewrite ?app_nil_r, <- ?app_assoc; done.
Qed.

Lemma promote_node_twice cmd (c : lru_cache_impl_t autoload_function_t) :
  promote_node cmd (promote_node cmd c) = promote_node cmd c.
Proof.
  unfold promote_node. simpl. f_equal. f_equal. unfold unlink.
  rewrite filter_cons_False by (intros Hk; by apply Hk).
  rewrite list_filter_filter. apply list_filter_iff. tauto.
Qed.

Lemma locate_found_present w cmd really_load reload path_list st next f :
  node_set (cache st) !! cmd = Some f →
  use_cached w really_load reload (Some f) = false →
  matching_builtin_script (builtin_scripts st) cmd = None →
  first_accessible w cmd path_list = Some next →
  let file := candidate_file next cmd in
  let acc := access_file w file R_OK in
  let need := need_to_load_function really_load (Some f) acc in
  let c1 := promote_node cmd (cache st) in
  let c2 := if need && is_loaded f
            then update_node cmd (set_is_placeholder false) c1 else c1 in
  let c3 := if need then update_node cmd (set_is_loaded true) c2 else c2 in
  locate_file_and_maybe_load_it escape_string w cmd really_load reload
    path_list st
  = Some (if really_load then need else true,
          set_cache (update_node cmd (set_access acc) c3) st,
          probes w cmd path_list
          ++ (if need && is_loaded f then [CommandRemoved cmd] else [])
          ++ (if need then [ExecSubshell (". " +:+ escape_string file)]
              else [])).
Proof.
  intros Hf Huse Hb Hnext file acc need c1 c2 c3.
  assert (get_node cmd (cache st) = (Some f, c1)) as Hget
    by (unfold get_node; by rewrite Hf).
  pose proof (found_accessible_file_present escape_string cmd really_load
                file acc (Locals false "" false false)
                (set_cache c1 st) f Hf) as Hfound.
  cbv zeta in Hfound. cbn [cache set_cache] in Hfound.
  assert (promote_node cmd c1 = c1) as Hpp by apply promote_node_twice.
  rewrite Hpp in Hfound. fold acc need in Hfound.
  fold c2 in Hfound. fold c3 in Hfound.
  assert ((get_node cmd (cache st)).2 = c1) as Hget2 by (by rewrite Hget).
  rewrite <- Hf in Huse. rewrite <- Hget2 in Hfound at 1.
  rewrite (locate_found w cmd really_load reload path_list st next _ _ _
             Huse Hb Hnext Hfound) by (by destruct need).
  f_equal. f_equal; [f_equal|].
  - destruct need eqn:Hneed; [|by destruct really_load].
    simpl. unfold need, need_to_load_function in Hneed.
    by destruct really_load.
  - f_equal. f_equal. unfold need, need_to_load_function.
    destruct really_load; simpl; [|done].
    by destruct (bool_decide _ || negb _).
Qed.

Lemma locate_found_absent w cmd really_load reload path_list st next :
  lru_wf (cache st) → node_set (cache st) !! cmd = None →
  matching_builtin_script (builtin_scripts st) cmd = None →
  first_accessible w cmd path_list = Some next →
  let file := candidate_file next cmd in
  let acc := access_file w file R_OK in
  let n := new_autoload_function cmd in
  ∃ c', add_node_without_eviction n (cache st)
          = Some (true, c', insertion_evictions n (cache st))
        ∧ locate_file_and_maybe_load_it escape_string w cmd really_load
            reload path_list st
          = Some (true,
                  set_cache
                    (update_node cmd (set_access acc)
                       (if really_load
                        then update_node cmd (set_is_loaded true) c'
                        else c')) st,
                  probes w cmd path_list
                  ++ insertion_evictions n (cache st)
                  ++ (if really_load
                      then [ExecSubshell (". " +:+ escape_string file)]
                      else [])).
Proof.
  intros Hwf Hnone Hb Hnext file acc n.
  assert (get_node cmd (cache st) = (None, cache st)) as Hget
    by (unfold get_node; by rewrite Hnone).
  assert (set_cache (get_node cmd (cache st)).2 st = st) as Hst
    by (rewrite Hget; by destruct st).
  destruct (found_accessible_file_absent escape_string cmd really_load
              file acc (Locals false "" false false) st Hwf Hnone)
    as (c' & Hadd & Hfound).
  exists c'. split; [done|].
  rewrite <- Hst in Hfound at 1.
  assert (use_cached w really_load reload (node_set (cache st) !! cmd)
          = false) as Huse by (by rewrite Hnone).
  rewrite (locate_found w cmd really_load reload path_list st next _ _ _
             Huse Hb Hnext Hfound) by (by destruct really_load).
  by destruct really_load.
Qed.
End locate_cases.

(** ** Part VII. Properties of the manager *)

Section locate_facts.
Context (escape_string : string → string).
Implicit Types (st : autoload_t) (cmd : string) (f : autoload_function_t).
Implicit Types (w : world).

(** A load never uses the entry of a command that is not loaded, be it a
    placeholder; a probe that does not reload uses any entry. *)
Lemma use_cached_load_not_loaded w reload f :
  is_loaded f = false → use_cached w true reload (Some f) = false.
Proof.
  intros Hf. unfold use_cached. rewrite Hf. simpl.
  by destruct (negb (negb reload) && _).
Qed.

Lemma use_cached_probe w f : use_cached w false false (Some f) = true.
Proof. done. Qed.

(** A probe of a command that has an entry is answered from the entry,
    without a probe of the file system. *)
Lemma probe_answered_from_entry w cmd path_list st f :
  node_set (cache st) !! cmd = Some f →
  locate_file_and_maybe_load_it escape_string w cmd false false path_list st
  = Some (accessible (access f), set_cache (promote_node cmd (cache st)) st,
          []).
Proof.
  intros Hf.
  rewrite (locate_cached escape_string w cmd false false path_list st)
    by (by rewrite Hf).
  unfold get_node. by rewrite Hf.
Qed.

Lemma insertion_evictions_room (n : autoload_function_t) c :
  lru_wf c → node_count c < max_node_count c →
  insertion_evictions n c = [].
Proof.
  intros Hwf Hroom. unfold insertion_evictions.
  rewrite drop_ge; [done|]. simpl.
  rewrite <- (wf_count_list c Hwf). lia.
Qed.

Lemma evictions_only_command_removed
    (c : lru_cache_impl_t autoload_function_t) ks e :
  e ∈ evictions c ks → ∃ k, e = CommandRemoved k.
Proof.
  unfold evictions. induction ks as [|k ks IH]; simpl;
    [by intros ?%elem_of_nil|].
  rewrite elem_of_app. intros [He|He]; [|by apply IH].
  destruct (node_set c !! k) as [n|]; simpl in He;
    [|by apply elem_of_nil in He].
  unfold node_was_evicted, autoload_node_was_evicted in He.
  destruct (negb (is_loaded n)); [|by apply elem_of_nil in He].
  apply list_elem_of_singleton in He. by eexists.
Qed.

(** The branch of the path search in general. Where an accessible file
    has been found for [cmd] (the entry could not be used and no built-in
    script has the name), the trace of the call is: the probes, the
    events [removed] of the block that reloads, the events [created] of
    the creation of the entry, the events [executed] of the execution.
    When [really_load] holds and there is no entry, or the entry is not
    loaded, or its modification time is the one just read, the script of
    the file is executed, the call returns true, and [command_removed]
    has been called for [cmd] in the block if the entry was loaded.
    Otherwise nothing is executed and the block calls nothing; the call
    returns true exactly when it only probes. The events [created] are
    those of the eviction hook for the entries that a new entry pushes
    out of the cache: there are none when [cmd] had an entry, or when
    the cache had room. *)
Theorem reload_exactly_when_needed
    (w : world) (cmd : string) (really_load reload : bool)
    (path_list : list string) (st : autoload_t) (next : string) :
  lru_wf (cache st) →
  use_cached w really_load reload (node_set (cache st) !! cmd) = false →
  matching_builtin_script (builtin_scripts st) cmd = None →
  first_accessible w cmd path_list = Some next →
  let func := node_set (cache st) !! cmd in
  let file := candidate_file next cmd in
  let acc := access_file w file R_OK in
  let condition :=
    really_load = true
    ∧ (func = None
       ∨ ∃ f, func = Some f
              ∧ (is_loaded f = false
                 ∨ mod_time (access f) = mod_time acc)) in
  ∃ r st' removed created executed,
    locate_file_and_maybe_load_it escape_string w cmd really_load reload
      path_list st
    = Some (r, st', probes w cmd path_list ++ removed ++ created ++ executed)
    ∧ (condition →
       executed = [ExecSubshell (". " +:+ escape_string file)]
       ∧ removed = (if from_option is_loaded false func
                    then [CommandRemoved cmd] else [])
       ∧ r = true)
    ∧ (¬ condition →
       executed = [] ∧ removed = [] ∧ r = negb really_load)
    ∧ created = (if func is Some _ then []
                 else insertion_evictions (new_autoload_function cmd)
                        (cache st))
    ∧ (node_count (cache st) < max_node_count (cache st) → created = []).
Proof.
  intros Hwf Huse Hb Hnext func file acc condition.
  destruct func as [f|] eqn:Hfunc; subst func.
  - rewrite Hfunc in Huse.
    pose proof (locate_found_present escape_string w cmd really_load
                  reload path_list st next f Hfunc Huse Hb Hnext) as Hloc.
    cbv zeta in Hloc. fold file acc in Hloc. rewrite Hloc. clear Hloc.
    set (need := need_to_load_function really_load (Some f) acc).
    assert (need = true ↔ condition) as Hneed.
    { unfold need, need_to_load_function, condition.
      rewrite andb_true_iff, orb_true_iff, bool_decide_eq_true,
        negb_true_iff.
      split.
      - intros [-> Hc]. split; [done|]. right. exists f. tauto.
      - intros [-> [?|(f' & [= <-] & Hc)]]; [done|]. tauto. }
    eexists _, _, (if need && is_loaded f then [CommandRemoved cmd] else []),
      [], (if need then [ExecSubshell (". " +:+ escape_string file)]
           else []).
    split; [by rewrite app_nil_l|].
    split_and!; try done.
    + intros Hc%Hneed. rewrite Hc. simpl. split_and!; try done.
      by destruct really_load.
    + intros Hc. assert (need = false) as ->.
      { destruct need; [|done]. exfalso. by apply Hc, Hneed. }
      done.
  - destruct (locate_found_absent escape_string w cmd really_load reload
                path_list st next Hwf Hfunc Hb Hnext)
      as (c' & Hadd & Hloc).
    fold file acc in Hloc. rewrite Hloc. clear Hloc.
    eexists _, _, [], (insertion_evictions (new_autoload_function cmd)
                         (cache st)),
      (if really_load then [ExecSubshell (". " +:+ escape_string file)]
       else []).
    split; [by rewrite app_nil_l|].
    split_and!; try done.
    + intros [-> _]. done.
    + intros Hc. destruct really_load; [|done].
      exfalso. apply Hc. split; [done|by left].
    + intros Hroom. by apply insertion_evictions_room.
Qed.



Lemma first_accessible_Some w cmd path_list next :
  first_accessible w cmd path_list = Some next →
  next ∈ path_list ∧ file_accessible w cmd next = true.
Proof.
  intros [Hin Hacc]%find_some. split; [|done]. by apply list_elem_of_In.
Qed.




(** C10. When the entry of [cmd] cannot be used, no built-in script has
    the name and no file of the path is accessible, the call returns
    false after its probes, and the entry of [cmd] is the one that was
    there with [last_checked] set to the time of the clock: the key, the
    two flags, the modification time, the accessibility, [stale] and
    [error] are those of before. The other entries are as they were, and
    the count is the same: no entry is created. *)
Theorem placeholder_refresh_keeps_entry
    (w : world) (cmd : string) (really_load reload : bool)
    (path_list : list string) (st : autoload_t) (f : autoload_function_t) :
  node_set (cache st) !! cmd = Some f →
  use_cached w really_load reload (Some f) = false →
  matching_builtin_script (builtin_scripts st) cmd = None →
  (∀ next, next ∈ path_list → file_accessible w cmd next = false) →
  ∃ st',
    locate_file_and_maybe_load_it escape_string w cmd really_load reload
      path_list st
    = Some (false, st', probes w cmd path_list)
    ∧ node_set (cache st') !! cmd
      = Some (AutoloadFunction (key f)
                (FileAccess (mod_time (access f)) (time_at_placeholder w)
                   (accessible (access f)) (stale (access f))
                   (error (access f)))
                (is_loaded f) (is_placeholder f))
    ∧ (∀ k, k ≠ cmd → node_set (cache st') !! k = node_set (cache st) !! k)
    ∧ node_count (cache st') = node_count (cache st)
    ∧ size (node_set (cache st')) = size (node_set (cache st)).
Proof.
  intros Hf Huse Hb Hnofile.
  rewrite <- Hf in Huse.
  rewrite (locate_not_found escape_string w cmd really_load reload
             path_list st Huse Hb (first_accessible_None _ _ _ Hnofile)).
  assert (get_node cmd (cache st) = (Some f, promote_node cmd (cache st)))
    as Hget by (unfold get_node; by rewrite Hf).
  rewrite Hget. cbn [snd].
  rewrite (insert_placeholder_present w cmd really_load _ f) by done.
  rewrite app_nil_r. eexists. split; [done|]. simpl. split_and!.
  - by rewrite lookup_alter_eq, Hf.
  - intros k Hk. by rewrite lookup_alter_ne.
  - done.
  - rewrite <- !(size_dom (D:=gset string)). by rewrite dom_alter_L.
Qed.
End locate_facts.

Section load_facts.
Context (tokenize_variable_array2 : string → list string)
        (escape_string : string → string).
Implicit Types (st : autoload_t) (cmd : string) (f : autoload_function_t).
Implicit Types (w : world).

(** C9. On a manager reached from a new one by any calls, with a table
    of built-in scripts that is sorted: a look-up of the name of a
    script [b] of the table, whatever the files and the path are, makes
    no probe of the file system and leaves the manager as it is; when
    the script is to be loaded, what is executed is the body of a script
    of the table that has this name; when the call only probes, it
    answers that the command exists. *)
Theorem builtin_script_takes_precedence
    (scripts : list builtin_script_t) (capacity : nat) (var : string)
    (calls : list manager_call) (st : autoload_t) (ev : list event)
    (b : builtin_script_t) (w : world) (really_load reload : bool)
    (path_list : list string) :
  sorted_by_name scripts →
  run_calls tokenize_variable_array2 escape_string calls
    (autoload_new capacity var scripts) = Some (tt, st, ev) →
  b ∈ scripts →
  ∃ b', b' ∈ scripts ∧ name b' = name b
        ∧ locate_file_and_maybe_load_it escape_string w (name b)
            really_load reload path_list st
          = Some (negb really_load, st,
                  if really_load then [ExecSubshell (def b')] else []).
Proof.
  intros Hsorted Hrun Hb.
  destruct (triple_run_calls tokenize_variable_array2 escape_string scripts
              ∅ calls _ (manager_inv_new scripts capacity var))
    as ([] & st' & ev' & Hrun' & Hinv).
  rewrite Hrun in Hrun'. injection Hrun' as <- <-.
  destruct (matching_builtin_script_complete scripts b Hsorted Hb)
    as (b' & Hmatch & Hb' & Hname).
  exists b'. split; [done|]. split; [done|].
  assert (node_set (cache st) !! name b = None) as Hnone.
  { destruct (node_set (cache st) !! name b) as [f|] eqn:Hf; [|done].
    rewrite (inv_not_builtin _ _ _ Hinv (name b)) in Hmatch; [done|].
    by rewrite Hf. }
  rewrite (locate_builtin escape_string w (name b) really_load reload
             path_list st b').
  - unfold get_node. rewrite Hnone. by destruct st.
  - by rewrite Hnone.
  - by rewrite (inv_scripts _ _ _ Hinv).
Qed.
End load_facts.

(** ** Part VIII. The calls on concrete inputs *)

(** C1. [f] is loaded from /d/f.fish and then unloaded: its entry is
    loaded when it is evicted, and [command_removed] is not called. The
    unknown command [zz] is looked for and then unloaded: its entry is a
    placeholder that was never loaded, and [command_removed] is called
    for it. *)
Theorem node_was_evicted_skips_loaded_entry :
  (node_set (cache manager_f_loaded) !! "f"
   = Some (AutoloadFunction "f" (FileAccess 7 100 true false 0) true false)
   ∧ unload "f" manager_f_loaded = Some (1%Z, set_path "/d" manager_2, []))
  ∧ (node_set (cache manager_zz_unknown) !! "zz" = Some placeholder_zz
     ∧ unload "zz" manager_zz_unknown
       = Some (1%Z, set_path "/d" manager_2, [CommandRemoved "zz"])).
Proof. split; split; vm_compute; reflexivity. Qed.

(** C2. The cache of capacity 1 holds the entry of [a]. Adding the entry
    of [b] with [add_node_without_eviction] evicts [a] and runs the
    eviction hook; so does a probe of [b] with [can_load]. *)
Theorem add_node_without_eviction_evicts :
  (node_count (cache manager_a_probed) = 1
   ∧ is_Some (node_set (cache manager_a_probed) !! "a")
   ∧ ∃ c', add_node_without_eviction (new_autoload_function "b")
             (cache manager_a_probed)
           = Some (true, c', [CommandRemoved "a"])
           ∧ node_set c' !! "a" = None
           ∧ lru_list c' = ["b"])
  ∧ trace_of (example_can_load world_d "b" manager_a_probed)
    = Some [AccessFile "/d/b.fish"; CommandRemoved "a"].
Proof.
  split; [split; [|split]|].
  - vm_compute; reflexivity.
  - eexists. vm_compute. reflexivity.
  - eexists. split; [vm_compute; reflexivity|]. split; vm_compute; reflexivity.
  - vm_compute; reflexivity.
Qed.

(** C3. The unknown command [zz] is loaded twice at the same time of the
    clock: the second call finds the placeholder of the first one, does
    not use it, and probes /d/zz.fish again. *)
Theorem unknown_command_probed_again :
  trace_of (example_load world_d "zz" false manager_2)
  = Some [AccessFile "/d/zz.fish"]
  ∧ node_set (cache manager_zz_unknown) !! "zz" = Some placeholder_zz
  ∧ (time_at_cache_check world_d - last_checked (access placeholder_zz)
     ≤ kAutoloadStalenessInterval)%Z
  ∧ trace_of (example_load world_d "zz" false manager_zz_unknown)
    = Some [AccessFile "/d/zz.fish"]
  ∧ trace_of (example_load world_d "zz" true manager_zz_unknown)
    = Some [AccessFile "/d/zz.fish"].
Proof. split_and!; vm_compute; (reflexivity || by intros ?). Qed.


(** C8, the counterexample. [f] is being loaded and the path variable is
    not set: [load] returns 0, without a message. *)
Lemma load_guard_after_empty_path_check :
  "f" ∈ is_loading_set manager_loading_f
  ∧ example_load world_unset "f" false manager_loading_f
    = Some (0%Z, manager_loading_f, []).
Proof. split; vm_compute; reflexivity. Qed.

(** C10 on the manager that has looked for [zz]: a second load finds the
    placeholder, and only refreshes its time. *)
Lemma placeholder_refresh_keeps_entry_witness :
  node_set (cache manager_zz_unknown) !! "zz" = Some placeholder_zz
  ∧ use_cached world_d true false (Some placeholder_zz) = false
  ∧ matching_builtin_script (builtin_scripts manager_zz_unknown) "zz" = None
  ∧ (∀ next, next ∈ ["/d"] → file_accessible world_d "zz" next = false)
  ∧ ∃ st',
      locate_file_and_maybe_load_it example_escape world_d "zz" true false
        ["/d"] manager_zz_unknown
      = Some (false, st', probes world_d "zz" ["/d"])
      ∧ node_set (cache st') !! "zz"
        = Some (AutoloadFunction (key placeholder_zz)
                  (FileAccess (mod_time (access placeholder_zz))
                     (time_at_placeholder world_d)
                     (accessible (access placeholder_zz))
                     (stale (access placeholder_zz))
                     (error (access placeholder_zz)))
                  (is_loaded placeholder_zz) (is_placeholder placeholder_zz))
      ∧ (∀ k, k ≠ "zz" →
              node_set (cache st') !! k
              = node_set (cache manager_zz_unknown) !! k)
      ∧ node_count (cache st') = node_count (cache manager_zz_unknown)
      ∧ size (node_set (cache st'))
        = size (node_set (cache manager_zz_unknown)).
Proof.
  assert (node_set (cache manager_zz_unknown) !! "zz" = Some placeholder_zz)
    as H1 by (vm_compute; reflexivity).
  assert (use_cached world_d true false (Some placeholder_zz) = false)
    as H2 by reflexivity.
  assert (matching_builtin_script (builtin_scripts manager_zz_unknown) "zz"
          = None) as H3 by reflexivity.
  assert (∀ next, next ∈ ["/d"] → file_accessible world_d "zz" next = false)
    as H4.
  { intros next Hnext. apply list_elem_of_singleton in Hnext. subst next.
    vm_compute. reflexivity. }
  split; [exact H1|]. split; [exact H2|]. split; [exact H3|].
  split; [exact H4|].
  exact (placeholder_refresh_keeps_entry example_escape world_d "zz" true
           false ["/d"] manager_zz_unknown placeholder_zz H1 H2 H3 H4).
Defined.

(** C9 on the manager with the built-in script [ls], after a load of [f],
    in a world where /d/ls.fish exists: the built-in script is used. *)
Lemma builtin_script_takes_precedence_witness :
  sorted_by_name (builtin_scripts manager_ls)
  ∧ run_calls example_tokenize example_escape calls_f manager_ls
    = Some (tt, manager_ls_f, trace_ls_f)
  ∧ BuiltinScript "ls" "function ls; end" ∈ builtin_scripts manager_ls
  ∧ ∃ b', b' ∈ builtin_scripts manager_ls
          ∧ name b' = "ls"
          ∧ locate_file_and_maybe_load_it example_escape
              (example_world [("/d/ls.fish", 5%Z)] 200 (Some "/d")) "ls"
              true true ["/d"] manager_ls_f
            = Some (negb true, manager_ls_f, [ExecSubshell (def b')]).
Proof.
  assert (sorted_by_name (builtin_scripts manager_ls)) as H1
    by (repeat constructor).
  assert (run_calls example_tokenize example_escape calls_f manager_ls
          = Some (tt, manager_ls_f, trace_ls_f)) as H2
    by (vm_compute; reflexivity).
  assert (BuiltinScript "ls" "function ls; end" ∈ builtin_scripts manager_ls)
    as H3 by constructor.
  split; [exact H1|]. split; [exact H2|]. split; [exact H3|].
  exact (builtin_script_takes_precedence example_tokenize example_escape
           (builtin_scripts manager_ls) 2 "fish_function_path" calls_f
           manager_ls_f trace_ls_f (BuiltinScript "ls" "function ls; end")
           (example_world [("/d/ls.fish", 5%Z)] 200 (Some "/d")) true true
           ["/d"] H1 H2 H3).
Defined.


(** The branch of the path search on a first load of [f] by a new
    manager. *)
Lemma reload_exactly_when_needed_witness :
  lru_wf (cache manager_2)
  ∧ use_cached world_d true false (node_set (cache manager_2) !! "f") = false
  ∧ matching_builtin_script (builtin_scripts manager_2) "f" = None
  ∧ first_accessible world_d "f" ["/d"] = Some "/d"
  ∧ ∃ r st' removed created executed,
      locate_file_and_maybe_load_it example_escape world_d "f" true false
        ["/d"] manager_2
      = Some (r, st', probes world_d "f" ["/d"] ++ removed ++ created
                      ++ executed)
      ∧ executed = [ExecSubshell ". /d/f.fish"]
      ∧ removed = []
      ∧ r = true
      ∧ created = [].
Proof.
  assert (lru_wf (cache manager_2)) as H1 by apply (lru_cache_new_wf 2).
  assert (use_cached world_d true false (node_set (cache manager_2) !! "f")
          = false) as H2 by reflexivity.
  assert (matching_builtin_script (builtin_scripts manager_2) "f" = None)
    as H3 by reflexivity.
  assert (first_accessible world_d "f" ["/d"] = Some "/d") as H4
    by (vm_compute; reflexivity).
  split; [exact H1|]. split; [exact H2|]. split; [exact H3|].
  split; [exact H4|].
  destruct (reload_exactly_when_needed example_escape world_d "f" true false
              ["/d"] manager_2 "/d" H1 H2 H3 H4)
    as (r & st' & removed & created & executed & Heq & Hyes & _ & _ & Hroom).
  exists r, st', removed, created, executed.
  split; [exact Heq|].
  destruct Hyes as (Hexec & Hrem & Hr).
  { split; [reflexivity|]. left. reflexivity. }
  split; [exact Hexec|]. split; [exact Hrem|]. split; [exact Hr|].
  apply Hroom. simpl. lia.
Defined.

(** C7 on a cache of capacity 2: [a] and [b] are added, [a] is looked up,
    and the insertion of [c] evicts [b]; and the three insertions of [a],
    [b] and [c] evict [a]. *)
Lemma lru_eviction_order_witness :
  (node_set cache_ab_a !! "b" = Some node_b
   ∧ get_node "b" cache_ab_a = (Some node_b, promote_node "b" cache_ab_a)
   ∧ lru_list (promote_node "b" cache_ab_a) = ["b"; "a"])
  ∧ (run_uses uses_ab_a 0 (λ _, 0) (lru_cache_new 2)
     = Some (cache_ab_a, stamps_ab_a, 3)
     ∧ node_set cache_ab_a !! node_key node_c = None
     ∧ ∃ c' victims,
         add_node node_c cache_ab_a
         = Some (true, c',
                 evictions (link_after_mouth node_c cache_ab_a) victims)
         ∧ lru_list c' ++ reverse victims = "c" :: lru_list cache_ab_a
         ∧ StronglySorted (flip (more_recent (touch "c" 3 stamps_ab_a)))
             victims
         ∧ ∀ v k, v ∈ victims → k ∈ lru_list c' →
                  touch "c" 3 stamps_ab_a v < touch "c" 3 stamps_ab_a k)
  ∧ (length [node_a; node_b; node_c] = 3
     ∧ head [node_a; node_b; node_c] = Some node_a
     ∧ NoDup (node_key <$> [node_a; node_b; node_c])
     ∧ ∃ c_N c',
         run_ops (OpAddNode <$> take 2 [node_a; node_b; node_c])
           (lru_cache_new 2) = Some (c_N, [])
         ∧ run_ops (OpAddNode <$> drop 2 [node_a; node_b; node_c]) c_N
           = Some (c', node_was_evicted node_a)
         ∧ node_set c' !! node_key node_a = None
         ∧ ∀ n, n ∈ [node_a; node_b; node_c] → n ≠ node_a →
                node_set c' !! node_key n = Some n).
Proof.
  destruct (lru_eviction_order (node:=autoload_function_t) (E:=event))
    as (Hpromote & Horder & Hfirst).
  split; [|split].
  - assert (node_set cache_ab_a !! "b" = Some node_b) as H1
      by (vm_compute; reflexivity).
    split; [exact H1|].
    destruct (Hpromote cache_ab_a "b" node_b H1) as (Hget & Hlist & _).
    split; [exact Hget|]. rewrite Hlist. vm_compute. reflexivity.
  - assert (run_uses uses_ab_a 0 (λ _, 0) (lru_cache_new 2)
            = Some (cache_ab_a, stamps_ab_a, 3)) as H1
      by (vm_compute; reflexivity).
    assert (node_set cache_ab_a !! node_key node_c = None) as H2
      by (vm_compute; reflexivity).
    split; [exact H1|]. split; [exact H2|].
    exact (Horder 2 uses_ab_a cache_ab_a stamps_ab_a 3 node_c H1 H2).
  - assert (NoDup (node_key <$> [node_a; node_b; node_c])) as H3.
    { apply (NoDup_fmap_2_strong node_key).
      - intros x y Hx Hy. vm_compute in Hx, Hy.
        intros Hxy. 
        repeat (apply elem_of_cons in Hx as [->|Hx]);
          repeat (apply elem_of_cons in Hy as [->|Hy]);
          try done; try (by apply elem_of_nil in Hx);
          try (by apply elem_of_nil in Hy).
      - repeat (apply NoDup_cons; split;
                [rewrite ?elem_of_cons, elem_of_nil; intros Hbad;
                 repeat destruct Hbad as [Hbad|Hbad]; done|]).
        apply NoDup_nil. done. }
    split; [reflexivity|]. split; [reflexivity|]. split; [exact H3|].
    exact (Hfirst 2 [node_a; node_b; node_c] node_a eq_refl eq_refl H3).
Defined.

(** ** Part IX. Further properties of the cache *)

Section lru_more.
Context {node E : Type} `{!Keyed node} `{!EvictionHook node E}.
Implicit Types (c : lru_cache_impl_t node) (k x : string).
Implicit Types (l : list string) (n : node).

Lemma promote_node_head k c l :
  lru_list c = k :: l → k ∉ l → promote_node k c = c.
Proof.
  intros Hl Hk. destruct c as [m cnt set lst]. simpl in *. subst lst.
  unfold promote_node. simpl. f_equal. f_equal. unfold unlink.
  rewrite filter_cons_False by (intros Hbad; by apply Hbad).
  by apply unlink_notin.
Qed.

Lemma promote_node_idem k c :
  promote_node k (promote_node k c) = promote_node k c.
Proof.
  apply (promote_node_head k _ (unlink k (lru_list c))); [done|].
  rewrite elem_of_unlink. by intros [_ ?].
Qed.

Lemma unlink_Permutation k l :
  NoDup l → k ∈ l → k :: unlink k l ≡ₚ l.
Proof.
  intros Hnd Hin. apply list_elem_of_split in Hin as (l1 & l2 & ->).
  apply NoDup_app in Hnd as (_ & Hdisj & [Hk2 _]%NoDup_cons).
  unfold unlink. rewrite filter_app, filter_cons_False
    by (intros Hbad; by apply Hbad).
  fold (unlink k l1) (unlink k l2). rewrite !unlink_notin; [|done|].
  - by rewrite Permutation_middle.
  - intros Hk1. apply (Hdisj k Hk1). by left.
Qed.

(** X1. [evict_node] by key, on a cache that satisfies the invariant. A
    key that is not in the index: the result is false, the cache is the
    same, and the hook is not called. A key that is: the result is true,
    the hook is called once, on the node of the key; the key has left the
    index and the list, the other keys are in the order they were in, the
    count is one less and the invariant holds. *)
Theorem evict_node_by_key_spec (k : string) (c : lru_cache_impl_t node) :
  lru_wf c →
  match node_set c !! k with
  | None => evict_node_by_key k c = Some (false, c, [])
  | Some n =>
      ∃ c', evict_node_by_key k c = Some (true, c', node_was_evicted n)
            ∧ lru_wf c'
            ∧ node_set c' = delete k (node_set c)
            ∧ lru_list c' = filter (λ x, x ≠ k) (lru_list c)
            ∧ S (node_count c') = node_count c
            ∧ max_node_count c' = max_node_count c
  end.
Proof.
  intros Hwf. destruct (node_set c !! k) as [n|] eqn:Hk.
  - unfold evict_node_by_key. rewrite Hk, (evict_node_Some k c n Hk).
    assert (k ∈ lru_list c) as Hin
      by (apply (wf_linked c Hwf); by rewrite Hk).
    eexists. split; [done|]. split_and!; simpl; try done.
    + by apply lru_wf_evicted.
    + rewrite (wf_count_list c Hwf).
      destruct (lru_list c); [by apply elem_of_nil in Hin|done].
  - unfold evict_node_by_key. by rewrite Hk.
Qed.

Lemma evict_all_nodes_empties (c : lru_cache_impl_t node) :
  lru_wf c →
  evict_all_nodes c
  = Some (LruCache (max_node_count c) 0 ∅ [],
          evictions c (reverse (lru_list c))).
Proof.
  intros Hwf. unfold evict_all_nodes.
  destruct (evict_while_above_wf 0 (node_count c) c Hwf)
    as (c' & -> & Hwf' & Hmax & Hlist & Hset); [done|].
  rewrite drop_0. do 2 f_equal.
  pose proof (wf_count_list c' Hwf') as Hcnt. rewrite Hlist in Hcnt.
  destruct c' as [m cnt set lst]. simpl in *. subst m cnt lst. f_equal.
  apply map_eq. intros x. rewrite Hset, lookup_empty, drop_0.
  destruct (decide (x ∈ lru_list c)) as [Hx|Hx]; [done|].
  destruct (node_set c !! x) as [n|] eqn:Hn; [|done].
  exfalso. apply Hx, (wf_linked c Hwf). by rewrite Hn.
Qed.

(** X2. [evict_all_nodes], on a cache that satisfies the invariant: the
    cache is left empty, with its capacity, and the hook has been called
    for every node, once, from the least recently used one to the most
    recently used one. *)
Theorem evict_all_nodes_spec (c : lru_cache_impl_t node) :
  lru_wf c →
  evict_all_nodes c
  = Some (LruCache (max_node_count c) 0 ∅ [],
          evictions c (reverse (lru_list c))).
Proof. apply evict_all_nodes_empties. Qed.

(** X3. [get_node] changes the order of the recency list and nothing
    else: the index, the count and the capacity are the same, and the
    list has the same keys; the invariant is kept. A key that is not
    there changes nothing at all. A second look-up of the same key
    returns the same node and leaves the cache as the first one left
    it. *)
Theorem get_node_only_reorders (k : string) (c : lru_cache_impl_t node) :
  lru_wf c →
  let c' := (get_node k c).2 in
  (get_node k c).1 = node_set c !! k
  ∧ lru_wf c'
  ∧ node_set c' = node_set c
  ∧ node_count c' = node_count c
  ∧ max_node_count c' = max_node_count c
  ∧ lru_list c' ≡ₚ lru_list c
  ∧ (node_set c !! k = None → c' = c)
  ∧ get_node k c' = get_node k c.
Proof.
  intros Hwf. cbv zeta. unfold get_node.
  destruct (node_set c !! k) as [n|] eqn:Hk; simpl.
  - rewrite Hk. split_and!; try done.
    + apply lru_wf_promoted; [done|]. by rewrite Hk.
    + apply unlink_Permutation; [apply (wf_nodup c Hwf)|].
      apply (wf_linked c Hwf). by rewrite Hk.
    + by rewrite promote_node_idem.
  - rewrite Hk. by split_and!.
Qed.

Lemma add_node_keeps_new_node n c :
  lru_wf c → node_set c !! node_key n = None → 0 < max_node_count c →
  ∃ c' ev, add_node n c = Some (true, c', ev)
           ∧ lru_wf c'
           ∧ node_set c' !! node_key n = Some n
           ∧ ∃ l, lru_list c' = node_key n :: l ∧ node_key n ∉ l.
Proof.
  intros Hwf Hfresh Hmax. rewrite add_node_eq by done.
  destruct (add_node_without_eviction_fresh n c Hwf Hfresh)
    as (c' & -> & Hwf' & _ & Hlist & Hset).
  assert (node_key n ∉ lru_list c) as Hk.
  { rewrite (wf_linked c Hwf), Hfresh. by intros [? ?]. }
  destruct (max_node_count c) as [|m]; [lia|]. simpl in Hlist, Hset.
  eexists c', _. split; [done|]. split; [done|]. split.
  - rewrite Hset. rewrite decide_False; [apply lookup_insert_eq|].
    intros Hbad. by apply Hk, (subseteq_drop m).
  - exists (take m (lru_list c)). split; [done|].
    intros Hbad. by apply Hk, (subseteq_take m).
Qed.

(** X4. The look-up after an insertion. On a cache that satisfies the
    invariant and has a capacity of at least 1, after [add_node] of a node
    whose key is new, [get_node] of the key returns that node, which is
    the first of the recency list, and changes nothing. When the key is
    already there, [add_node] returns false and changes nothing, the hook
    is not called, and [get_node] of the key returns the node that was
    there, not the new one. *)
Theorem get_node_after_add_node (n : node) (c : lru_cache_impl_t node) :
  lru_wf c → 0 < max_node_count c →
  match node_set c !! node_key n with
  | None =>
      ∃ c' ev, add_node n c = Some (true, c', ev)
               ∧ head (lru_list c') = Some (node_key n)
               ∧ get_node (node_key n) c' = (Some n, c')
  | Some n0 =>
      add_node n c = Some (false, c, [])
      ∧ (get_node (node_key n) c).1 = Some n0
  end.
Proof.
  intros Hwf Hmax. destruct (node_set c !! node_key n) as [n0|] eqn:Hk.
  - rewrite add_node_eq by done.
    rewrite add_node_without_eviction_present by (by rewrite Hk).
    split; [done|]. unfold get_node. by rewrite Hk.
  - destruct (add_node_keeps_new_node n c Hwf Hk Hmax)
      as (c' & ev & Hadd & Hwf' & Hn & l & Hl & Hnotin).
    exists c', ev. split; [done|]. split; [by rewrite Hl|].
    unfold get_node. rewrite Hn. f_equal.
    by apply (promote_node_head _ _ l).
Qed.

(** X5. A cache of capacity 0 keeps nothing: [add_node] on the new cache
    returns true, and the node has been evicted, with its call of the
    hook, before the call returns. *)
Theorem add_node_capacity_zero (n : node) :
  add_node n (lru_cache_new 0)
  = Some (true, lru_cache_new 0, node_was_evicted n).
Proof.
  unfold add_node, add_node_without_eviction, lru_cache_new. simpl.
  rewrite lookup_empty. simpl. unfold evict_last_node, evict_node. simpl.
  rewrite lookup_insert_eq. simpl. rewrite delete_insert_eq.
  unfold unlink. rewrite filter_cons_False by (intros Hbad; by apply Hbad).
  rewrite filter_nil, delete_empty. simpl. by rewrite !app_nil_r.
Qed.

(** X6. An insertion that is undone. On a cache that satisfies the
    invariant and has room, [add_node] of a node whose key is new evicts
    nothing, and [evict_node] of that key then gives back the cache of
    before, after one call of the hook, on the node. *)
Theorem evict_node_after_add_node (n : node) (c : lru_cache_impl_t node) :
  lru_wf c → node_set c !! node_key n = None →
  node_count c < max_node_count c →
  ∃ c1, add_node n c = Some (true, c1, [])
        ∧ evict_node_by_key (node_key n) c1
          = Some (true, c, node_was_evicted n).
Proof.
  intros Hwf Hfresh Hroom. exists (link_after_mouth n c).
  split; [by apply add_node_room|].
  unfold evict_node_by_key, evict_node. simpl.
  rewrite lookup_insert_eq. do 2 f_equal.
  assert (node_key n ∉ lru_list c) as Hk.
  { rewrite (wf_linked c Hwf), Hfresh. by intros [? ?]. }
  destruct c as [m cnt set lst]. simpl in *. f_equal. f_equal.
  - rewrite delete_insert_eq. by apply delete_id.
  - unfold unlink. rewrite filter_cons_False by (intros Hbad; by apply Hbad).
    by apply unlink_notin.
Qed.

(** X7. On a cache that satisfies the invariant, [add_node] and
    [add_node_without_eviction] return the same result, the same cache and
    the same calls of the hook, for every node: the loop of [add_node]
    finds the count already within the capacity. *)
Theorem add_node_same_as_without_eviction
    (n : node) (c : lru_cache_impl_t node) :
  lru_wf c → add_node n c = add_node_without_eviction n c.
Proof. apply add_node_eq. Qed.
(** X22. [evict_last_node] on a cache that satisfies the invariant. On an
    empty cache the condemned node would be the sentinel and the
    assertion of [evict_node] fails. Otherwise the entry at the end of
    the list, the least recently used one, leaves the index and the list,
    the hook is run on it once, and the invariant holds again. *)
Theorem evict_last_node_spec (c : lru_cache_impl_t node) :
  lru_wf c →
  match last (lru_list c) with
  | None => node_count c = 0 ∧ evict_last_node c = None
  | Some k =>
      ∃ n c', node_set c !! k = Some n
              ∧ evict_last_node c = Some (c', node_was_evicted n)
              ∧ lru_wf c'
              ∧ node_set c' = delete k (node_set c)
              ∧ lru_list c' ++ [k] = lru_list c
              ∧ S (node_count c') = node_count c
              ∧ max_node_count c' = max_node_count c
  end.
Proof.
  intros Hwf. destruct (last (lru_list c)) as [k|] eqn:Hlast.
  - assert (k ∈ lru_list c) as Hin.
    { apply last_Some in Hlast as [l' ->]. apply elem_of_app. right.
      by left. }
    destruct (proj1 (wf_linked c Hwf k) Hin) as [n Hn].
    exists n. eexists. split; [done|].
    unfold evict_last_node. rewrite Hlast, (evict_node_Some k c n Hn).
    split; [done|]. split_and!; simpl; try done.
    + by apply lru_wf_evicted.
    + pose proof (wf_nodup c Hwf) as Hnodup.
      apply last_Some in Hlast as [l' Hl']. rewrite Hl' in Hnodup |- *.
      f_equal. apply NoDup_app in Hnodup as (_ & Hdisj & _).
      apply unlink_snoc. intros Hk. apply (Hdisj k Hk). by left.
    + rewrite (wf_count_list c Hwf).
      destruct (lru_list c); [by apply elem_of_nil in Hin|done].
  - apply last_None in Hlast. split.
    + by rewrite (wf_count_list c Hwf), Hlast.
    + unfold evict_last_node. by rewrite Hlast.
Qed.

End lru_more.

(** ** Part X. Further properties of the manager *)

Section frame_facts.
Context {A B : Type}.
Implicit Types (st : autoload_t) (cmd : string).

Lemma run_bind_inv (m : M A) (f : A → M B) st b st2 ev :
  (m ≫= f) st = Some (b, st2, ev) →
  ∃ a st1 ev1 ev2, m st = Some (a, st1, ev1) ∧ f a st1 = Some (b, st2, ev2)
                   ∧ ev = ev1 ++ ev2.
Proof.
  unfold mbind, M_bind. destruct (m st) as [[[a st1] ev1]|]; [|done].
  destruct (f a st1) as [[[b' st2'] ev2]|] eqn:Hf; [|done].
  intros [= -> -> <-]. by exists a, st1, ev1, ev2.
Qed.

Lemma untouched_but_refl cmd st : untouched_but cmd st st.
Proof. by repeat split. Qed.

Lemma untouched_but_trans cmd st1 st2 st3 :
  untouched_but cmd st1 st2 → untouched_but cmd st2 st3 →
  untouched_but cmd st1 st3.
Proof.
  intros (? & ? & ? & ? & ? & H12) (? & ? & ? & ? & ? & H23).
  repeat split; try congruence.
  intros k n Hk Hn. by apply H12, H23.
Qed.

Lemma frames_ret cmd (a : A) : frames cmd (mret a : M A).
Proof.
  intros st a' st' ev Hwf Hcap [= <- <- <-].
  split_and!; try done; apply untouched_but_refl.
Qed.

Lemma frames_bind cmd (m : M A) (f : A → M B) :
  frames cmd m → (∀ a, frames cmd (f a)) → frames cmd (m ≫= f).
Proof.
  intros Hm Hf st b st2 ev Hwf Hcap
    (a & st1 & ev1 & ev2 & Hm1 & Hf1 & _)%run_bind_inv.
  destruct (Hm st a st1 ev1 Hwf Hcap Hm1) as (Hwf1 & Hcap1 & H1).
  destruct (Hf a st1 b st2 ev2 Hwf1 Hcap1 Hf1) as (Hwf2 & Hcap2 & H2).
  split_and!; try done. by eapply untouched_but_trans.
Qed.
End frame_facts.

Section frame_steps.
Context (escape_string : string → string).
Implicit Types (st : autoload_t) (cmd : string) (f : autoload_function_t).

Lemma frames_tell cmd ev : frames cmd (tell ev).
Proof.
  intros st a st' ev' Hwf Hcap [= <- <- <-].
  split_and!; try done; apply untouched_but_refl.
Qed.

Lemma frames_this cmd : frames cmd this.
Proof.
  intros st a st' ev' Hwf Hcap [= <- <- <-].
  split_and!; try done; apply untouched_but_refl.
Qed.

Lemma frames_this_get_node cmd k : frames cmd (this_get_node k).
Proof.
  intros st a st' ev Hwf Hcap. rewrite this_get_node_eq.
  intros [= <- <- <-].
  destruct (get_node_node_set k (cache st)) as (Hset & Hcnt & Hmax).
  simpl. split_and!.
  - by apply get_node_wf.
  - by rewrite Hcnt, Hmax.
  - repeat split; simpl; try done. intros k' n _. by rewrite Hset.
Qed.

Lemma frames_write_func cmd (g : autoload_function_t → autoload_function_t) :
  (∀ f, key (g f) = key f) → frames cmd (write_func cmd g).
Proof.
  intros Hg st a st' ev Hwf Hcap [= <- <- <-]. simpl. split_and!.
  - by apply lru_wf_updated.
  - done.
  - repeat split; simpl; try done. intros k n Hk.
    by rewrite lookup_alter_ne.
Qed.

Lemma add_node_without_eviction_frame (n : autoload_function_t) c b c' ev :
  lru_wf c → add_node_without_eviction n c = Some (b, c', ev) →
  max_node_count c' = max_node_count c
  ∧ ∀ k n0, k ≠ key n → node_set c' !! k = Some n0 →
            node_set c !! k = Some n0.
Proof.
  intros Hwf Hadd. destruct (node_set c !! node_key n) as [n1|] eqn:Hk.
  - rewrite add_node_without_eviction_present in Hadd by (by rewrite Hk).
    by injection Hadd as <- <- <-.
  - destruct (add_node_without_eviction_fresh n c Hwf Hk)
      as (c2 & Heq & _ & Hmax & _ & Hset).
    rewrite Hadd in Heq. injection Heq as -> -> ->.
    split; [done|]. intros k n0 Hne. rewrite Hset.
    destruct (decide (k ∈ _)); [done|]. by rewrite lookup_insert_ne.
Qed.

Lemma frames_add (really_load : bool) (n : autoload_function_t) :
  frames (key n)
    (if really_load then this_add_node n
     else this_add_node_without_eviction n).
Proof.
  intros st a st' ev Hwf Hcap Hrun.
  assert (on_cache (add_node_without_eviction n) st = Some (a, st', ev))
    as Hrun'.
  { destruct really_load; [|done].
    unfold this_add_node, on_cache in Hrun. rewrite add_node_eq in Hrun; done. }
  unfold on_cache in Hrun'.
  destruct (add_node_without_eviction n (cache st)) as [[[b c'] ev']|] eqn:Hadd;
    [|done].
  injection Hrun' as <- <- <-.
  destruct (add_node_without_eviction_lookup n _ _ _ _ Hwf Hcap Hadd)
    as (Hwf' & Hcap' & _).
  destruct (add_node_without_eviction_frame n _ _ _ _ Hwf Hadd)
    as (Hmax & Hset).
  simpl. split_and!; try done; repeat split; simpl; done.
Qed.

Lemma frames_reload_block cmd file func lv :
  frames cmd (reload_block escape_string cmd file func lv).
Proof.
  unfold reload_block. apply frames_bind; [|intros _; apply frames_ret].
  destruct func as [f|]; [|apply frames_ret].
  destruct (is_loaded f); [|apply frames_ret].
  apply frames_bind; [apply frames_tell|intros _].
  by apply frames_write_func.
Qed.

Lemma frames_found_accessible_file cmd really_load file acc lv :
  frames cmd
    (found_accessible_file escape_string cmd really_load file acc lv).
Proof.
  unfold found_accessible_file.
  apply frames_bind; [apply frames_this_get_node|intros func].
  apply frames_bind.
  { destruct (need_to_load_function really_load func acc);
      [apply frames_reload_block|apply frames_ret]. }
  intros lv'. apply frames_bind.
  { destruct func as [f|]; [apply frames_ret|].
    apply frames_bind; [|intros _; apply frames_ret].
    apply (frames_add really_load (new_autoload_function cmd)). }
  intros _. apply frames_bind.
  { destruct (need_to_load_function really_load func acc);
      [by apply frames_write_func|apply frames_ret]. }
  intros _. apply frames_bind; [by apply frames_write_func|].
  intros _. apply frames_ret.
Qed.

Lemma frames_search_path w cmd really_load path_list lv :
  frames cmd (search_path escape_string w cmd really_load path_list lv).
Proof.
  induction path_list as [|next rest IH]; simpl.
  - apply frames_ret.
  - apply frames_bind; [apply frames_tell|intros _].
    destruct (accessible _); [|done].
    apply frames_found_accessible_file.
Qed.

Lemma frames_insert_placeholder w cmd really_load :
  frames cmd (insert_placeholder w cmd really_load).
Proof.
  unfold insert_placeholder.
  apply frames_bind; [apply frames_this_get_node|intros func].
  apply frames_bind; [|intros _; by apply frames_write_func].
  destruct func as [f|]; [apply frames_ret|].
  apply frames_bind; [|intros _; apply frames_ret].
  apply (frames_add really_load
           (set_is_placeholder true (new_autoload_function cmd))).
Qed.

Lemma frames_locate w cmd really_load reload path_list :
  frames cmd
    (locate_file_and_maybe_load_it escape_string w cmd really_load reload
       path_list).
Proof.
  unfold locate_file_and_maybe_load_it.
  apply frames_bind; [apply frames_this_get_node|intros func].
  destruct (use_cached w really_load reload func); [apply frames_ret|].
  apply frames_bind; [apply frames_this|intros st0].
  destruct (matching_builtin_script (builtin_scripts st0) cmd) as [b|];
    simpl.
  - apply frames_bind; [apply frames_ret|intros lv].
    apply frames_bind; [|intros _; apply frames_ret].
    destruct (really_load && has_script_source lv);
      [apply frames_tell|apply frames_ret].
  - apply frames_bind.
    { apply frames_bind; [apply frames_search_path|intros lv].
      apply frames_bind; [|intros _; apply frames_ret].
      destruct (negb (found_file lv) && negb (has_script_source lv));
        [apply frames_insert_placeholder|apply frames_ret]. }
    intros lv. apply frames_bind; [|intros _; apply frames_ret].
    destruct (really_load && has_script_source lv);
      [apply frames_tell|apply frames_ret].
Qed.

(** X8. Whatever [locate_file_and_maybe_load_it] does for [cmd], on a
    manager whose cache satisfies the invariant and the capacity, which is
    at least 1 (with capacity 0 a new entry is deleted before the call
    writes to it): the recorded path, the set of the commands that are being loaded, the name
    of the variable, the table of built-in scripts and the capacity are
    the same afterwards; an entry that is there afterwards under another
    name was there before, with the same contents (the call creates and
    writes the entry of [cmd] only; other entries can only be evicted);
    and the cache satisfies the invariant and the capacity. *)
Theorem locate_only_touches_cmd
    (w : world) (cmd : string) (really_load reload : bool)
    (path_list : list string) (st st' : autoload_t) (r : bool)
    (ev : list event) :
  lru_wf (cache st) → node_count (cache st) ≤ max_node_count (cache st) →
  0 < max_node_count (cache st) →
  locate_file_and_maybe_load_it escape_string w cmd really_load reload
    path_list st = Some (r, st', ev) →
  lru_wf (cache st')
  ∧ node_count (cache st') ≤ max_node_count (cache st')
  ∧ path st' = path st
  ∧ is_loading_set st' = is_loading_set st
  ∧ env_var_name st' = env_var_name st
  ∧ builtin_scripts st' = builtin_scripts st
  ∧ max_node_count (cache st') = max_node_count (cache st)
  ∧ ∀ k n, k ≠ cmd → node_set (cache st') !! k = Some n →
           node_set (cache st) !! k = Some n.
Proof.
  intros Hwf Hcap _ Hrun.
  destruct (frames_locate w cmd really_load reload path_list st r st' ev
              Hwf Hcap Hrun) as (Hwf' & Hcap' & Hrest).
  split; [done|]. split; [done|]. exact Hrest.
Qed.
End frame_steps.

Section load_more.
Context (tokenize_variable_array2 : string → list string)
        (escape_string : string → string).
Implicit Types (st : autoload_t) (cmd : string) (f : autoload_function_t).
Implicit Types (w : world).

Lemma manager_inv_emptied scripts loading st :
  manager_inv scripts loading st → manager_inv scripts loading (emptied st).
Proof.
  intros [Hwf Hcap Hs Hnb Hld]. split; simpl; try done.
  - apply (lru_cache_new_wf (max_node_count (cache st))).
  - lia.
  - intros k. rewrite lookup_empty. by intros [? ?].
Qed.

(** [load] past its first tests: the eviction of the cache when the path
    has changed, then [locate_file_and_maybe_load_it] with [cmd] in the
    set of the commands that are being loaded, then the set as it was. *)
Lemma load_decompose scripts loading w cmd reload st path_var :
  manager_inv scripts loading st →
  signal_is_blocked w = false →
  env_get_string w (env_var_name st) = Some path_var →
  path_var ≠ "" → cmd ∉ loading →
  let changed := bool_decide (path_var ≠ path st) in
  let st1 := if changed then emptied (set_path path_var st) else st in
  let ev1 := if changed
             then evictions (cache st) (reverse (lru_list (cache st)))
             else [] in
  ∃ res st3 ev3,
    locate_file_and_maybe_load_it escape_string w cmd true reload
      (tokenize_variable_array2 path_var)
      (set_is_loading_set ({[cmd]} ∪ loading) st1) = Some (res, st3, ev3)
    ∧ manager_inv scripts ({[cmd]} ∪ loading) st3
    ∧ load tokenize_variable_array2 escape_string w cmd reload st
      = Some ((if res then 1 else 0)%Z, set_is_loading_set loading st3,
              ev1 ++ ev3).
Proof.
  intros Hinv Hblocked Hvar Hne Hcmd changed st1 ev1.
  assert (manager_inv scripts loading st1) as Hinv1.
  { subst st1. destruct changed; [|done].
    by apply manager_inv_emptied, manager_inv_set_path. }
  assert ((if changed
           then modify (set_path path_var);; this_evict_all_nodes
           else mret tt) st = Some (tt, st1, ev1)) as Hstep1.
  { subst st1 ev1. destruct changed; [|done].
    rewrite (run_bind (modify _) _ st tt (set_path path_var st) []) by done.
    rewrite after_events_nil.
    unfold this_evict_all_nodes, on_cache. cbn [cache set_path].
    by rewrite (evict_all_nodes_empties _ (inv_wf _ _ _ Hinv)). }
  set (st2 := set_is_loading_set ({[cmd]} ∪ loading) st1).
  destruct (triple_locate escape_string scripts ({[cmd]} ∪ loading) w cmd
              true reload (tokenize_variable_array2 path_var) st2)
    as (res & st3 & ev3 & Hloc & Hinv3).
  { by apply (manager_inv_set_is_loading_set scripts loading). }
  exists res, st3, ev3. split; [done|]. split; [done|].
  unfold load. rewrite Hblocked.
  rewrite (run_bind this _ st st st []) by done. rewrite after_events_nil.
  rewrite Hvar. simpl (var_empty _).
  rewrite bool_decide_eq_false_2 by done. simpl (default _ _).
  fold changed. rewrite (run_bind _ _ st tt st1 ev1 Hstep1).
  rewrite (run_bind this _ st1 st1 st1 []) by done. rewrite after_events_nil.
  assert (is_loading cmd st1 = false) as ->.
  { apply bool_decide_eq_false. by rewrite (inv_loading _ _ _ Hinv1). }
  rewrite (run_bind (modify _) _ st1 tt st2 [])
    by (subst st2; unfold modify; by rewrite (inv_loading _ _ _ Hinv1)).
  rewrite after_events_nil.
  rewrite (run_bind _ _ st2 res st3 ev3 Hloc).
  rewrite (run_bind this _ st3 st3 st3 []) by done. rewrite after_events_nil.
  rewrite bool_decide_eq_true_2
    by (rewrite (inv_loading _ _ _ Hinv3), elem_of_union,
          elem_of_singleton; by left).
  assert (is_loading_set st3 ∖ {[cmd]} = loading) as Hback.
  { rewrite (inv_loading _ _ _ Hinv3). apply set_eq. intros x.
    rewrite elem_of_difference, elem_of_union, elem_of_singleton.
    split; [tauto|]. intros Hx. split; [by right|]. by intros ->. }
  unfold mbind, M_bind, modify, mret, M_ret. simpl.
  by rewrite Hback, !app_nil_r.
Qed.
End load_more.

(** ** Part XI. The entry points that do not look for a file *)

Lemma set_cache_same (st : autoload_t) : set_cache (cache st) st = st.
Proof. by destruct st. Qed.

Lemma elem_of_evictions (c : lru_cache_impl_t autoload_function_t)
    (ks : list string) (k : string) :
  CommandRemoved k ∈ evictions c ks
  ↔ ∃ k' f, k' ∈ ks ∧ node_set c !! k' = Some f ∧ is_loaded f = false
            ∧ key f = k.
Proof.
  induction ks as [|k0 ks IH].
  - split; [by intros ?%elem_of_nil|].
    by intros (? & ? & ?%elem_of_nil & _).
  - unfold evictions in *. rewrite fmap_cons. simpl concat.
    rewrite elem_of_app, IH. split.
    + intros [Hhere|(k' & f & Hk' & Hf & Hl & Hkey)].
      * destruct (node_set c !! k0) as [f|] eqn:Hf;
          [|by apply elem_of_nil in Hhere].
        simpl in Hhere. unfold node_was_evicted, autoload_node_was_evicted
          in Hhere.
        destruct (is_loaded f) eqn:Hl; [by apply elem_of_nil in Hhere|].
        simpl in Hhere. apply list_elem_of_singleton in Hhere.
        exists k0, f. split; [by left|]. split; [done|]. split; [done|].
        congruence.
      * exists k', f. split; [by right|]. done.
    + intros (k' & f & Hk' & Hf & Hl & Hkey).
      apply elem_of_cons in Hk' as [->|Hk'].
      * left. rewrite Hf. simpl.
        unfold node_was_evicted, autoload_node_was_evicted.
        rewrite Hl. simpl. subst k. by apply list_elem_of_singleton.
      * right. by exists k', f.
Qed.

(** X9. [autoload_t::unload] on a manager whose cache satisfies the
    invariant. Of a command that has no entry it returns 0 and changes
    nothing. Of a command that has an entry it returns 1: the entry leaves
    the index and the list, the other members of the manager are as they
    were, [command_removed] is called once when the entry was not marked
    as loaded and is not called when it was, and unloading the command
    again returns 0. *)
Theorem unload_removes_entry (cmd : string) (st : autoload_t) :
  lru_wf (cache st) →
  match node_set (cache st) !! cmd with
  | None => unload cmd st = Some (0%Z, st, [])
  | Some f =>
      ∃ c',
        unload cmd st
        = Some (1%Z, set_cache c' st,
                if is_loaded f then [] else [CommandRemoved cmd])
        ∧ lru_wf c'
        ∧ node_set c' = delete cmd (node_set (cache st))
        ∧ lru_list c' = filter (λ x, x ≠ cmd) (lru_list (cache st))
        ∧ S (node_count c') = node_count (cache st)
        ∧ max_node_count c' = max_node_count (cache st)
        ∧ unload cmd (set_cache c' st) = Some (0%Z, set_cache c' st, [])
  end.
Proof.
  intros Hwf. destruct (node_set (cache st) !! cmd) as [f|] eqn:Hf.
  - eexists (LruCache _ _ _ _).
    assert (node_count (cache st) ≠ 0) as Hcount.
    { rewrite (wf_count_index _ Hwf). intros Hsize.
      apply map_size_empty_inv in Hsize.
      by rewrite Hsize, lookup_empty in Hf. }
    split_and!.
    + unfold unload, mbind, M_bind, on_cache, evict_node_by_key.
      rewrite Hf, (evict_node_Some _ _ _ Hf). simpl.
      unfold node_was_evicted, autoload_node_was_evicted.
      rewrite (wf_keys _ Hwf _ _ Hf : key f = cmd).
      destruct (is_loaded f); reflexivity.
    + apply lru_wf_evicted; [done|]. apply (wf_linked _ Hwf). by exists f.
    + done.
    + done.
    + simpl. lia.
    + done.
    + unfold unload, mbind, M_bind, on_cache, evict_node_by_key. simpl.
      rewrite lookup_delete_eq. simpl. by destruct st.
  - unfold unload, mbind, M_bind, on_cache, evict_node_by_key.
    rewrite Hf. simpl. by rewrite set_cache_same.
Qed.

(** X10. [autoload_t::unload_all] on a manager whose cache satisfies the
    invariant empties the cache, from the least recently used entry to the
    most recently used one, and keeps the capacity and the other members.
    [command_removed] is called for exactly the commands whose entry was
    not marked as loaded, and nothing else is done. *)
Theorem unload_all_reports_unloaded_entries (st : autoload_t) :
  lru_wf (cache st) →
  ∃ ev,
    unload_all st = Some (tt, emptied st, ev)
    ∧ ev = evictions (cache st) (reverse (lru_list (cache st)))
    ∧ (∀ e, e ∈ ev → ∃ k, e = CommandRemoved k)
    ∧ ∀ k, CommandRemoved k ∈ ev
           ↔ ∃ f, node_set (cache st) !! k = Some f ∧ is_loaded f = false.
Proof.
  intros Hwf. eexists. split_and!; [|reflexivity| |].
  - unfold unload_all, this_evict_all_nodes, on_cache.
    by rewrite (evict_all_nodes_empties _ Hwf).
  - intros e. apply evictions_only_command_removed.
  - intros k. rewrite elem_of_evictions. split.
    + intros (k' & f & _ & Hf & Hl & Hkey). exists f. split; [|done].
      by rewrite <- Hkey, (wf_keys _ Hwf _ _ Hf : key f = k').
    + intros (f & Hf & Hl). exists k, f. split_and!; try done.
      * rewrite elem_of_reverse. apply (wf_linked _ Hwf). by exists f.
      * apply (wf_keys _ Hwf _ _ Hf).
Qed.

(** X11. [access_file]. The attempt is marked accessible exactly when
    [wstat] and [waccess] both succeed, and then its error is 0 and its
    modification time is the one [wstat] gave. When [wstat] fails the
    modification time stays 0 and the error is the one of [wstat]; when
    only [waccess] fails the modification time is kept and the error is
    the one of [waccess]. In every case the attempt is not stale and its
    time is the time read after the calls. *)
Theorem access_file_outcomes (w : world) (file : string) (mode : Z) :
  let acc := access_file w file mode in
  stale acc = false
  ∧ last_checked acc = time_in_access_file w file
  ∧ (accessible acc = true
     ↔ ∃ mtime, wstat w file = SysOk mtime
                ∧ waccess w file mode = SysOk tt)
  ∧ (accessible acc = true → error acc = 0%Z)
  ∧ (∀ e, wstat w file = SysError e →
          acc = FileAccess 0 (time_in_access_file w file) false false e)
  ∧ (∀ mtime e, wstat w file = SysOk mtime →
                waccess w file mode = SysError e →
                acc = FileAccess mtime (time_in_access_file w file) false
                        false e)
  ∧ (∀ mtime, wstat w file = SysOk mtime → mod_time acc = mtime).
Proof.
  unfold access_file.
  destruct (wstat w file) as [mtime|e] eqn:Hstat;
    [destruct (waccess w file mode) as [[]|e] eqn:Hacc|]; simpl;
    split_and!; try done; try congruence.
  - split; [|done]. intros _. by exists mtime.
  - split; [done|]. by intros (? & _ & ?).
  - split; [done|]. by intros (? & ? & _).
Qed.

(** X12. The look-up of a built-in script, in a table sorted by name:
    when it finds a script, that is the first one of the table that has
    the name of the command; when it finds none, the table has no script
    of that name. *)
Theorem matching_builtin_script_first (scripts : list builtin_script_t)
    (cmd : string) :
  sorted_by_name scripts →
  match matching_builtin_script scripts cmd with
  | Some b =>
      ∃ i, scripts !! i = Some b ∧ name b = cmd
           ∧ ∀ j b', j < i → scripts !! j = Some b' → name b' ≠ cmd
  | None => ∀ b, b ∈ scripts → name b ≠ cmd
  end.
Proof.
  intros Hsorted.
  destruct (matching_builtin_script scripts cmd) as [b|] eqn:Hfound.
  - unfold matching_builtin_script in Hfound.
    destruct (decide (0 < length scripts)) as [Hlen|]; [|done].
    cbv zeta in Hfound.
    set (v := BuiltinScript cmd "") in *.
    destruct (scripts !! lower_bound scripts v) as [b0|] eqn:Hb0; [|done].
    destruct (decide (wcscmp (name b0) (name v) = 0%Z)) as [Hcmp|]; [|done].
    injection Hfound as ->.
    exists (lower_bound scripts v). split; [done|].
    split; [by apply wcscmp_eq in Hcmp|].
    intros j b' Hj Hb' Hname.
    destruct (lower_bound_loop_partition scripts v (length scripts) 0
                (length scripts) Hsorted) as (_ & Hbefore & _);
      [lia|simpl; lia|intros; lia| |].
    { intros i x Hi Hx. apply lookup_lt_Some in Hx. simpl in Hi. lia. }
    specialize (Hbefore j b' Hj Hb').
    apply precedes_iff in Hbefore. simpl in Hbefore.
    rewrite Hname in Hbefore.
    pose proof (wcscmp_refl cmd) as Hrefl. unfold wcscmp in Hrefl.
    by rewrite Hbefore in Hrefl.
  - intros b. by apply matching_builtin_script_None.
Qed.

(** ** Part XII. What a look-up leaves in the cache *)

Section locate_more.
Context (escape_string : string → string).
Implicit Types (st : autoload_t) (cmd next : string).
Implicit Types (f : autoload_function_t) (w : world).
Local Abbreviation locate :=
  (locate_file_and_maybe_load_it escape_string).

Lemma first_accessible_app w cmd pre next post :
  (∀ d, d ∈ pre → file_accessible w cmd d = false) →
  file_accessible w cmd next = true →
  first_accessible w cmd (pre ++ next :: post) = Some next.
Proof.
  intros Hpre Hnext. unfold first_accessible.
  induction pre as [|d pre IH]; simpl.
  - by rewrite Hnext.
  - rewrite (Hpre d) by by left. apply IH. intros d' Hd'. apply Hpre.
    by right.
Qed.

Lemma probes_app w cmd pre next post :
  (∀ d, d ∈ pre → file_accessible w cmd d = false) →
  file_accessible w cmd next = true →
  probes w cmd (pre ++ next :: post)
  = (λ d, AccessFile (candidate_file d cmd)) <$> (pre ++ [next]).
Proof.
  intros Hpre Hnext. induction pre as [|d pre IH]; simpl.
  - by rewrite Hnext.
  - rewrite (Hpre d) by by left. f_equal. apply IH. intros d' Hd'.
    apply Hpre. by right.
Qed.

Lemma probes_inaccessible w cmd path_list :
  (∀ d, d ∈ path_list → file_accessible w cmd d = false) →
  probes w cmd path_list
  = (λ d, AccessFile (candidate_file d cmd)) <$> path_list.
Proof.
  intros Hall. induction path_list as [|d l IH]; simpl; [done|].
  rewrite (Hall d) by by left. f_equal. apply IH. intros d' Hd'.
  apply Hall. by right.
Qed.

Lemma insertion_evictions_no_access (n : autoload_function_t) c file :
  AccessFile file ∉ insertion_evictions n c.
Proof.
  intros Hin. by apply evictions_only_command_removed in Hin as [k ?].
Qed.

Lemma add_fresh_with_room (n : autoload_function_t) c c' ev :
  lru_wf c → node_set c !! key n = None → 0 < max_node_count c →
  add_node_without_eviction n c = Some (true, c', ev) →
  node_set c' !! key n = Some n
  ∧ ∃ l, lru_list c' = key n :: l ∧ key n ∉ l.
Proof.
  intros Hwf Hfresh Hroom Hadd.
  destruct (add_node_keeps_new_node (E:=event) n c Hwf Hfresh Hroom)
    as (c'' & ev'' & Hadd' & _ & Hlookup & Hlist).
  rewrite (add_node_eq n c Hwf), Hadd in Hadd'.
  injection Hadd' as <- <-. done.
Qed.

Lemma locate_cached_at_head w cmd really_load reload path_list st f l :
  node_set (cache st) !! cmd = Some f →
  lru_list (cache st) = cmd :: l → cmd ∉ l →
  use_cached w really_load reload (Some f) = true →
  locate w cmd really_load reload path_list st
  = Some (accessible (access f), st, []).
Proof.
  intros Hf Hlist Hl Huse.
  rewrite locate_cached by by rewrite Hf.
  rewrite Hf. simpl. unfold get_node. rewrite Hf. simpl.
  by rewrite (promote_node_head cmd (cache st) l Hlist Hl), set_cache_same.
Qed.

(** X13. The first accessible file wins. The cache has room for at least
    one entry, the command has no usable entry and no built-in script, the
    directories [pre] have no accessible file for it and the directory
    [next] has one. Then the call looks at the
    files of [pre] and of [next], in this order, and at no other file; the
    directories after [next] do not matter at all; and the entry of the
    command, when the call leaves one, records the attempt on the file of
    [next]. *)
Theorem first_accessible_directory_wins
    (w : world) (cmd : string) (really_load reload : bool)
    (pre : list string) (next : string) (post : list string)
    (st : autoload_t) :
  lru_wf (cache st) → 0 < max_node_count (cache st) →
  (∀ d, d ∈ pre → file_accessible w cmd d = false) →
  file_accessible w cmd next = true →
  use_cached w really_load reload (node_set (cache st) !! cmd) = false →
  matching_builtin_script (builtin_scripts st) cmd = None →
  ∃ r st' rest,
    locate w cmd really_load reload (pre ++ next :: post) st
    = Some (r, st',
            ((λ d, AccessFile (candidate_file d cmd)) <$> (pre ++ [next]))
            ++ rest)
    ∧ (∀ file, AccessFile file ∉ rest)
    ∧ locate w cmd really_load reload (pre ++ [next]) st
      = locate w cmd really_load reload (pre ++ next :: post) st
    ∧ ∀ f', node_set (cache st') !! cmd = Some f' →
            access f' = access_file w (candidate_file next cmd) R_OK.
Proof.
  intros Hwf _ Hpre Hnext Huse Hb.
  pose proof (first_accessible_app w cmd pre next post Hpre Hnext) as H1.
  pose proof (first_accessible_app w cmd pre next [] Hpre Hnext) as H2.
  pose proof (probes_app w cmd pre next post Hpre Hnext) as P1.
  pose proof (probes_app w cmd pre next [] Hpre Hnext) as P2.
  destruct (node_set (cache st) !! cmd) as [f|] eqn:Hf.
  - rewrite (locate_found_present escape_string w cmd really_load reload
               (pre ++ next :: post) st next f Hf Huse Hb H1).
    rewrite (locate_found_present escape_string w cmd really_load reload
               (pre ++ [next]) st next f Hf Huse Hb H2).
    cbv zeta. rewrite P1, P2. eexists _, _, _. split_and!; [done| |done|].
    + intros file Hin. apply elem_of_app in Hin as [Hin|Hin].
      * destruct (_ && _); [|by apply elem_of_nil in Hin].
        by apply list_elem_of_singleton in Hin.
      * destruct (need_to_load_function _ _ _);
          [|by apply elem_of_nil in Hin].
        by apply list_elem_of_singleton in Hin.
    + intros f'. cbn [cache set_cache update_node node_set].
      rewrite lookup_alter_eq.
      by intros (f0 & _ & ->)%fmap_Some.
  - destruct (locate_found_absent escape_string w cmd really_load reload
                (pre ++ next :: post) st next Hwf Hf Hb H1)
      as (c' & Hadd & Hloc).
    destruct (locate_found_absent escape_string w cmd really_load reload
                (pre ++ [next]) st next Hwf Hf Hb H2)
      as (c'' & Hadd' & Hloc').
    rewrite Hadd in Hadd'. injection Hadd' as <-.
    rewrite Hloc, Hloc', P1, P2.
    eexists _, _, _. split_and!; [done| |done|].
    + intros file Hin. apply elem_of_app in Hin as [Hin|Hin].
      * by apply insertion_evictions_no_access in Hin.
      * destruct really_load; [|by apply elem_of_nil in Hin].
        by apply list_elem_of_singleton in Hin.
    + intros f'. cbn [cache set_cache update_node node_set].
      rewrite lookup_alter_eq.
      by intros (f0 & _ & ->)%fmap_Some.
Qed.

Lemma locate_loads_new_file
    (w : world) (cmd : string) (reload : bool) (path_list : list string)
    (st : autoload_t) (next : string) :
  lru_wf (cache st) → 0 < max_node_count (cache st) →
  node_set (cache st) !! cmd = None →
  matching_builtin_script (builtin_scripts st) cmd = None →
  first_accessible w cmd path_list = Some next →
  let file := candidate_file next cmd in
  ∃ st',
    locate w cmd true reload path_list st
    = Some (true, st',
            probes w cmd path_list
            ++ insertion_evictions (new_autoload_function cmd) (cache st)
            ++ [ExecSubshell (". " +:+ escape_string file)])
    ∧ node_set (cache st') !! cmd
      = Some (AutoloadFunction cmd (access_file w file R_OK) true false)
    ∧ head (lru_list (cache st')) = Some cmd
    ∧ ∀ w' really_load' path_list',
        locate w' cmd really_load' false path_list' st'
        = Some (true, st', []).
Proof.
  intros Hwf Hroom Hf Hb Hnext file.
  destruct (locate_found_absent escape_string w cmd true reload path_list
              st next Hwf Hf Hb Hnext) as (c' & Hadd & Hloc).
  destruct (add_fresh_with_room (new_autoload_function cmd) (cache st) c'
              _ Hwf Hf Hroom Hadd) as (Hlookup & l & Hlist & Hl).
  simpl in Hlookup, Hlist, Hl.
  eexists. split; [exact Hloc|].
  assert (node_set
            (update_node cmd
               (set_access (access_file w (candidate_file next cmd) R_OK))
               (update_node cmd (set_is_loaded true) c')) !! cmd
          = Some (AutoloadFunction cmd (access_file w file R_OK) true false))
    as Hentry.
  { cbn [update_node node_set]. by rewrite !lookup_alter_eq, Hlookup. }
  split; [exact Hentry|]. split; [cbn; by rewrite Hlist|].
  intros w' really_load' path_list'.
  rewrite (locate_cached_at_head w' cmd really_load' false path_list'
             (set_cache _ st) _ l Hentry); try done.
  - simpl. f_equal. f_equal. f_equal.
    apply first_accessible_Some in Hnext as [_ Hacc]. exact Hacc.
  - unfold use_cached. simpl. by destruct really_load'.
Qed.

(** X14. A file that has been loaded is remembered. The command has no
    entry and no built-in script, the cache has room for at least one
    entry, and the path has an accessible file for the command. Then
    [load]'s look-up runs the file and returns true, the new entry is the
    most recently used one, is marked as loaded and holds the attempt on
    the file; and from then on a look-up that does not ask for a reload is
    answered true from the entry, in whatever state the files are: it
    looks at no file, runs nothing and leaves the manager as it is. *)
Theorem loaded_file_is_remembered
    (w : world) (cmd : string) (reload : bool) (path_list : list string)
    (st : autoload_t) (next : string) :
  lru_wf (cache st) → 0 < max_node_count (cache st) →
  node_set (cache st) !! cmd = None →
  matching_builtin_script (builtin_scripts st) cmd = None →
  first_accessible w cmd path_list = Some next →
  let file := candidate_file next cmd in
  ∃ st',
    locate w cmd true reload path_list st
    = Some (true, st',
            probes w cmd path_list
            ++ insertion_evictions (new_autoload_function cmd) (cache st)
            ++ [ExecSubshell (". " +:+ escape_string file)])
    ∧ node_set (cache st') !! cmd
      = Some (AutoloadFunction cmd (access_file w file R_OK) true false)
    ∧ head (lru_list (cache st')) = Some cmd
    ∧ ∀ w' really_load' path_list',
        locate w' cmd really_load' false path_list' st'
        = Some (true, st', []).
Proof. apply locate_loads_new_file. Qed.

(** X15. A command that is not found gets a placeholder. The command has
    no entry and no built-in script, the cache has room for at least one
    entry, and no directory of the path has an accessible file for it.
    Then the call looks at the file of every directory, in order, returns
    false and runs nothing; the new entry is the most recently used one,
    is a placeholder that is not loaded and not accessible, and holds the
    time of its creation; and from then on [can_load]'s look-up is
    answered false from the placeholder, in whatever state the files
    are. *)
Theorem unknown_command_gets_placeholder
    (w : world) (cmd : string) (really_load reload : bool)
    (path_list : list string) (st : autoload_t) :
  lru_wf (cache st) → 0 < max_node_count (cache st) →
  node_set (cache st) !! cmd = None →
  matching_builtin_script (builtin_scripts st) cmd = None →
  (∀ d, d ∈ path_list → file_accessible w cmd d = false) →
  ∃ st',
    locate w cmd really_load reload path_list st
    = Some (false, st',
            ((λ d, AccessFile (candidate_file d cmd)) <$> path_list)
            ++ insertion_evictions
                 (set_is_placeholder true (new_autoload_function cmd))
                 (cache st))
    ∧ node_set (cache st') !! cmd
      = Some (AutoloadFunction cmd
                (FileAccess 0 (time_at_placeholder w) false false 0)
                false true)
    ∧ head (lru_list (cache st')) = Some cmd
    ∧ ∀ w' path_list',
        locate w' cmd false false path_list' st' = Some (false, st', []).
Proof.
  intros Hwf Hroom Hf Hb Hall.
  pose proof (first_accessible_None w cmd path_list Hall) as Hnone.
  assert (use_cached w really_load reload (node_set (cache st) !! cmd)
          = false) as Huse by by rewrite Hf.
  rewrite (locate_not_found escape_string w cmd really_load reload
             path_list st Huse Hb Hnone).
  assert ((get_node cmd (cache st)).2 = cache st) as Hget
    by (unfold get_node; by rewrite Hf).
  rewrite Hget, set_cache_same.
  destruct (insert_placeholder_absent w cmd really_load st Hwf Hf)
    as (c' & Hadd & Hins).
  rewrite Hins, (probes_inaccessible w cmd path_list Hall).
  destruct (add_fresh_with_room
              (set_is_placeholder true (new_autoload_function cmd))
              (cache st) c' _ Hwf Hf Hroom Hadd)
    as (Hlookup & l & Hlist & Hl).
  simpl in Hlookup, Hlist, Hl.
  eexists. split; [reflexivity|].
  assert (node_set
            (update_node cmd (set_last_checked (time_at_placeholder w)) c')
            !! cmd
          = Some (AutoloadFunction cmd
                    (FileAccess 0 (time_at_placeholder w) false false 0)
                    false true)) as Hentry.
  { cbn [update_node node_set]. by rewrite lookup_alter_eq, Hlookup. }
  split; [exact Hentry|]. split; [cbn; by rewrite Hlist|].
  intros w' path_list'.
  by rewrite (locate_cached_at_head w' cmd false false path_list'
                (set_cache _ st) _ l Hentry).
Qed.

Lemma time_t_wrap_range (z : Z) :
  (time_t_min ≤ time_t_wrap z ≤ time_t_max)%Z.
Proof.
  unfold time_t_wrap, time_t_min, time_t_max.
  pose proof (Z.mod_pos_bound (z - - 2 ^ 63) (2 ^ 64)). lia.
Qed.

Lemma time_t_wrap_exact (z : Z) :
  (time_t_min ≤ z ≤ time_t_max)%Z → time_t_wrap z = z.
Proof.
  unfold time_t_wrap, time_t_min, time_t_max. intros Hz.
  rewrite Z.mod_small; lia.
Qed.

Lemma time_t_wrap_overflow (z : Z) :
  (time_t_max < z ≤ time_t_max + 2 ^ 63)%Z →
  time_t_wrap z = (z - 2 ^ 64)%Z.
Proof.
  unfold time_t_wrap, time_t_min, time_t_max. intros Hz.
  rewrite <- (Z.mod_unique (z - - 2 ^ 63) (2 ^ 64) 1 (z - 2 ^ 63)); lia.
Qed.

(** X16. The age of an entry matters only to a look-up that asks for a
    reload. The command has an entry, which is loaded when the look-up is
    [load]'s. Without [reload] the look-up is answered from the entry
    however old the entry is. With [reload] the age is the difference of
    the clock and of the time of the last check as the machine computes
    it on [time_t], which is the exact difference whenever that is in the
    range of [time_t] and wraps around otherwise. The look-up is answered
    from the entry while the age is at most [kAutoloadStalenessInterval];
    once it is more the call looks at the files of the path again, from
    its first directory, and the entry it leaves holds the time of this
    new check. *)
Theorem stale_entry_is_checked_again
    (w : world) (cmd : string) (really_load : bool)
    (path_list : list string) (st : autoload_t) (f : autoload_function_t) :
  node_set (cache st) !! cmd = Some f →
  matching_builtin_script (builtin_scripts st) cmd = None →
  (really_load = true → is_loaded f = true) →
  let age := time_t_sub (time_at_cache_check w) (last_checked (access f)) in
  let answered :=
    Some (accessible (access f),
          set_cache (promote_node cmd (cache st)) st, []) in
  locate w cmd really_load false path_list st = answered
  ∧ ((age ≤ kAutoloadStalenessInterval)%Z →
     locate w cmd really_load true path_list st = answered)
  ∧ ((kAutoloadStalenessInterval < age)%Z →
     ∃ r st' ev f',
       locate w cmd really_load true path_list st
       = Some (r, st', probes w cmd path_list ++ ev)
       ∧ (∀ file, AccessFile file ∉ ev)
       ∧ node_set (cache st') !! cmd = Some f'
       ∧ last_checked (access f')
         = match first_accessible w cmd path_list with
           | Some next => time_in_access_file w (candidate_file next cmd)
           | None => time_at_placeholder w
           end)
  ∧ (time_t_min ≤ age ≤ time_t_max)%Z
  ∧ ((time_t_min ≤ time_at_cache_check w - last_checked (access f)
      ≤ time_t_max)%Z →
     age = (time_at_cache_check w - last_checked (access f))%Z)
  ∧ ((time_t_max < time_at_cache_check w - last_checked (access f)
      ≤ time_t_max + 2 ^ 63)%Z →
     locate w cmd really_load true path_list st = answered).
Proof.
  intros Hf Hb Hloaded age answered.
  assert (really_load && negb (is_loaded f) = false) as Hrl.
  { destruct really_load; [|done]. by rewrite Hloaded. }
  assert (get_node cmd (cache st) = (Some f, promote_node cmd (cache st)))
    as Hget by (unfold get_node; by rewrite Hf).
  assert ((age ≤ kAutoloadStalenessInterval)%Z →
          locate w cmd really_load true path_list st = answered) as Hfresh.
  { intros Hage. rewrite locate_cached; rewrite Hf; [by rewrite Hget|].
    unfold use_cached. cbn [negb andb]. fold age.
    rewrite bool_decide_eq_false_2 by lia. by rewrite Hrl. }
  assert ((kAutoloadStalenessInterval < age)%Z →
          ∃ r st' ev f',
            locate w cmd really_load true path_list st
            = Some (r, st', probes w cmd path_list ++ ev)
            ∧ (∀ file, AccessFile file ∉ ev)
            ∧ node_set (cache st') !! cmd = Some f'
            ∧ last_checked (access f')
              = match first_accessible w cmd path_list with
                | Some next =>
                    time_in_access_file w (candidate_file next cmd)
                | None => time_at_placeholder w
                end) as Hstale.
  { intros Hage.
    assert (use_cached w really_load true (Some f) = false) as Huse.
    { unfold use_cached. cbn [negb andb]. fold age.
      by rewrite bool_decide_eq_true_2 by lia. }
    destruct (first_accessible w cmd path_list) as [next|] eqn:Hnext.
    + rewrite (locate_found_present escape_string w cmd really_load true
                 path_list st next f Hf Huse Hb Hnext).
      cbv zeta.
      destruct (need_to_load_function really_load (Some f) _);
        [destruct (is_loaded f)|]; cbn [andb];
        (eexists _, _, _, _; split_and!;
         [done
         |intros file Hin; simpl in Hin;
          repeat (apply elem_of_cons in Hin as [Hin|Hin];
                  [discriminate Hin|]);
          by apply elem_of_nil in Hin
         |cbn [cache set_cache update_node node_set promote_node];
          rewrite ?lookup_alter_eq, Hf; reflexivity
         |reflexivity]).
    + rewrite (locate_not_found escape_string w cmd really_load true
                 path_list st) by (by rewrite ?Hf).
      rewrite Hget. cbn [snd].
      rewrite (insert_placeholder_present w cmd really_load _ f)
        by done.
      eexists _, _, _, _. split_and!; [done| | |].
      * by intros file ?%elem_of_nil.
      * cbn [cache set_cache update_node node_set promote_node].
        by rewrite lookup_alter_eq, Hf.
      * reflexivity. }
  split; [|split; [exact Hfresh|split; [exact Hstale|split; [|split]]]].
  - rewrite locate_cached; rewrite Hf; [by rewrite Hget|].
    unfold use_cached. cbn [negb andb]. by rewrite Hrl.
  - apply time_t_wrap_range.
  - apply time_t_wrap_exact.
  - intros Hover. apply Hfresh. unfold age, time_t_sub.
    rewrite (time_t_wrap_overflow _ Hover).
    unfold kAutoloadStalenessInterval, time_t_max in *. lia.
Qed.
End locate_more.

(** ** Part XIII. [load] and [can_load] around the look-up *)

Section load_more_facts.
Context (tokenize_variable_array2 : string → list string)
        (escape_string : string → string).
Implicit Types (st : autoload_t) (cmd : string) (w : world).
Local Abbreviation load' :=
  (load tokenize_variable_array2 escape_string).
Local Abbreviation can_load' :=
  (can_load tokenize_variable_array2 escape_string).

(** [load] once the path variable is known to have a value: what it does
    to the manager besides the entry of [cmd]. *)
Lemma load_cases scripts loading w cmd reload st path_var :
  manager_inv scripts loading st →
  signal_is_blocked w = false →
  env_get_string w (env_var_name st) = Some path_var →
  path_var ≠ "" →
  let changed := bool_decide (path_var ≠ path st) in
  let st1 := if changed then emptied (set_path path_var st) else st in
  let ev1 := if changed
             then evictions (cache st) (reverse (lru_list (cache st)))
             else [] in
  ∃ r st' ev2,
    load' w cmd reload st = Some (r, st', ev1 ++ ev2)
    ∧ (r = 0 ∨ r = 1)%Z
    ∧ manager_inv scripts loading st'
    ∧ untouched_but cmd st1 st'
    ∧ (cmd ∈ loading → r = 1%Z ∧ st' = st1 ∧ ev2 = [DebugMessage cmd]).
Proof.
  intros Hinv Hblocked Hvar Hne changed st1 ev1.
  assert (manager_inv scripts loading st1) as Hinv1.
  { subst st1. destruct changed; [|done].
    by apply manager_inv_emptied, manager_inv_set_path. }
  destruct (decide (cmd ∈ loading)) as [Hin|Hout].
  - exists 1%Z, st1, [DebugMessage cmd].
    split; [|split; [by right|]; split; [done|];
             split; [apply untouched_but_refl|done]].
    assert ((if changed
             then modify (set_path path_var);; this_evict_all_nodes
             else mret tt) st = Some (tt, st1, ev1)) as Hstep1.
    { subst st1 ev1. destruct changed; [|done].
      rewrite (run_bind (modify _) _ st tt (set_path path_var st) [])
        by done.
      rewrite after_events_nil.
      unfold this_evict_all_nodes, on_cache. cbn [cache set_path].
      by rewrite (evict_all_nodes_empties _ (inv_wf _ _ _ Hinv)). }
    unfold load. rewrite Hblocked.
    rewrite (run_bind this _ st st st []) by done. rewrite after_events_nil.
    rewrite Hvar. simpl (var_empty _).
    rewrite bool_decide_eq_false_2 by done. simpl (default _ _).
    fold changed. rewrite (run_bind _ _ st tt st1 ev1 Hstep1).
    rewrite (run_bind this _ st1 st1 st1 []) by done.
    rewrite after_events_nil.
    assert (is_loading cmd st1 = true) as ->.
    { apply bool_decide_eq_true. by rewrite (inv_loading _ _ _ Hinv1). }
    reflexivity.
  - destruct (load_decompose tokenize_variable_array2 escape_string scripts
                loading w cmd reload st path_var Hinv Hblocked Hvar Hne
                Hout) as (res & st3 & ev3 & Hloc & Hinv3 & Hload).
    fold changed in Hloc, Hload. fold st1 in Hloc. fold ev1 in Hload.
    exists (if res then 1 else 0)%Z, (set_is_loading_set loading st3), ev3.
    split; [exact Hload|]. split; [destruct res; [by right|by left]|].
    split; [by apply (manager_inv_set_is_loading_set _ ({[cmd]} ∪ loading))|].
    split; [|done].
    destruct (frames_locate escape_string w cmd true reload
                (tokenize_variable_array2 path_var) _ _ _ _
                (inv_wf _ _ _ (manager_inv_set_is_loading_set scripts loading
                                 ({[cmd]} ∪ loading) st1 Hinv1))
                (inv_capacity _ _ _
                   (manager_inv_set_is_loading_set scripts loading
                      ({[cmd]} ∪ loading) st1 Hinv1)) Hloc)
      as (_ & _ & Hpath & _ & Hvar' & Hscripts & Hmax & Hkeep).
    split_and!; try done. simpl. symmetry. apply (inv_loading _ _ _ Hinv1).
Qed.

(** X17. Without a value of the path variable nothing is looked up. When
    the variable is missing or empty, [load] returns 0 and [can_load]
    returns false, and they leave the manager as it is; this holds also
    when the path the manager remembers is not empty and when the command
    is in the set of the commands being loaded. *)
Theorem lookup_needs_path_variable
    (w : world) (cmd : string) (reload : bool) (st : autoload_t) :
  signal_is_blocked w = false →
  var_empty (env_get_string w (env_var_name st)) = true →
  load' w cmd reload st = Some (0%Z, st, [])
  ∧ can_load' w cmd (env_get_string w) st = Some (false, st, []).
Proof.
  intros Hblocked Hempty. split.
  - unfold load. rewrite Hblocked.
    rewrite (run_bind this _ st st st []) by done.
    by rewrite after_events_nil, Hempty.
  - unfold can_load.
    rewrite (run_bind this _ st st st []) by done.
    by rewrite after_events_nil, Hempty.
Qed.

(** X18. A change of the path variable drops the whole cache. On a
    manager that satisfies the invariant and has room for at least one
    entry, when the variable has a value that is not the path the manager
    remembers,
    [load] first evicts every entry, from the least recently used one,
    and remembers the new path; after the call the cache holds no command
    but, possibly, the one that was asked for. *)
Theorem load_path_change_drops_all
    (scripts : list builtin_script_t) (loading : gset string)
    (w : world) (cmd : string) (reload : bool) (st : autoload_t)
    (path_var : string) :
  manager_inv scripts loading st → 0 < max_node_count (cache st) →
  signal_is_blocked w = false →
  env_get_string w (env_var_name st) = Some path_var →
  path_var ≠ "" → path_var ≠ path st →
  ∃ r st' ev,
    load' w cmd reload st
    = Some (r, st',
            evictions (cache st) (reverse (lru_list (cache st))) ++ ev)
    ∧ path st' = path_var
    ∧ is_loading_set st' = is_loading_set st
    ∧ max_node_count (cache st') = max_node_count (cache st)
    ∧ ∀ k, k ≠ cmd → node_set (cache st') !! k = None.
Proof.
  intros Hinv _ Hblocked Hvar Hne Hchanged.
  destruct (load_cases scripts loading w cmd reload st path_var Hinv
              Hblocked Hvar Hne)
    as (r & st' & ev & Hload & _ & _ & Hframe & _).
  rewrite bool_decide_eq_true_2 in Hload, Hframe by done.
  destruct Hframe as (Hpath & Hloading & _ & _ & Hmax & Hkeep).
  exists r, st', ev. split_and!; try done.
  intros k Hk. destruct (node_set (cache st') !! k) as [n|] eqn:Hn; [|done].
  by apply Hkeep in Hn.
Qed.

(** X19. [load] returns, and cleans up after itself. On a manager that
    satisfies the invariant and has room for at least one entry the call
    fails no assertion and returns 0 or 1; the set of the commands being loaded is afterwards what it was
    before the call; the path the manager remembers is the value of the
    variable, when it has one and the signals are not blocked; and the
    invariant holds again. With the signals blocked the call reports it,
    returns 0 and changes nothing. *)
Theorem load_returns_and_cleans_up
    (scripts : list builtin_script_t) (loading : gset string)
    (w : world) (cmd : string) (reload : bool) (st : autoload_t) :
  manager_inv scripts loading st → 0 < max_node_count (cache st) →
  ∃ r st' ev,
    load' w cmd reload st = Some (r, st', ev)
    ∧ (r = 0 ∨ r = 1)%Z
    ∧ manager_inv scripts loading st'
    ∧ is_loading_set st' = is_loading_set st
    ∧ max_node_count (cache st') = max_node_count (cache st)
    ∧ path st'
      = (if signal_is_blocked w
            || var_empty (env_get_string w (env_var_name st))
         then path st
         else default "" (env_get_string w (env_var_name st)))
    ∧ (signal_is_blocked w = true →
       r = 0%Z ∧ st' = st ∧ ev = [BlockedSignals]).
Proof.
  intros Hinv _.
  destruct (signal_is_blocked w) eqn:Hblocked.
  { exists 0%Z, st, [BlockedSignals]. unfold load. rewrite Hblocked.
    split_and!; try done. by left. }
  destruct (var_empty (env_get_string w (env_var_name st))) eqn:Hempty.
  { exists 0%Z, st, []. unfold load. rewrite Hblocked.
    rewrite (run_bind this _ st st st []) by done.
    rewrite after_events_nil, Hempty. split_and!; try done. by left. }
  destruct (env_get_string w (env_var_name st)) as [path_var|] eqn:Hvar;
    [|done].
  simpl in Hempty. apply bool_decide_eq_false in Hempty.
  destruct (load_cases scripts loading w cmd reload st path_var Hinv
              Hblocked Hvar Hempty)
    as (r & st' & ev & Hload & Hr & Hinv' & Hframe & _).
  destruct Hframe as (Hpath & Hloading & _ & _ & Hmax & _).
  eexists r, st', _. split; [exact Hload|]. split; [done|].
  split; [done|]. simpl. revert Hpath Hloading Hmax.
  destruct (bool_decide (path_var ≠ path st)) eqn:Hchanged;
    intros Hpath Hloading Hmax; split_and!; try done.
  apply bool_decide_eq_false in Hchanged.
  rewrite Hpath. destruct (decide (path_var = path st)); [done|].
  by destruct Hchanged.
Qed.

(** X20. [can_load] trusts any entry. When the path variable has a value
    and the command has an entry, [can_load] answers with the
    accessibility that the entry holds: it looks at no file, however old
    the entry is and also when the entry is a placeholder, and it only
    makes the entry the most recently used one. *)
Theorem can_load_answered_from_entry
    (w : world) (cmd : string) (vars : string → option string)
    (st : autoload_t) (f : autoload_function_t) :
  var_empty (vars (env_var_name st)) = false →
  node_set (cache st) !! cmd = Some f →
  can_load' w cmd vars st
  = Some (accessible (access f),
          set_cache (promote_node cmd (cache st)) st, []).
Proof.
  intros Hvar Hf. unfold can_load.
  rewrite (run_bind this _ st st st []) by done.
  rewrite after_events_nil, Hvar.
  by apply probe_answered_from_entry.
Qed.

(** X21. Whatever is called on a new manager of capacity at least 1, in
    whatever order, every call returns: no assertion of the manager or of its cache fails.
    Between the calls the cache satisfies its invariant and is within its
    capacity, no command is marked as being loaded, and no command that
    has a built-in script has an entry. *)
Theorem calls_keep_manager_consistent
    (capacity : nat) (var : string) (scripts : list builtin_script_t)
    (calls : list manager_call) :
  0 < capacity →
  ∃ st ev,
    run_calls tokenize_variable_array2 escape_string calls
      (autoload_new capacity var scripts) = Some (tt, st, ev)
    ∧ lru_wf (cache st)
    ∧ node_count (cache st) ≤ max_node_count (cache st)
    ∧ is_loading_set st = ∅
    ∧ builtin_scripts st = scripts
    ∧ ∀ k, is_Some (node_set (cache st) !! k) →
           matching_builtin_script scripts k = None.
Proof.
  intros _.
  destruct (triple_run_calls tokenize_variable_array2 escape_string scripts
              ∅ calls (autoload_new capacity var scripts)
              (manager_inv_new scripts capacity var))
    as ([] & st & ev & Hrun & [Hwf Hcap Hs Hnb Hld]).
  by exists st, ev.
Qed.
End load_more_facts.

Section load_round_trip.
Context (tokenize_variable_array2 : string → list string)
        (escape_string : string → string).
Implicit Types (st : autoload_t) (cmd : string) (w : world).

Lemma set_is_loading_set_back (l : gset string) st :
  set_is_loading_set (is_loading_set st) (set_is_loading_set l st) = st.
Proof. by destruct st. Qed.

(** X23. A second [load] does nothing. The path variable has a value, the
    command is not being loaded, has no built-in script and no entry (or
    the path has changed, which drops every entry), the cache has room for
    at least one entry and the path has an accessible file for the
    command. Then [load] runs the file, last of all it does, and returns
    1; and a [load] without [reload] that follows, under the same value of
    the variable, returns 1 again without looking at a file, running
    anything or changing the manager. *)
Theorem load_twice
    (scripts : list builtin_script_t) (loading : gset string)
    (w w' : world) (cmd : string) (reload : bool) (st : autoload_t)
    (path_var next : string) :
  manager_inv scripts loading st →
  signal_is_blocked w = false → signal_is_blocked w' = false →
  env_get_string w (env_var_name st) = Some path_var →
  env_get_string w' (env_var_name st) = Some path_var →
  path_var ≠ "" → cmd ∉ loading →
  0 < max_node_count (cache st) →
  (path_var ≠ path st ∨ node_set (cache st) !! cmd = None) →
  matching_builtin_script scripts cmd = None →
  first_accessible w cmd (tokenize_variable_array2 path_var) = Some next →
  ∃ st' ev,
    load tokenize_variable_array2 escape_string w cmd reload st
    = Some (1%Z, st',
            ev ++ [ExecSubshell
                     (". " +:+ escape_string (candidate_file next cmd))])
    ∧ load tokenize_variable_array2 escape_string w' cmd false st'
      = Some (1%Z, st', []).
Proof.
  intros Hinv Hblocked Hblocked' Hvar Hvar' Hne Hout Hroom Hfresh Hb Hnext.
  destruct (load_decompose tokenize_variable_array2 escape_string scripts
              loading w cmd reload st path_var Hinv Hblocked Hvar Hne Hout)
    as (res & st3 & ev3 & Hloc & Hinv3 & Hload).
  cbv zeta in Hloc, Hload.
  set (st1 := if bool_decide (path_var ≠ path st)
              then emptied (set_path path_var st) else st) in *.
  set (st2 := set_is_loading_set ({[cmd]} ∪ loading) st1) in *.
  assert (manager_inv scripts loading st1) as Hinv1.
  { subst st1. destruct (bool_decide _); [|done].
    by apply manager_inv_emptied, manager_inv_set_path. }
  assert (manager_inv scripts ({[cmd]} ∪ loading) st2) as Hinv2
    by by apply (manager_inv_set_is_loading_set scripts loading).
  assert (path st2 = path_var ∧ env_var_name st2 = env_var_name st
          ∧ max_node_count (cache st2) = max_node_count (cache st)
          ∧ node_set (cache st2) !! cmd = None) as (Hp2 & He2 & Hm2 & Hf2).
  { subst st2 st1. destruct (bool_decide (path_var ≠ path st)) eqn:Hch.
    - done.
    - apply bool_decide_eq_false in Hch. split_and!; try done.
      + simpl. destruct (decide (path_var = path st)); [done|].
        by destruct Hch.
      + by destruct Hfresh as [?|?]. }
  destruct (locate_loads_new_file escape_string w cmd reload
              (tokenize_variable_array2 path_var) st2 next
              (inv_wf _ _ _ Hinv2)) as (st3' & Hloc' & _ & _ & Hagain).
  { by rewrite Hm2. }
  { done. }
  { by rewrite (inv_scripts _ _ _ Hinv2). }
  { done. }
  rewrite Hloc in Hloc'. injection Hloc' as -> <- ->.
  destruct (frames_locate escape_string w cmd true reload
              (tokenize_variable_array2 path_var) st2 true st3 _
              (inv_wf _ _ _ Hinv2) (inv_capacity _ _ _ Hinv2) Hloc)
    as (_ & _ & Hp3 & _ & He3 & _).
  set (st' := set_is_loading_set loading st3).
  assert (manager_inv scripts loading st') as Hinv'
    by by apply (manager_inv_set_is_loading_set scripts ({[cmd]} ∪ loading)).
  assert (set_is_loading_set ({[cmd]} ∪ loading) st' = st3) as Hback.
  { subst st'. rewrite <- (inv_loading _ _ _ Hinv3).
    apply set_is_loading_set_back. }
  eexists st', _. split.
  - rewrite Hload, !app_assoc. reflexivity.
  - destruct (load_decompose tokenize_variable_array2 escape_string scripts
                loading w' cmd false st' path_var Hinv' Hblocked')
      as (res' & st4 & ev4 & Hloc4 & _ & Hload4); try done.
    { simpl. by rewrite He3, He2. }
    cbv zeta in Hloc4, Hload4.
    assert (bool_decide (path_var ≠ path st') = false) as Hsame.
    { apply bool_decide_eq_false. simpl. rewrite Hp3, Hp2. by intros ?. }
    rewrite Hsame in Hloc4, Hload4. rewrite Hback, Hagain in Hloc4.
    injection Hloc4 as <- <- <-. rewrite Hload4. done.
Qed.
End load_round_trip.

(** ** Part XIV. The further properties on concrete inputs *)

Lemma cache_ab_a_wf : lru_wf cache_ab_a.
Proof.
  pose proof (run_ops_invariant (E:=event) ops_ab_a (lru_cache_new 2)
                (lru_cache_new_wf 2)) as Hinv.
  assert (run_ops ops_ab_a (lru_cache_new 2) = Some (cache_ab_a, []))
    as Hrun by (vm_compute; reflexivity).
  rewrite Hrun in Hinv. apply Hinv. simpl. lia.
Qed.

Lemma manager_inv_after_load scripts loading w cmd reload st :
  manager_inv scripts loading st →
  manager_inv scripts loading
    (default st (state_of (example_load w cmd reload st))).
Proof.
  intros Hinv.
  destruct (triple_load example_tokenize example_escape scripts loading w
              cmd reload st Hinv) as (r & st' & ev & Hload & Hinv').
  unfold example_load. by rewrite Hload.
Qed.

Lemma manager_f_loaded_inv : manager_inv [] ∅ manager_f_loaded.
Proof. apply manager_inv_after_load, manager_inv_new. Qed.

Lemma manager_zz_unknown_inv : manager_inv [] ∅ manager_zz_unknown.
Proof. apply manager_inv_after_load, manager_inv_new. Qed.

Lemma manager_2_inv : manager_inv [] ∅ manager_2.
Proof. apply manager_inv_new. Qed.

Lemma evict_node_by_key_spec_witness :
  lru_wf cache_ab_a
  ∧ ∃ c', evict_node_by_key "b" cache_ab_a
          = Some (true, c', node_was_evicted node_b)
          ∧ lru_wf c'
          ∧ node_set c' = delete "b" (node_set cache_ab_a)
          ∧ lru_list c' = filter (λ x, x ≠ "b") (lru_list cache_ab_a)
          ∧ S (node_count c') = node_count cache_ab_a
          ∧ max_node_count c' = max_node_count cache_ab_a.
Proof.
  split; [exact cache_ab_a_wf|].
  exact (evict_node_by_key_spec "b" cache_ab_a cache_ab_a_wf).
Defined.

Lemma evict_all_nodes_spec_witness :
  lru_wf cache_ab_a
  ∧ evict_all_nodes cache_ab_a
    = Some (LruCache 2 0 ∅ [], [CommandRemoved "b"; CommandRemoved "a"]).
Proof.
  split; [exact cache_ab_a_wf|].
  exact (evict_all_nodes_spec cache_ab_a cache_ab_a_wf).
Defined.

Lemma get_node_only_reorders_witness :
  lru_wf cache_ab_a
  ∧ (get_node "b" cache_ab_a).1 = node_set cache_ab_a !! "b"
  ∧ lru_wf (get_node "b" cache_ab_a).2
  ∧ node_set (get_node "b" cache_ab_a).2 = node_set cache_ab_a
  ∧ node_count (get_node "b" cache_ab_a).2 = node_count cache_ab_a
  ∧ max_node_count (get_node "b" cache_ab_a).2 = max_node_count cache_ab_a
  ∧ lru_list (get_node "b" cache_ab_a).2 ≡ₚ lru_list cache_ab_a
  ∧ (node_set cache_ab_a !! "b" = None
     → (get_node "b" cache_ab_a).2 = cache_ab_a)
  ∧ get_node "b" (get_node "b" cache_ab_a).2 = get_node "b" cache_ab_a.
Proof.
  split; [exact cache_ab_a_wf|].
  exact (get_node_only_reorders "b" cache_ab_a cache_ab_a_wf).
Defined.

Lemma get_node_after_add_node_witness :
  lru_wf cache_ab_a ∧ 0 < max_node_count cache_ab_a
  ∧ ∃ c' ev, add_node node_c cache_ab_a = Some (true, c', ev)
             ∧ head (lru_list c') = Some "c"
             ∧ get_node "c" c' = (Some node_c, c').
Proof.
  assert (0 < max_node_count cache_ab_a) as H2 by (simpl; lia).
  split; [exact cache_ab_a_wf|]. split; [exact H2|].
  exact (get_node_after_add_node (E:=event) node_c cache_ab_a cache_ab_a_wf
           H2).
Defined.

Lemma evict_node_after_add_node_witness :
  lru_wf (lru_cache_new 2 : lru_cache_impl_t autoload_function_t)
  ∧ node_set (lru_cache_new 2 : lru_cache_impl_t autoload_function_t)
      !! node_key node_a = None
  ∧ node_count (lru_cache_new 2 : lru_cache_impl_t autoload_function_t)
    < max_node_count (lru_cache_new 2 : lru_cache_impl_t autoload_function_t)
  ∧ ∃ c1, add_node node_a (lru_cache_new 2) = Some (true, c1, [])
          ∧ evict_node_by_key (node_key node_a) c1
            = Some (true, lru_cache_new 2, node_was_evicted node_a).
Proof.
  assert (lru_wf (lru_cache_new 2 : lru_cache_impl_t autoload_function_t))
    as H1 by apply lru_cache_new_wf.
  assert (node_set (lru_cache_new 2 : lru_cache_impl_t autoload_function_t)
            !! node_key node_a = None) as H2 by reflexivity.
  assert (node_count (lru_cache_new 2 : lru_cache_impl_t autoload_function_t)
          < max_node_count
              (lru_cache_new 2 : lru_cache_impl_t autoload_function_t))
    as H3 by (simpl; lia).
  split; [exact H1|]. split; [exact H2|]. split; [exact H3|].
  exact (evict_node_after_add_node (E:=event) node_a (lru_cache_new 2) H1 H2
           H3).
Defined.

Lemma add_node_same_as_without_eviction_witness :
  lru_wf cache_ab_a
  ∧ add_node (E:=event) node_c cache_ab_a
    = add_node_without_eviction node_c cache_ab_a.
Proof.
  split; [exact cache_ab_a_wf|].
  exact (add_node_same_as_without_eviction node_c cache_ab_a cache_ab_a_wf).
Defined.

Lemma evict_last_node_spec_witness :
  lru_wf cache_ab_a
  ∧ ∃ n c', node_set cache_ab_a !! "b" = Some n
            ∧ evict_last_node cache_ab_a = Some (c', node_was_evicted n)
            ∧ lru_wf c'
            ∧ node_set c' = delete "b" (node_set cache_ab_a)
            ∧ lru_list c' ++ ["b"] = lru_list cache_ab_a
            ∧ S (node_count c') = node_count cache_ab_a
            ∧ max_node_count c' = max_node_count cache_ab_a.
Proof.
  split; [exact cache_ab_a_wf|].
  exact (evict_last_node_spec (E:=event) cache_ab_a cache_ab_a_wf).
Defined.

Lemma locate_only_touches_cmd_witness :
  lru_wf (cache manager_2)
  ∧ node_count (cache manager_2) ≤ max_node_count (cache manager_2)
  ∧ 0 < max_node_count (cache manager_2)
  ∧ locate_file_and_maybe_load_it example_escape world_d "f" true false
      ["/d"] manager_2 = Some (true, manager_f_located, trace_f_located)
  ∧ lru_wf (cache manager_f_located)
  ∧ node_count (cache manager_f_located)
    ≤ max_node_count (cache manager_f_located)
  ∧ path manager_f_located = path manager_2
  ∧ is_loading_set manager_f_located = is_loading_set manager_2
  ∧ env_var_name manager_f_located = env_var_name manager_2
  ∧ builtin_scripts manager_f_located = builtin_scripts manager_2
  ∧ max_node_count (cache manager_f_located)
    = max_node_count (cache manager_2)
  ∧ ∀ k n, k ≠ "f" → node_set (cache manager_f_located) !! k = Some n →
           node_set (cache manager_2) !! k = Some n.
Proof.
  assert (lru_wf (cache manager_2)) as H1 by apply (lru_cache_new_wf 2).
  assert (node_count (cache manager_2) ≤ max_node_count (cache manager_2))
    as H2 by (simpl; lia).
  assert (0 < max_node_count (cache manager_2)) as H2' by (simpl; lia).
  assert (locate_file_and_maybe_load_it example_escape world_d "f" true
            false ["/d"] manager_2
          = Some (true, manager_f_located, trace_f_located)) as H3
    by (vm_compute; reflexivity).
  split; [exact H1|]. split; [exact H2|]. split; [exact H2'|].
  split; [exact H3|].
  exact (locate_only_touches_cmd example_escape world_d "f" true false
           ["/d"] manager_2 manager_f_located true trace_f_located H1 H2 H2'
           H3).
Defined.

Lemma unload_removes_entry_witness :
  lru_wf (cache manager_f_loaded)
  ∧ match node_set (cache manager_f_loaded) !! "f" with
    | None => unload "f" manager_f_loaded = Some (0%Z, manager_f_loaded, [])
    | Some f =>
        ∃ c',
          unload "f" manager_f_loaded
          = Some (1%Z, set_cache c' manager_f_loaded,
                  if is_loaded f then [] else [CommandRemoved "f"])
          ∧ lru_wf c'
          ∧ node_set c' = delete "f" (node_set (cache manager_f_loaded))
          ∧ lru_list c'
            = filter (λ x, x ≠ "f") (lru_list (cache manager_f_loaded))
          ∧ S (node_count c') = node_count (cache manager_f_loaded)
          ∧ max_node_count c' = max_node_count (cache manager_f_loaded)
          ∧ unload "f" (set_cache c' manager_f_loaded)
            = Some (0%Z, set_cache c' manager_f_loaded, [])
    end.
Proof.
  assert (lru_wf (cache manager_f_loaded)) as H1
    by apply (inv_wf _ _ _ manager_f_loaded_inv).
  split; [exact H1|].
  exact (unload_removes_entry "f" manager_f_loaded H1).
Defined.

Lemma unload_all_reports_unloaded_entries_witness :
  lru_wf (cache manager_zz_unknown)
  ∧ ∃ ev,
      unload_all manager_zz_unknown = Some (tt, emptied manager_zz_unknown, ev)
      ∧ ev = evictions (cache manager_zz_unknown)
               (reverse (lru_list (cache manager_zz_unknown)))
      ∧ (∀ e, e ∈ ev → ∃ k, e = CommandRemoved k)
      ∧ ∀ k, CommandRemoved k ∈ ev
             ↔ ∃ f, node_set (cache manager_zz_unknown) !! k = Some f
                    ∧ is_loaded f = false.
Proof.
  assert (lru_wf (cache manager_zz_unknown)) as H1
    by apply (inv_wf _ _ _ manager_zz_unknown_inv).
  split; [exact H1|].
  exact (unload_all_reports_unloaded_entries manager_zz_unknown H1).
Defined.

Lemma matching_builtin_script_first_witness :
  sorted_by_name (builtin_scripts manager_ls)
  ∧ match matching_builtin_script (builtin_scripts manager_ls) "ls" with
    | Some b =>
        ∃ i, builtin_scripts manager_ls !! i = Some b ∧ name b = "ls"
             ∧ ∀ j b', j < i → builtin_scripts manager_ls !! j = Some b' →
                       name b' ≠ "ls"
    | None => ∀ b, b ∈ builtin_scripts manager_ls → name b ≠ "ls"
    end.
Proof.
  assert (sorted_by_name (builtin_scripts manager_ls)) as H1
    by (repeat constructor).
  split; [exact H1|].
  exact (matching_builtin_script_first (builtin_scripts manager_ls) "ls" H1).
Defined.

Lemma first_accessible_directory_wins_witness :
  lru_wf (cache manager_2) ∧ 0 < max_node_count (cache manager_2)
  ∧ (∀ d, d ∈ ["/c"] → file_accessible world_d "f" d = false)
  ∧ file_accessible world_d "f" "/d" = true
  ∧ use_cached world_d true false (node_set (cache manager_2) !! "f") = false
  ∧ matching_builtin_script (builtin_scripts manager_2) "f" = None
  ∧ ∃ r st' rest,
      locate_file_and_maybe_load_it example_escape world_d "f" true false
        (["/c"] ++ "/d" :: ["/e"]) manager_2
      = Some (r, st',
              ((λ d, AccessFile (candidate_file d "f")) <$> (["/c"] ++ ["/d"]))
              ++ rest)
      ∧ (∀ file, AccessFile file ∉ rest)
      ∧ locate_file_and_maybe_load_it example_escape world_d "f" true false
          (["/c"] ++ ["/d"]) manager_2
        = locate_file_and_maybe_load_it example_escape world_d "f" true
            false (["/c"] ++ "/d" :: ["/e"]) manager_2
      ∧ ∀ f', node_set (cache st') !! "f" = Some f' →
              access f' = access_file world_d (candidate_file "/d" "f") R_OK.
Proof.
  assert (lru_wf (cache manager_2)) as H1 by apply (lru_cache_new_wf 2).
  assert (0 < max_node_count (cache manager_2)) as H1' by (simpl; lia).
  assert (∀ d, d ∈ ["/c"] → file_accessible world_d "f" d = false) as H2.
  { intros d Hd. apply list_elem_of_singleton in Hd. rewrite Hd.
    vm_compute. reflexivity. }
  assert (file_accessible world_d "f" "/d" = true) as H3
    by (vm_compute; reflexivity).
  assert (use_cached world_d true false (node_set (cache manager_2) !! "f")
          = false) as H4 by reflexivity.
  assert (matching_builtin_script (builtin_scripts manager_2) "f" = None)
    as H5 by reflexivity.
  split; [exact H1|]. split; [exact H1'|]. split; [exact H2|].
  split; [exact H3|]. split; [exact H4|]. split; [exact H5|].
  exact (first_accessible_directory_wins example_escape world_d "f" true
           false ["/c"] "/d" ["/e"] manager_2 H1 H1' H2 H3 H4 H5).
Defined.

Lemma loaded_file_is_remembered_witness :
  lru_wf (cache manager_2) ∧ 0 < max_node_count (cache manager_2)
  ∧ node_set (cache manager_2) !! "f" = None
  ∧ matching_builtin_script (builtin_scripts manager_2) "f" = None
  ∧ first_accessible world_d "f" ["/d"] = Some "/d"
  ∧ ∃ st',
      locate_file_and_maybe_load_it example_escape world_d "f" true false
        ["/d"] manager_2
      = Some (true, st',
              probes world_d "f" ["/d"]
              ++ insertion_evictions (new_autoload_function "f")
                   (cache manager_2)
              ++ [ExecSubshell
                    (". " +:+ example_escape (candidate_file "/d" "f"))])
      ∧ node_set (cache st') !! "f"
        = Some (AutoloadFunction "f"
                  (access_file world_d (candidate_file "/d" "f") R_OK)
                  true false)
      ∧ head (lru_list (cache st')) = Some "f"
      ∧ ∀ w' really_load' path_list',
          locate_file_and_maybe_load_it example_escape w' "f" really_load'
            false path_list' st' = Some (true, st', []).
Proof.
  assert (lru_wf (cache manager_2)) as H1 by apply (lru_cache_new_wf 2).
  assert (0 < max_node_count (cache manager_2)) as H2 by (simpl; lia).
  assert (node_set (cache manager_2) !! "f" = None) as H3 by reflexivity.
  assert (matching_builtin_script (builtin_scripts manager_2) "f" = None)
    as H4 by reflexivity.
  assert (first_accessible world_d "f" ["/d"] = Some "/d") as H5
    by (vm_compute; reflexivity).
  split; [exact H1|]. split; [exact H2|]. split; [exact H3|].
  split; [exact H4|]. split; [exact H5|].
  exact (loaded_file_is_remembered example_escape world_d "f" false ["/d"]
           manager_2 "/d" H1 H2 H3 H4 H5).
Defined.

Lemma unknown_command_gets_placeholder_witness :
  lru_wf (cache manager_2) ∧ 0 < max_node_count (cache manager_2)
  ∧ node_set (cache manager_2) !! "zz" = None
  ∧ matching_builtin_script (builtin_scripts manager_2) "zz" = None
  ∧ (∀ d, d ∈ ["/d"] → file_accessible world_d "zz" d = false)
  ∧ ∃ st',
      locate_file_and_maybe_load_it example_escape world_d "zz" true false
        ["/d"] manager_2
      = Some (false, st',
              ((λ d, AccessFile (candidate_file d "zz")) <$> ["/d"])
              ++ insertion_evictions
                   (set_is_placeholder true (new_autoload_function "zz"))
                   (cache manager_2))
      ∧ node_set (cache st') !! "zz"
        = Some (AutoloadFunction "zz"
                  (FileAccess 0 (time_at_placeholder world_d) false false 0)
                  false true)
      ∧ head (lru_list (cache st')) = Some "zz"
      ∧ ∀ w' path_list',
          locate_file_and_maybe_load_it example_escape w' "zz" false false
            path_list' st' = Some (false, st', []).
Proof.
  assert (lru_wf (cache manager_2)) as H1 by apply (lru_cache_new_wf 2).
  assert (0 < max_node_count (cache manager_2)) as H2 by (simpl; lia).
  assert (node_set (cache manager_2) !! "zz" = None) as H3 by reflexivity.
  assert (matching_builtin_script (builtin_scripts manager_2) "zz" = None)
    as H4 by reflexivity.
  assert (∀ d, d ∈ ["/d"] → file_accessible world_d "zz" d = false) as H5.
  { intros d Hd. apply list_elem_of_singleton in Hd. rewrite Hd.
    vm_compute. reflexivity. }
  split; [exact H1|]. split; [exact H2|]. split; [exact H3|].
  split; [exact H4|]. split; [exact H5|].
  exact (unknown_command_gets_placeholder example_escape world_d "zz" true
           false ["/d"] manager_2 H1 H2 H3 H4 H5).
Defined.

Lemma stale_entry_is_checked_again_witness :
  node_set (cache manager_f_loaded) !! "f" = Some entry_f
  ∧ matching_builtin_script (builtin_scripts manager_f_loaded) "f" = None
  ∧ (true = true → is_loaded entry_f = true)
  ∧ let age :=
      time_t_sub (time_at_cache_check world_d_later)
        (last_checked (access entry_f)) in
    let answered :=
      Some (accessible (access entry_f),
            set_cache (promote_node "f" (cache manager_f_loaded))
              manager_f_loaded, []) in
    locate_file_and_maybe_load_it example_escape world_d_later "f" true
      false ["/d"] manager_f_loaded = answered
    ∧ ((age ≤ kAutoloadStalenessInterval)%Z →
       locate_file_and_maybe_load_it example_escape world_d_later "f" true
         true ["/d"] manager_f_loaded = answered)
    ∧ ((kAutoloadStalenessInterval < age)%Z →
       ∃ r st' ev f',
         locate_file_and_maybe_load_it example_escape world_d_later "f" true
           true ["/d"] manager_f_loaded
         = Some (r, st', probes world_d_later "f" ["/d"] ++ ev)
         ∧ (∀ file, AccessFile file ∉ ev)
         ∧ node_set (cache st') !! "f" = Some f'
         ∧ last_checked (access f')
           = match first_accessible world_d_later "f" ["/d"] with
             | Some next =>
                 time_in_access_file world_d_later (candidate_file next "f")
             | None => time_at_placeholder world_d_later
             end)
    ∧ (time_t_min ≤ age ≤ time_t_max)%Z
    ∧ ((time_t_min
        ≤ time_at_cache_check world_d_later - last_checked (access entry_f)
        ≤ time_t_max)%Z →
       age
       = (time_at_cache_check world_d_later
          - last_checked (access entry_f))%Z)
    ∧ ((time_t_max
        < time_at_cache_check world_d_later - last_checked (access entry_f)
        ≤ time_t_max + 2 ^ 63)%Z →
       locate_file_and_maybe_load_it example_escape world_d_later "f" true
         true ["/d"] manager_f_loaded = answered).
Proof.
  assert (node_set (cache manager_f_loaded) !! "f" = Some entry_f) as H1
    by (vm_compute; reflexivity).
  assert (matching_builtin_script (builtin_scripts manager_f_loaded) "f"
          = None) as H2 by (vm_compute; reflexivity).
  assert (true = true → is_loaded entry_f = true) as H3
    by (intros _; reflexivity).
  split; [exact H1|]. split; [exact H2|]. split; [exact H3|].
  exact (stale_entry_is_checked_again example_escape world_d_later "f" true
           ["/d"] manager_f_loaded entry_f H1 H2 H3).
Defined.

Lemma lookup_needs_path_variable_witness :
  signal_is_blocked world_unset = false
  ∧ var_empty (env_get_string world_unset (env_var_name manager_loading_f))
    = true
  ∧ load example_tokenize example_escape world_unset "f" false
      manager_loading_f = Some (0%Z, manager_loading_f, [])
  ∧ can_load example_tokenize example_escape world_unset "f"
      (env_get_string world_unset) manager_loading_f
    = Some (false, manager_loading_f, []).
Proof.
  assert (signal_is_blocked world_unset = false) as H1 by reflexivity.
  assert (var_empty
            (env_get_string world_unset (env_var_name manager_loading_f))
          = true) as H2 by reflexivity.
  split; [exact H1|]. split; [exact H2|].
  exact (lookup_needs_path_variable example_tokenize example_escape
           world_unset "f" false manager_loading_f H1 H2).
Defined.

Lemma load_path_change_drops_all_witness :
  manager_inv [] ∅ manager_f_loaded
  ∧ 0 < max_node_count (cache manager_f_loaded)
  ∧ signal_is_blocked world_e = false
  ∧ env_get_string world_e (env_var_name manager_f_loaded) = Some "/e"
  ∧ "/e" ≠ "" ∧ "/e" ≠ path manager_f_loaded
  ∧ ∃ r st' ev,
      load example_tokenize example_escape world_e "a" false
        manager_f_loaded
      = Some (r, st',
              evictions (cache manager_f_loaded)
                (reverse (lru_list (cache manager_f_loaded))) ++ ev)
      ∧ path st' = "/e"
      ∧ is_loading_set st' = is_loading_set manager_f_loaded
      ∧ max_node_count (cache st') = max_node_count (cache manager_f_loaded)
      ∧ ∀ k, k ≠ "a" → node_set (cache st') !! k = None.
Proof.
  assert (0 < max_node_count (cache manager_f_loaded)) as H1
    by (vm_compute; lia).
  assert (signal_is_blocked world_e = false) as H2 by reflexivity.
  assert (env_get_string world_e (env_var_name manager_f_loaded)
          = Some "/e") as H3 by reflexivity.
  assert ("/e" ≠ "") as H4 by discriminate.
  assert ("/e" ≠ path manager_f_loaded) as H5
    by (vm_compute; discriminate).
  split; [exact manager_f_loaded_inv|]. split; [exact H1|].
  split; [exact H2|]. split; [exact H3|]. split; [exact H4|].
  split; [exact H5|].
  exact (load_path_change_drops_all example_tokenize example_escape [] ∅
           world_e "a" false manager_f_loaded "/e" manager_f_loaded_inv H1
           H2 H3 H4 H5).
Defined.

Lemma load_returns_and_cleans_up_witness :
  manager_inv [] ∅ manager_f_loaded
  ∧ 0 < max_node_count (cache manager_f_loaded)
  ∧ ∃ r st' ev,
      load example_tokenize example_escape world_d_later "a" true
        manager_f_loaded = Some (r, st', ev)
      ∧ (r = 0 ∨ r = 1)%Z
      ∧ manager_inv [] ∅ st'
      ∧ is_loading_set st' = is_loading_set manager_f_loaded
      ∧ max_node_count (cache st') = max_node_count (cache manager_f_loaded)
      ∧ path st'
        = (if signal_is_blocked world_d_later
              || var_empty
                   (env_get_string world_d_later
                      (env_var_name manager_f_loaded))
           then path manager_f_loaded
           else default ""
                  (env_get_string world_d_later
                     (env_var_name manager_f_loaded)))
      ∧ (signal_is_blocked world_d_later = true →
         r = 0%Z ∧ st' = manager_f_loaded ∧ ev = [BlockedSignals]).
Proof.
  assert (0 < max_node_count (cache manager_f_loaded)) as H1
    by (vm_compute; lia).
  split; [exact manager_f_loaded_inv|]. split; [exact H1|].
  exact (load_returns_and_cleans_up example_tokenize example_escape [] ∅
           world_d_later "a" true manager_f_loaded manager_f_loaded_inv H1).
Defined.

Lemma can_load_answered_from_entry_witness :
  var_empty (env_get_string world_d_later (env_var_name manager_zz_unknown))
  = false
  ∧ node_set (cache manager_zz_unknown) !! "zz" = Some placeholder_zz
  ∧ can_load example_tokenize example_escape world_d_later "zz"
      (env_get_string world_d_later) manager_zz_unknown
    = Some (accessible (access placeholder_zz),
            set_cache (promote_node "zz" (cache manager_zz_unknown))
              manager_zz_unknown, []).
Proof.
  assert (var_empty
            (env_get_string world_d_later (env_var_name manager_zz_unknown))
          = false) as H1 by reflexivity.
  assert (node_set (cache manager_zz_unknown) !! "zz" = Some placeholder_zz)
    as H2 by (vm_compute; reflexivity).
  split; [exact H1|]. split; [exact H2|].
  exact (can_load_answered_from_entry example_tokenize example_escape
           world_d_later "zz" (env_get_string world_d_later)
           manager_zz_unknown placeholder_zz H1 H2).
Defined.

Lemma load_twice_witness :
  manager_inv [] ∅ manager_2
  ∧ signal_is_blocked world_d = false
  ∧ signal_is_blocked world_d_no_files = false
  ∧ env_get_string world_d (env_var_name manager_2) = Some "/d"
  ∧ env_get_string world_d_no_files (env_var_name manager_2) = Some "/d"
  ∧ "/d" ≠ ""
  ∧ ("f" ∉ (∅ : gset string))
  ∧ 0 < max_node_count (cache manager_2)
  ∧ ("/d" ≠ path manager_2 ∨ node_set (cache manager_2) !! "f" = None)
  ∧ matching_builtin_script [] "f" = None
  ∧ first_accessible world_d "f" (example_tokenize "/d") = Some "/d"
  ∧ ∃ st' ev,
      load example_tokenize example_escape world_d "f" false manager_2
      = Some (1%Z, st',
              ev ++ [ExecSubshell
                       (". " +:+ example_escape (candidate_file "/d" "f"))])
      ∧ load example_tokenize example_escape world_d_no_files "f" false st'
        = Some (1%Z, st', []).
Proof.
  assert (signal_is_blocked world_d = false) as H2 by reflexivity.
  assert (signal_is_blocked world_d_no_files = false) as H3 by reflexivity.
  assert (env_get_string world_d (env_var_name manager_2) = Some "/d")
    as H4 by reflexivity.
  assert (env_get_string world_d_no_files (env_var_name manager_2)
          = Some "/d") as H5 by reflexivity.
  assert ("/d" ≠ "") as H6 by discriminate.
  assert ("f" ∉ (∅ : gset string)) as H7 by apply not_elem_of_empty.
  assert (0 < max_node_count (cache manager_2)) as H8 by (simpl; lia).
  assert ("/d" ≠ path manager_2 ∨ node_set (cache manager_2) !! "f" = None)
    as H9 by (right; reflexivity).
  assert (matching_builtin_script [] "f" = None) as H10 by reflexivity.
  assert (first_accessible world_d "f" (example_tokenize "/d") = Some "/d")
    as H11 by (vm_compute; reflexivity).
  split; [exact manager_2_inv|]. split; [exact H2|]. split; [exact H3|].
  split; [exact H4|]. split; [exact H5|]. split; [exact H6|].
  split; [exact H7|]. split; [exact H8|]. split; [exact H9|].
  split; [exact H10|]. split; [exact H11|].
  exact (load_twice example_tokenize example_escape [] ∅ world_d
           world_d_no_files "f" false manager_2 "/d" "/d" manager_2_inv H2
           H3 H4 H5 H6 H7 H8 H9 H10 H11).
Defined.

Lemma calls_keep_manager_consistent_witness :
  0 < 2
  ∧ ∃ st ev,
      run_calls example_tokenize example_escape calls_f
        (autoload_new 2 "fish_function_path"
           [BuiltinScript "ls" "function ls; end"]) = Some (tt, st, ev)
      ∧ lru_wf (cache st)
      ∧ node_count (cache st) ≤ max_node_count (cache st)
      ∧ is_loading_set st = ∅
      ∧ builtin_scripts st = [BuiltinScript "ls" "function ls; end"]
      ∧ ∀ k, is_Some (node_set (cache st) !! k) →
             matching_builtin_script [BuiltinScript "ls" "function ls; end"]
               k = None.
Proof.
  assert (0 < 2) as H1 by lia.
  split; [exact H1|].
  exact (calls_keep_manager_consistent example_tokenize example_escape 2
           "fish_function_path" [BuiltinScript "ls" "function ls; end"]
           calls_f H1).
Defined.

(** ** Part XV. The guard of [load] and the probe that evicts *)

Section load_guard.
Context (tokenize_variable_array2 : string → list string)
        (escape_string : string → string).
Implicit Types (st : autoload_t) (cmd : string) (w : world).

(** [load] of a command that is being loaded, once the path variable is
    known to have a value. *)
Lemma load_while_loading w cmd reload st path_var :
  cmd ∈ is_loading_set st →
  signal_is_blocked w = false →
  lru_wf (cache st) →
  env_get_string w (env_var_name st) = Some path_var →
  path_var ≠ "" →
  load tokenize_variable_array2 escape_string w cmd reload st
  = Some (1%Z,
          (if bool_decide (path_var ≠ path st)
           then emptied (set_path path_var st) else st),
          (if bool_decide (path_var ≠ path st)
           then evictions (cache st) (reverse (lru_list (cache st)))
           else []) ++ [DebugMessage cmd]).
Proof.
  intros Hin Hblocked Hwf Hvar Hne.
  set (changed := bool_decide (path_var ≠ path st)).
  set (st1 := if changed then emptied (set_path path_var st) else st).
  set (ev1 := if changed
              then evictions (cache st) (reverse (lru_list (cache st)))
              else []).
  assert ((if changed
           then modify (set_path path_var);; this_evict_all_nodes
           else mret tt) st = Some (tt, st1, ev1)) as Hstep1.
  { subst st1 ev1. destruct changed; [|done].
    rewrite (run_bind (modify _) _ st tt (set_path path_var st) [])
      by done.
    rewrite after_events_nil.
    unfold this_evict_all_nodes, on_cache. cbn [cache set_path].
    by rewrite (evict_all_nodes_empties _ Hwf). }
  assert (is_loading cmd st1 = true) as Hloading.
  { apply bool_decide_eq_true. subst st1. by destruct changed. }
  unfold load. rewrite Hblocked.
  rewrite (run_bind this _ st st st []) by done. rewrite after_events_nil.
  rewrite Hvar. simpl (var_empty _).
  rewrite bool_decide_eq_false_2 by done. simpl (default _ _).
  fold changed. rewrite (run_bind _ _ st tt st1 ev1 Hstep1).
  rewrite (run_bind this _ st1 st1 st1 []) by done.
  rewrite after_events_nil, Hloading. reflexivity.
Qed.

(** C8, as amended. [load] is called for a command that is being loaded,
    and signals are not blocked. When the path variable is missing or
    empty the call returns 0 and does nothing: there is no message. When
    the variable has a value, the call returns 1 and its last event is
    the message about the circular dependency. If the value is the
    recorded path, that message is all the call does and the manager is
    left as it is. If the value is not the recorded path, the call first
    records it and evicts the whole cache, from the least recently used
    entry: before the message there are the calls of [command_removed] of
    that eviction and nothing else, and the manager is left with the new
    path and the empty cache. In no case is a built-in script looked up,
    a file probed, an entry created or a script executed, and the set of
    the commands that are being loaded is the same. *)
Theorem load_circular_guard
    (w : world) (cmd : string) (reload : bool) (st : autoload_t) :
  cmd ∈ is_loading_set st →
  signal_is_blocked w = false →
  lru_wf (cache st) →
  let path_var := env_get_string w (env_var_name st) in
  let evicted := evictions (cache st) (reverse (lru_list (cache st))) in
  (var_empty path_var = true →
   load tokenize_variable_array2 escape_string w cmd reload st
   = Some (0%Z, st, []))
  ∧ (var_empty path_var = false → default "" path_var = path st →
     load tokenize_variable_array2 escape_string w cmd reload st
     = Some (1%Z, st, [DebugMessage cmd]))
  ∧ (var_empty path_var = false → default "" path_var ≠ path st →
     load tokenize_variable_array2 escape_string w cmd reload st
     = Some (1%Z, emptied (set_path (default "" path_var) st),
             evicted ++ [DebugMessage cmd])
     ∧ (∀ e, e ∈ evicted →
             ∃ k, e = CommandRemoved k
                  ∧ is_Some (node_set (cache st) !! k))
     ∧ (∀ k, node_set (cache (emptied (set_path (default "" path_var) st)))
               !! k = None)
     ∧ is_loading_set (emptied (set_path (default "" path_var) st))
       = is_loading_set st).
Proof.
  intros Hin Hblocked Hwf path_var evicted. subst path_var evicted.
  split; [|split].
  - intros Hempty. unfold load. rewrite Hblocked.
    rewrite (run_bind this _ st st st []) by done.
    by rewrite after_events_nil, Hempty.
  - intros Hempty Hsame.
    destruct (env_get_string w (env_var_name st)) as [pv|] eqn:Hvar;
      [|done].
    simpl in Hempty, Hsame. apply bool_decide_eq_false in Hempty.
    rewrite (load_while_loading w cmd reload st pv Hin Hblocked Hwf Hvar
               Hempty).
    rewrite bool_decide_eq_false_2 by (intros Hne; by apply Hne).
    reflexivity.
  - intros Hempty Hdiff.
    destruct (env_get_string w (env_var_name st)) as [pv|] eqn:Hvar;
      [|done].
    simpl in Hempty, Hdiff. apply bool_decide_eq_false in Hempty.
    rewrite (load_while_loading w cmd reload st pv Hin Hblocked Hwf Hvar
               Hempty).
    rewrite !bool_decide_eq_true_2 by done. simpl (default _ _).
    split; [reflexivity|]. split; [|split; [|reflexivity]].
    + intros e He.
      destruct (evictions_only_command_removed _ _ _ He) as [k ->].
      exists k. split; [done|].
      apply elem_of_evictions in He as (k' & f & _ & Hf & _ & Hkey).
      rewrite <- Hkey, (wf_keys _ Hwf _ _ Hf : key f = k'). by exists f.
    + intros k. simpl. apply lookup_empty.
Qed.
End load_guard.

Lemma manager_loading_zz_wf : lru_wf (cache manager_loading_zz).
Proof.
  apply (inv_wf [] {["zz"]}).
  apply (manager_inv_set_is_loading_set [] ∅), manager_zz_unknown_inv.
Qed.

(** C8, as amended, on the manager that knows [zz] as a placeholder and
    is loading [zz], when the path variable has changed from [/d] to
    [/e]: the placeholder is evicted, then the message is given. *)
Lemma load_circular_guard_witness :
  "zz" ∈ is_loading_set manager_loading_zz
  ∧ signal_is_blocked world_e = false
  ∧ lru_wf (cache manager_loading_zz)
  ∧ let path_var := env_get_string world_e (env_var_name manager_loading_zz)
    in
    let evicted :=
      evictions (cache manager_loading_zz)
        (reverse (lru_list (cache manager_loading_zz))) in
    (var_empty path_var = true →
     load example_tokenize example_escape world_e "zz" false
       manager_loading_zz = Some (0%Z, manager_loading_zz, []))
    ∧ (var_empty path_var = false →
       default "" path_var = path manager_loading_zz →
       load example_tokenize example_escape world_e "zz" false
         manager_loading_zz
       = Some (1%Z, manager_loading_zz, [DebugMessage "zz"]))
    ∧ (var_empty path_var = false →
       default "" path_var ≠ path manager_loading_zz →
       load example_tokenize example_escape world_e "zz" false
         manager_loading_zz
       = Some (1%Z,
               emptied (set_path (default "" path_var) manager_loading_zz),
               evicted ++ [DebugMessage "zz"])
       ∧ (∀ e, e ∈ evicted →
               ∃ k, e = CommandRemoved k
                    ∧ is_Some (node_set (cache manager_loading_zz) !! k))
       ∧ (∀ k, node_set
                 (cache
                    (emptied
                       (set_path (default "" path_var) manager_loading_zz)))
                 !! k = None)
       ∧ is_loading_set
           (emptied (set_path (default "" path_var) manager_loading_zz))
         = is_loading_set manager_loading_zz).
Proof.
  assert ("zz" ∈ is_loading_set manager_loading_zz) as H1
    by (vm_compute; reflexivity).
  assert (signal_is_blocked world_e = false) as H2 by reflexivity.
  split; [exact H1|]. split; [exact H2|].
  split; [exact manager_loading_zz_wf|].
  exact (load_circular_guard example_tokenize example_escape world_e "zz"
           false manager_loading_zz H1 H2 manager_loading_zz_wf).
Defined.

(** C5. The branch of the path search on a probe, that is with
    [really_load] false, for [b] by the manager of capacity 1 that holds
    the entry of [a]. The entry of [b] is missing, no built-in script has
    the name, and the file of [b] in [/d] is accessible: the call is in
    the branch. The condition of the reload is false, and nothing is
    loaded: the trace has no execution. But the creation of the entry of
    [b] evicts the entry of [a], and [command_removed] is called for [a]
    in the branch. With [really_load] false the condition is false
    whatever the entry is; with [really_load] true it holds for a missing
    entry. *)
Theorem probe_branch_calls_command_removed :
  node_set (cache manager_a_probed) !! "b" = None
  ∧ use_cached world_d false false (node_set (cache manager_a_probed) !! "b")
    = false
  ∧ matching_builtin_script (builtin_scripts manager_a_probed) "b" = None
  ∧ first_accessible world_d "b" ["/d"] = Some "/d"
  ∧ need_to_load_function false (node_set (cache manager_a_probed) !! "b")
      (access_file world_d (candidate_file "/d" "b") R_OK) = false
  ∧ (∀ func acc, need_to_load_function false func acc = false)
  ∧ (∀ acc, need_to_load_function true None acc = true)
  ∧ ∃ st',
      locate_file_and_maybe_load_it example_escape world_d "b" false false
        ["/d"] manager_a_probed
      = Some (true, st', [AccessFile "/d/b.fish"; CommandRemoved "a"])
      ∧ node_set (cache st') !! "a" = None
      ∧ is_Some (node_set (cache manager_a_probed) !! "a").
Proof.
  split_and!; try (vm_compute; reflexivity); try done.
  eexists. split_and!; [vm_compute; reflexivity|vm_compute; reflexivity|].
  vm_compute. by eexists.
Qed.
